(** * Cost basis calculation of rotkehlchen/accounting/cost_basis.py

    A shallow embedding of [CostBasisCalculator] and of the data classes it
    works on, followed by the properties of the FIFO matching engine.

    Modelling choices:
    - [FVal] (an exact decimal) is a canonical rational [Qc]; [Timestamp]
      and the tax-free period are integers [Z].
    - [AssetAcquisitionEvent] objects are mutable and shared between the
      pending list, the used list and the matched acquisitions of returned
      results.  They live in a [heap] (a list indexed by a reference) and
      every container stores references.
    - The calculator is threaded explicitly; the module level logger and
      the [MessagesAggregator] are fields of the threaded state.
    - A Python exception ([IndexError], [UnboundLocalError]) is the result
      [None]. *)

From Stdlib Require Import QArith Qcanon Lqa.
From stdpp Require Import gmap strings list numbers.

Open Scope Qc_scope.

(** ** Basic types *)

Abbreviation FVal := Qc (only parsing).
Abbreviation Price := Qc (only parsing).
Abbreviation Timestamp := Z (only parsing).
Abbreviation Asset := string (only parsing).
Abbreviation Location := string (only parsing).
Abbreviation ZERO := (0 : Qc) (only parsing).

(** A reference to an [AssetAcquisitionEvent] object. *)
Abbreviation LotRef := nat (only parsing).

(** The constants of [rotkehlchen.constants] and [Asset.is_fiat], which
    the calculator imports and which are not part of this file. *)
Class RotkiEnv := {
  A_ETH : Asset;
  A_WETH : Asset;
  A_BTC : Asset;
  A_BCH : Asset;
  A_BSV : Asset;
  A_ETC : Asset;
  ETH_DAO_FORK_TS : Timestamp;
  BTC_BCH_FORK_TS : Timestamp;
  BCH_BSV_FORK_TS : Timestamp;
  is_fiat : Asset → bool;
  assets_distinct : NoDup [A_ETH; A_WETH; A_BTC; A_BCH; A_BSV; A_ETC];
}.

(** ** Data classes *)

Record MatchedAcquisition := {
  ma_amount : FVal;
  ma_event : LotRef;
}.

Record CostBasisInfo := {
  taxable_amount : FVal;
  taxable_bought_cost : FVal;
  taxfree_bought_cost : FVal;
  matched_acquisitions : list MatchedAcquisition;
  is_complete : bool;
}.

Inductive AccountingEventType :=
| PREFORK_ACQUISITION
| EVENT_TYPE (name : string).

Record PNL := { pnl_taxable : FVal; pnl_free : FVal }.

(** [PNL()] *)
Definition PNL_new : PNL := {| pnl_taxable := ZERO; pnl_free := ZERO |}.

(** The fields of [ProcessedAccountingEvent] that the calculator sets. *)
Record ProcessedAccountingEvent := {
  ev_type : AccountingEventType;
  ev_notes : string;
  ev_location : Location;
  ev_timestamp : Timestamp;
  ev_asset : Asset;
  ev_taxable_amount : FVal;
  ev_free_amount : FVal;
  ev_price : Price;
  ev_pnl : PNL;
  ev_cost_basis : option CostBasisInfo;
}.

Record AssetAcquisitionEvent := {
  event : ProcessedAccountingEvent;
  remaining_amount : FVal;
}.

(** The properties of [AssetAcquisitionEvent]. *)
Definition amount (a : AssetAcquisitionEvent) : FVal := ev_taxable_amount (event a).
Definition timestamp (a : AssetAcquisitionEvent) : Timestamp := ev_timestamp (event a).
Definition rate (a : AssetAcquisitionEvent) : Price := ev_price (event a).

(** [AssetAcquisitionEvent(event=event)] with its [__post_init__]. *)
Definition AssetAcquisitionEvent_new (e : ProcessedAccountingEvent) : AssetAcquisitionEvent :=
  {| event := e; remaining_amount := ev_taxable_amount e |}.

Record AssetSpendEvent := {
  spend_timestamp : Timestamp;
  spend_location : Location;
  spend_amount : FVal;
  spend_rate : FVal;
}.

Record CostBasisEvents := {
  used_acquisitions : list LotRef;
  acquisitions : list LotRef;
  spends : list AssetSpendEvent;
}.

(** [CostBasisEvents()] with its [__post_init__]. *)
Definition CostBasisEvents_new : CostBasisEvents :=
  {| used_acquisitions := []; acquisitions := []; spends := [] |}.

Record DBSettings := {
  main_currency : Asset;
  taxfree_after_period : option Z;
}.

(** What [inform_user_missing_acquisition] hands to [msg_aggregator.add_error]:
    the first message when [found_amount] is [None], the second otherwise. *)
Inductive UserMessage :=
| NoDocumentedAcquisition (asset : Asset) (time : Timestamp)
| NotEnoughDocumentedAcquisitions (asset : Asset) (time : Timestamp)
    (found_amount : FVal) (missing_amount : option FVal).

Inductive LogLevel := DEBUG | CRITICAL.

Inductive LogRecord :=
| SpendUsesUpPart (at_taxfree_period : bool) (used_amount from_amount : FVal)
    (asset : Asset) (acquisition_rate : Price) (profit_currency : Asset) (time : Timestamp)
| SpendUsesUpEntire (at_taxfree_period : bool) (bought_amount : FVal)
    (asset : Asset) (acquisition_rate : Price) (profit_currency : Asset) (time : Timestamp)
| NoDocumentedBuy (asset : Asset) (time : Timestamp).

Definition level (r : LogRecord) : LogLevel :=
  match r with
  | SpendUsesUpPart _ _ _ _ _ _ _ | SpendUsesUpEntire _ _ _ _ _ _ => DEBUG
  | NoDocumentedBuy _ _ => CRITICAL
  end.

(** ** The calculator state *)

Record CostBasisCalculator := {
  settings : DBSettings;
  profit_currency : Asset;
  _events : gmap string CostBasisEvents;
  msg_aggregator : list UserMessage;
  heap : list AssetAcquisitionEvent;
  log : list LogRecord;
}.

#[global] Instance AssetAcquisitionEvent_inhabited : Inhabited AssetAcquisitionEvent :=
  populate (AssetAcquisitionEvent_new
    {| ev_type := PREFORK_ACQUISITION; ev_notes := ""; ev_location := "";
       ev_timestamp := 0; ev_asset := ""; ev_taxable_amount := ZERO;
       ev_free_amount := ZERO; ev_price := ZERO; ev_pnl := PNL_new;
       ev_cost_basis := None |}).

Definition set_events (m : gmap string CostBasisEvents) (s : CostBasisCalculator) :=
  {| settings := settings s; profit_currency := profit_currency s; _events := m;
     msg_aggregator := msg_aggregator s; heap := heap s; log := log s |}.

Definition set_heap (h : list AssetAcquisitionEvent) (s : CostBasisCalculator) :=
  {| settings := settings s; profit_currency := profit_currency s; _events := _events s;
     msg_aggregator := msg_aggregator s; heap := h; log := log s |}.

(** [msg_aggregator.add_error(m)] *)
Definition add_error (m : UserMessage) (s : CostBasisCalculator) :=
  {| settings := settings s; profit_currency := profit_currency s; _events := _events s;
     msg_aggregator := msg_aggregator s ++ [m]; heap := heap s; log := log s |}.

(** [log.debug(...)] and [log.critical(...)] *)
Definition log_emit (r : LogRecord) (s : CostBasisCalculator) :=
  {| settings := settings s; profit_currency := profit_currency s; _events := _events s;
     msg_aggregator := msg_aggregator s; heap := heap s; log := log s ++ [r] |}.

(** Dereference of a lot. *)
Definition lot (s : CostBasisCalculator) (r : LotRef) : AssetAcquisitionEvent :=
  heap s !!! r.

(** [r.remaining_amount = v] *)
Definition set_remaining_amount (r : LotRef) (v : FVal) (s : CostBasisCalculator) :=
  set_heap (<[r := {| event := event (lot s r); remaining_amount := v |}]> (heap s)) s.

(** [ledger[key] = asset_events]: the write back of a mutated ledger. *)
Definition store_events (key : Asset) (asset_events : CostBasisEvents) (s : CostBasisCalculator) :=
  set_events (<[key := asset_events]> (_events s)) s.

(** The stop position of the Python slice [l[:stop]]. *)
Definition slice_stop {A} (l : list A) (stop : Z) : nat :=
  Z.to_nat (if decide (stop < 0)%Z then Z.max 0 (Z.of_nat (length l) + stop) else stop).

(** The local variables of the loop of [calculate_spend_cost_basis]. *)
Record SpendLocals := {
  remaining_sold_amount : FVal;
  stop_index : Z;
  acc_taxfree_bought_cost : FVal;
  acc_taxable_bought_cost : FVal;
  acc_taxable_amount : FVal;
  taxfree_amount : FVal;
  remaining_amount_from_last_buy : FVal;
  acc_matched_acquisitions : list MatchedAcquisition;
}.

Section calculator.
Context {env : RotkiEnv}.

(** [CostBasisCalculator.__init__] with empty collaborators. *)
Definition CostBasisCalculator_new (settings : DBSettings) : CostBasisCalculator :=
  {| settings := settings; profit_currency := main_currency settings; _events := ∅;
     msg_aggregator := []; heap := []; log := [] |}.

Definition reset (new_settings : DBSettings) (s : CostBasisCalculator) : CostBasisCalculator :=
  {| settings := new_settings; profit_currency := main_currency new_settings; _events := ∅;
     msg_aggregator := msg_aggregator s; heap := heap s; log := log s |}.

(** The key under which [get_events] looks the asset up. *)
Definition events_key (asset : Asset) : Asset :=
  if decide (asset = A_WETH) then A_ETH else asset.

(** [get_events]: the ledger of the asset, created by the [defaultdict] when
    it is missing.  The ledger is returned with its key. *)
Definition get_events (asset : Asset) (s : CostBasisCalculator)
  : Asset * CostBasisEvents * CostBasisCalculator :=
  let asset := events_key asset in
  match _events s !! asset with
  | Some asset_events => (asset, asset_events, s)
  | None => (asset, CostBasisEvents_new, store_events asset CostBasisEvents_new s)
  end.

Definition inform_user_missing_acquisition (asset : Asset) (time : Timestamp)
    (found_amount missing_amount : option FVal) (s : CostBasisCalculator) : CostBasisCalculator :=
  match found_amount with
  | None => add_error (NoDocumentedAcquisition asset time) s
  | Some found => add_error (NotEnoughDocumentedAcquisitions asset time found missing_amount) s
  end.

(** The loop of [reduce_asset_amount].  [stop_index] is unbound ([None])
    until the loop assigns it.  The result is
    [(stop_index, remaining_amount_from_last_buy, remaining_amount)]. *)
Fixpoint reduce_loop (s : CostBasisCalculator) (len idx : Z) (acqs : list LotRef)
    (stop_index : option Z) (remaining_amount_from_last_buy remaining : FVal)
  : option Z * FVal * FVal :=
  match acqs with
  | [] => (stop_index, remaining_amount_from_last_buy, remaining)
  | r :: acqs' =>
    let acquisition_event := lot s r in
    if decide (remaining < remaining_amount acquisition_event) then
      (Some idx, remaining_amount acquisition_event - remaining, remaining)
    else
      let remaining := remaining - remaining_amount acquisition_event in
      let stop_index := if decide (idx = len - 1)%Z then Some (idx + 1)%Z else stop_index in
      reduce_loop s len (idx + 1) acqs' stop_index remaining_amount_from_last_buy remaining
  end.

Definition reduce_asset_amount (asset : Asset) (amount : FVal) (timestamp : Timestamp)
    (s : CostBasisCalculator) : option (bool * CostBasisCalculator) :=
  if decide (amount = ZERO) then Some (true, s) else
  let '(key, asset_events, s) := get_events asset s in
  if decide (length (acquisitions asset_events) = 0%nat) then Some (false, s) else
  let '(stop_index, remaining_amount_from_last_buy, remaining) :=
    reduce_loop s (Z.of_nat (length (acquisitions asset_events))) 0 (acquisitions asset_events)
      None (-1) amount in
  stop_index ← stop_index;
  let asset_events :=
    {| used_acquisitions := used_acquisitions asset_events;
       acquisitions := drop (slice_stop (acquisitions asset_events) stop_index)
                         (acquisitions asset_events);
       spends := spends asset_events |} in
  let s := store_events key asset_events s in
  if decide (remaining_amount_from_last_buy ≠ -1) then
    r0 ← acquisitions asset_events !! 0%nat;
    Some (true, set_remaining_amount r0 remaining_amount_from_last_buy s)
  else if decide (remaining ≠ ZERO) then
    Some (false, log_emit (NoDocumentedBuy asset timestamp) s)
  else Some (true, s).

(** [heap.append(lot)], returning the reference of the new object. *)
Definition alloc (a : AssetAcquisitionEvent) (s : CostBasisCalculator)
  : LotRef * CostBasisCalculator :=
  (length (heap s), set_heap (heap s ++ [a]) s).

Definition obtain_asset (event : ProcessedAccountingEvent) (s : CostBasisCalculator)
  : CostBasisCalculator :=
  let '(asset_event, s) := alloc (AssetAcquisitionEvent_new event) s in
  let '(key, asset_events, s) := get_events (ev_asset event) s in
  store_events key
    {| used_acquisitions := used_acquisitions asset_events;
       acquisitions := acquisitions asset_events ++ [asset_event];
       spends := spends asset_events |} s.

(** [at_taxfree_period] as the loop of [calculate_spend_cost_basis] computes it. *)
Definition at_taxfree_period (s : CostBasisCalculator) (time : Timestamp)
    (acquisition_event : AssetAcquisitionEvent) : bool :=
  match taxfree_after_period (settings s) with
  | None => false
  | Some period => bool_decide (timestamp acquisition_event + period < time)%Z
  end.

(** The branch of the loop that uses up part of a lot and breaks. *)
Definition spend_part (spending_asset : Asset) (idx : Z) (r : LotRef)
    (st : SpendLocals) (s : CostBasisCalculator) (time : Timestamp)
  : SpendLocals * CostBasisCalculator :=
  let acquisition_event := lot s r in
  let eligible := at_taxfree_period s time acquisition_event in
  let acquisition_cost := rate acquisition_event * remaining_sold_amount st in
  ({| remaining_sold_amount := remaining_sold_amount st;
      stop_index := idx;
      acc_taxfree_bought_cost :=
        if eligible then acc_taxfree_bought_cost st + acquisition_cost
        else acc_taxfree_bought_cost st;
      acc_taxable_bought_cost :=
        if eligible then acc_taxable_bought_cost st
        else acc_taxable_bought_cost st + acquisition_cost;
      acc_taxable_amount :=
        if eligible then acc_taxable_amount st
        else acc_taxable_amount st + remaining_sold_amount st;
      taxfree_amount :=
        if eligible then taxfree_amount st + remaining_sold_amount st
        else taxfree_amount st;
      remaining_amount_from_last_buy :=
        remaining_amount acquisition_event - remaining_sold_amount st;
      acc_matched_acquisitions :=
        acc_matched_acquisitions st
          ++ [{| ma_amount := remaining_sold_amount st; ma_event := r |}] |},
   log_emit (SpendUsesUpPart eligible (remaining_sold_amount st) (amount acquisition_event)
               spending_asset (rate acquisition_event) (profit_currency s)
               (timestamp acquisition_event)) s).

(** The rest of the loop body: the lot is used up entirely. *)
Definition spend_entire (spending_asset : Asset) (len idx : Z) (r : LotRef)
    (st : SpendLocals) (s : CostBasisCalculator) (time : Timestamp)
  : SpendLocals * CostBasisCalculator :=
  let acquisition_event := lot s r in
  let eligible := at_taxfree_period s time acquisition_event in
  let acquisition_cost := rate acquisition_event * remaining_amount acquisition_event in
  ({| remaining_sold_amount := remaining_sold_amount st - remaining_amount acquisition_event;
      stop_index := if decide (idx = len - 1)%Z then (idx + 1)%Z else stop_index st;
      acc_taxfree_bought_cost :=
        if eligible then acc_taxfree_bought_cost st + acquisition_cost
        else acc_taxfree_bought_cost st;
      acc_taxable_bought_cost :=
        if eligible then acc_taxable_bought_cost st
        else acc_taxable_bought_cost st + acquisition_cost;
      acc_taxable_amount :=
        if eligible then acc_taxable_amount st
        else acc_taxable_amount st + remaining_amount acquisition_event;
      taxfree_amount :=
        if eligible then taxfree_amount st + remaining_amount acquisition_event
        else taxfree_amount st;
      remaining_amount_from_last_buy := remaining_amount_from_last_buy st;
      acc_matched_acquisitions :=
        acc_matched_acquisitions st
          ++ [{| ma_amount := remaining_amount acquisition_event; ma_event := r |}] |},
   set_remaining_amount r ZERO
     (log_emit (SpendUsesUpEntire eligible (remaining_amount acquisition_event)
                  spending_asset (rate acquisition_event) (profit_currency s)
                  (timestamp acquisition_event)) s)).

Fixpoint spend_loop (spending_asset : Asset) (time : Timestamp) (len idx : Z)
    (acqs : list LotRef) (st : SpendLocals) (s : CostBasisCalculator)
  : SpendLocals * CostBasisCalculator :=
  match acqs with
  | [] => (st, s)
  | r :: acqs' =>
    if decide (remaining_sold_amount st < remaining_amount (lot s r)) then
      spend_part spending_asset idx r st s time
    else
      let '(st, s) := spend_entire spending_asset len idx r st s time in
      spend_loop spending_asset time len (idx + 1) acqs' st s
  end.

Definition calculate_spend_cost_basis (spending_amount : FVal) (spending_asset : Asset)
    (time : Timestamp) (s : CostBasisCalculator)
  : option (CostBasisInfo * CostBasisCalculator) :=
  let st :=
    {| remaining_sold_amount := spending_amount; stop_index := -1;
       acc_taxfree_bought_cost := ZERO; acc_taxable_bought_cost := ZERO;
       acc_taxable_amount := ZERO; taxfree_amount := ZERO;
       remaining_amount_from_last_buy := -1; acc_matched_acquisitions := [] |} in
  let '(key, asset_events, s) := get_events spending_asset s in
  let '(st, s) :=
    spend_loop spending_asset time (Z.of_nat (length (acquisitions asset_events))) 0
      (acquisitions asset_events) st s in
  if decide (length (acquisitions asset_events) = 0%nat) then
    Some ({| taxable_amount := spending_amount; taxable_bought_cost := ZERO;
             taxfree_bought_cost := ZERO; matched_acquisitions := [];
             is_complete := false |},
          inform_user_missing_acquisition spending_asset time None None s)
  else
    let stop := slice_stop (acquisitions asset_events) (stop_index st) in
    let asset_events :=
      {| used_acquisitions :=
           used_acquisitions asset_events ++ take stop (acquisitions asset_events);
         acquisitions := drop stop (acquisitions asset_events);
         spends := spends asset_events |} in
    let s := store_events key asset_events s in
    if decide (remaining_amount_from_last_buy st ≠ -1) then
      r0 ← acquisitions asset_events !! 0%nat;
      Some ({| taxable_amount := acc_taxable_amount st;
               taxable_bought_cost := acc_taxable_bought_cost st;
               taxfree_bought_cost := acc_taxfree_bought_cost st;
               matched_acquisitions := acc_matched_acquisitions st;
               is_complete := true |},
            set_remaining_amount r0 (remaining_amount_from_last_buy st) s)
    else if decide (remaining_sold_amount st ≠ ZERO) then
      let adjusted_amount := spending_amount - taxfree_amount st in
      Some ({| taxable_amount := adjusted_amount;
               taxable_bought_cost := acc_taxable_bought_cost st;
               taxfree_bought_cost := acc_taxfree_bought_cost st;
               matched_acquisitions := acc_matched_acquisitions st;
               is_complete := false |},
            inform_user_missing_acquisition spending_asset time
              (Some (acc_taxable_amount st + taxfree_amount st))
              (Some (remaining_sold_amount st)) s)
    else
      Some ({| taxable_amount := acc_taxable_amount st;
               taxable_bought_cost := acc_taxable_bought_cost st;
               taxfree_bought_cost := acc_taxfree_bought_cost st;
               matched_acquisitions := acc_matched_acquisitions st;
               is_complete := true |}, s).

Definition spend_asset (location : Location) (time : Timestamp) (asset : Asset)
    (amount rate : FVal) (taxable_spend : bool) (s : CostBasisCalculator)
  : option (option CostBasisInfo * CostBasisCalculator) :=
  let event :=
    {| spend_timestamp := time; spend_location := location;
       spend_amount := amount; spend_rate := rate |} in
  let '(key, asset_events, s) := get_events asset s in
  let s :=
    store_events key
      {| used_acquisitions := used_acquisitions asset_events;
         acquisitions := acquisitions asset_events;
         spends := spends asset_events ++ [event] |} s in
  if negb (is_fiat asset) && taxable_spend then
    '(info, s) ← calculate_spend_cost_basis amount asset time s;
    Some (Some info, s)
  else
    '(_, s) ← reduce_asset_amount asset amount time s;
    Some (None, s).

Definition get_calculated_asset_amount (asset : Asset) (s : CostBasisCalculator)
  : option FVal * CostBasisCalculator :=
  let '(_, asset_events, s) := get_events asset s in
  if decide (length (acquisitions asset_events) = 0%nat) then (None, s)
  else
    (Some (fold_left (λ amount acquisition_event, amount + remaining_amount (lot s acquisition_event))
             (acquisitions asset_events) (0 : Qc)), s).

(** The list [acquisitions] that [handle_prefork_asset_acquisitions] builds. *)
Definition prefork_acquisitions (asset : Asset) (time : Timestamp) : list (Asset * string) :=
  if decide (asset = A_ETH ∧ (time < ETH_DAO_FORK_TS)%Z) then
    [(A_ETC, "Prefork acquisition for ETC"%string)]
  else if decide (asset = A_BTC ∧ (time < BTC_BCH_FORK_TS)%Z) then
    [(A_BCH, "Prefork acquisition for BCH"%string);
     (A_BSV, "Prefork acquisition for BSV"%string)]
  else if decide (asset = A_BCH ∧ (time < BCH_BSV_FORK_TS)%Z) then
    [(A_BSV, "Prefork acquisition for BSV"%string)]
  else [].

Definition prefork_event (location : Location) (time : Timestamp) (amount : FVal)
    (price : Price) (acquisition : Asset * string) : ProcessedAccountingEvent :=
  {| ev_type := PREFORK_ACQUISITION; ev_notes := acquisition.2;
     ev_location := location; ev_timestamp := time; ev_asset := acquisition.1;
     ev_taxable_amount := amount; ev_free_amount := ZERO; ev_price := price;
     ev_pnl := PNL_new; ev_cost_basis := None |}.

Definition handle_prefork_asset_acquisitions (location : Location) (time : Timestamp)
    (asset : Asset) (amount : FVal) (price : Price) (s : CostBasisCalculator)
  : list ProcessedAccountingEvent * CostBasisCalculator :=
  fold_left
    (λ '(events, s) acquisition,
       let event := prefork_event location time amount price acquisition in
       (events ++ [event], obtain_asset event s))
    (prefork_acquisitions asset time) ([], s).

Definition handle_prefork_asset_spends (asset : Asset) (amount : FVal) (time : Timestamp)
    (s : CostBasisCalculator) : option CostBasisCalculator :=
  s ← (if decide (asset = A_ETH ∧ (time < ETH_DAO_FORK_TS)%Z) then
         snd <$> reduce_asset_amount A_ETC amount time s
       else Some s);
  s ← (if decide (asset = A_BTC ∧ (time < BTC_BCH_FORK_TS)%Z) then
         s ← snd <$> reduce_asset_amount A_BCH amount time s;
         snd <$> reduce_asset_amount A_BSV amount time s
       else Some s);
  if decide (asset = A_BCH ∧ (time < BCH_BSV_FORK_TS)%Z) then
    snd <$> reduce_asset_amount A_BSV amount time s
  else Some s.

End calculator.

#[global] Arguments spend_part : simpl never.
#[global] Arguments spend_entire : simpl never.

(** ** Views of the state used by the statements *)

Section views.
Context {env : RotkiEnv}.

(** The ledger of an asset, empty when the calculator has none for it. *)
Definition ledger (s : CostBasisCalculator) (asset : Asset) : CostBasisEvents :=
  default CostBasisEvents_new (_events s !! events_key asset).

(** The pending acquisitions of an asset, oldest first. *)
Definition pending (s : CostBasisCalculator) (asset : Asset) : list LotRef :=
  acquisitions (ledger s asset).

Definition amounts_of (s : CostBasisCalculator) (acqs : list LotRef) : list FVal :=
  (λ r, remaining_amount (lot s r)) <$> acqs.

Definition Qc_sum (l : list Qc) : Qc := foldr Qcplus 0 l.

(** The total remaining amount of the pending acquisitions of an asset. *)
Definition balance (s : CostBasisCalculator) (asset : Asset) : FVal :=
  Qc_sum (amounts_of s (pending s asset)).

(** The spend [a] uses up every amount of [vs] entirely: the loops never
    take their [break] on these lots. *)
Fixpoint covers (a : Qc) (vs : list Qc) : Prop :=
  match vs with
  | [] => True
  | v :: vs' => ¬ (a < v) ∧ covers (a - v) vs'
  end.

(** Whether the lot of a matched acquisition was held longer than the
    tax-free period at [time], and what the matched amount cost. *)
Definition eligible (s : CostBasisCalculator) (time : Timestamp) (m : MatchedAcquisition) : bool :=
  at_taxfree_period s time (lot s (ma_event m)).

Definition matched_cost (s : CostBasisCalculator) (m : MatchedAcquisition) : FVal :=
  rate (lot s (ma_event m)) * ma_amount m.

Definition taxfree_matches (s : CostBasisCalculator) (time : Timestamp)
    (ms : list MatchedAcquisition) : list MatchedAcquisition :=
  filter (λ m, eligible s time m = true) ms.

Definition taxable_matches (s : CostBasisCalculator) (time : Timestamp)
    (ms : list MatchedAcquisition) : list MatchedAcquisition :=
  filter (λ m, eligible s time m = false) ms.

(** The accumulators of the loop agree with the matches made so far. *)
Definition classified (s : CostBasisCalculator) (time : Timestamp) (st : SpendLocals) : Prop :=
  acc_taxfree_bought_cost st
    = Qc_sum (matched_cost s <$> taxfree_matches s time (acc_matched_acquisitions st))
  ∧ acc_taxable_bought_cost st
    = Qc_sum (matched_cost s <$> taxable_matches s time (acc_matched_acquisitions st))
  ∧ taxfree_amount st
    = Qc_sum (ma_amount <$> taxfree_matches s time (acc_matched_acquisitions st))
  ∧ acc_taxable_amount st
    = Qc_sum (ma_amount <$> taxable_matches s time (acc_matched_acquisitions st)).

(** The matches of lots that are used up entirely. *)
Definition matches_of (s : CostBasisCalculator) (acqs : list LotRef) : list MatchedAcquisition :=
  (λ r, {| ma_amount := remaining_amount (lot s r); ma_event := r |}) <$> acqs.

(** The loop of [calculate_spend_cost_basis] on lots that it uses up
    entirely, one after the other. *)
Fixpoint consume (spending_asset : Asset) (time : Timestamp) (len idx : Z)
    (acqs : list LotRef) (st : SpendLocals) (s : CostBasisCalculator)
  : SpendLocals * CostBasisCalculator :=
  match acqs with
  | [] => (st, s)
  | r :: acqs' =>
    consume spending_asset time len (idx + 1) acqs'
      (spend_entire spending_asset len idx r st s time).1
      (spend_entire spending_asset len idx r st s time).2
  end.

(** The state after [get_events]: the ledger exists. *)
Definition touch (key : Asset) (s : CostBasisCalculator) : CostBasisCalculator :=
  match _events s !! key with
  | Some _ => s
  | None => store_events key CostBasisEvents_new s
  end.

(** What the loop keeps: everything but the remaining amounts and the log. *)
Definition loop_frame (s s' : CostBasisCalculator) : Prop :=
  settings s' = settings s
  ∧ profit_currency s' = profit_currency s
  ∧ _events s' = _events s
  ∧ msg_aggregator s' = msg_aggregator s
  ∧ length (heap s') = length (heap s)
  ∧ ∀ r, event (lot s' r) = event (lot s r).

(** What classifying a match reads: the settings and the events of lots. *)
Definition lots_frame (s s' : CostBasisCalculator) : Prop :=
  settings s' = settings s ∧ ∀ r, event (lot s' r) = event (lot s r).

(** The local variables of [calculate_spend_cost_basis] before the loop. *)
Definition spend_init (spending_amount : FVal) : SpendLocals :=
  {| remaining_sold_amount := spending_amount; stop_index := -1;
     acc_taxfree_bought_cost := ZERO; acc_taxable_bought_cost := ZERO;
     acc_taxable_amount := ZERO; taxfree_amount := ZERO;
     remaining_amount_from_last_buy := -1; acc_matched_acquisitions := [] |}.

(** The locals and the state of [calculate_spend_cost_basis] after the loop. *)
Definition spend_scan (spending_amount : FVal) (spending_asset : Asset) (time : Timestamp)
    (s : CostBasisCalculator) : SpendLocals * CostBasisCalculator :=
  spend_loop spending_asset time (Z.of_nat (length (pending s spending_asset))) 0
    (pending s spending_asset) (spend_init spending_amount)
    (touch (events_key spending_asset) s).

(** The result that [calculate_spend_cost_basis] builds from the locals. *)
Definition spend_info (st : SpendLocals) (complete : bool) (taxable : FVal) : CostBasisInfo :=
  {| taxable_amount := taxable;
     taxable_bought_cost := acc_taxable_bought_cost st;
     taxfree_bought_cost := acc_taxfree_bought_cost st;
     matched_acquisitions := acc_matched_acquisitions st;
     is_complete := complete |}.

(** The ledger after the used up lots moved from pending to used. *)
Definition ledger_after (asset_events : CostBasisEvents) (stop : nat) : CostBasisEvents :=
  {| used_acquisitions :=
       used_acquisitions asset_events ++ take stop (acquisitions asset_events);
     acquisitions := drop stop (acquisitions asset_events);
     spends := spends asset_events |}.

(** The invariant of the lots that the calculator keeps: the pending
    references are live objects, no object is pending twice, in one ledger
    or in two, and the pending lots have a positive remaining amount. *)
Definition lots_live (s : CostBasisCalculator) : Prop :=
  ∀ asset r, r ∈ pending s asset → (r < length (heap s))%nat.

Definition lots_distinct (s : CostBasisCalculator) : Prop :=
  ∀ asset1 asset2 i j r,
    pending s asset1 !! i = Some r → pending s asset2 !! j = Some r →
    events_key asset1 = events_key asset2 ∧ i = j.

Definition lots_positive (s : CostBasisCalculator) : Prop :=
  ∀ asset r, r ∈ pending s asset → 0 < remaining_amount (lot s r).

Definition lots_invariant (s : CostBasisCalculator) : Prop :=
  lots_live s ∧ lots_distinct s ∧ lots_positive s.

End views.

(** ** Views used by the further properties *)

Section more_views.
Context {env : RotkiEnv}.

(** The amount that the matches made so far cover. *)
Definition matched_total (st : SpendLocals) : FVal :=
  Qc_sum (ma_amount <$> acc_matched_acquisitions st).

(** The pending lots of an asset with their remaining amounts. *)
Definition lots_view (s : CostBasisCalculator) (asset : Asset) : list (LotRef * FVal) :=
  (λ r, (r, remaining_amount (lot s r))) <$> pending s asset.

(** What is left of lots after [a] is taken from the oldest ones: the
    lots that [a] covers are dropped and the first one that it does not
    cover is reduced. *)
Fixpoint fifo (a : Qc) (lots : list (LotRef * FVal)) : list (LotRef * FVal) :=
  match lots with
  | [] => []
  | (r, v) :: lots' => if decide (a < v) then (r, v - a) :: lots' else fifo (a - v) lots'
  end.

(** Two calculators hold the same books: they differ at most in what was
    logged and in the messages for the user. *)
Definition same_books (s s' : CostBasisCalculator) : Prop :=
  settings s = settings s' ∧ _events s = _events s' ∧ heap s = heap s'.

(** What the acquisitions for the descendants [l] add to the balances. *)
Definition fork_share (amount : FVal) (l : list (Asset * string)) (asset : Asset) : FVal :=
  Qc_sum ((λ d : Asset * string,
             if decide (events_key asset = events_key d.1) then amount else 0) <$> l).

(** The used lots are spent: a lot in a used list has nothing left, is a
    live object, and is pending nowhere. *)
Definition used_spent (s : CostBasisCalculator) : Prop :=
  ∀ asset r, r ∈ used_acquisitions (ledger s asset) →
    remaining_amount (lot s r) = 0
    ∧ (r < length (heap s))%nat
    ∧ ∀ a, r ∉ pending s a.

End more_views.

(** ** Serialization *)

(** The values of the documents that [serialize] builds and that
    [deserialize] reads: [None], booleans, integers, strings, lists, and
    dicts with their keys in insertion order. *)
Unset Elimination Schemes.
Inductive Any :=
| ANone
| ABool (b : bool)
| AInt (z : Z)
| AStr (s : string)
| AList (l : list Any)
| ADict (d : list (string * Any)).
Set Elimination Schemes.

(** [d[key]], [None] standing for [KeyError]. *)
Fixpoint dict_lookup (key : string) (d : list (string * Any)) : option Any :=
  match d with
  | [] => None
  | (k, v) :: d' => if decide (k = key) then Some v else dict_lookup key d'
  end.

(** [d[key] = value] *)
Fixpoint dict_insert (key : string) (value : Any) (d : list (string * Any))
  : list (string * Any) :=
  match d with
  | [] => [(key, value)]
  | (k, v) :: d' =>
    if decide (k = key) then (k, value) :: d' else (k, v) :: dict_insert key value d'
  end.

(** What [for entry in x] goes through, [None] standing for [TypeError]:
    the items of a list, the keys of a dict, the characters of a string. *)
Definition iterate (x : Any) : option (list Any) :=
  match x with
  | AList l => Some l
  | ADict d => Some ((λ kv, AStr kv.1) <$> d)
  | AStr s => Some ((λ c, AStr (String c EmptyString)) <$> String.list_ascii_of_string s)
  | ANone | ABool _ | AInt _ => None
  end.

(** What [str()] and the formatting of an f-string give for the types that
    are not part of this file. *)
Class Formatting := {
  FVal_str : FVal → string;
  FVal_format : FVal → string;
  Location_str : Location → string;
}.

Inductive Exception :=
| DeserializationError (message : string)
| TypeError.

Inductive Raises (A : Type) :=
| Returns (a : A)
| Raise (e : Exception).
Arguments Returns {A} a.
Arguments Raise {A} e.

(** The [CostBasisInfo] that [deserialize] builds: its matched acquisitions
    are the entries of the document as they are, and [is_complete] is the
    value that the document has. *)
Record StoredCostBasisInfo := {
  stored_taxable_amount : FVal;
  stored_taxable_bought_cost : FVal;
  stored_taxfree_bought_cost : FVal;
  stored_matched_acquisitions : list Any;
  stored_is_complete : Any;
}.

Section serialization.
Context {fmt : Formatting}.

(** [AssetAcquisitionEvent.serialize] *)
Definition AssetAcquisitionEvent_serialize (a : AssetAcquisitionEvent) : list (string * Any) :=
  [("time", AInt (ev_timestamp (event a)));
   ("description", AStr (ev_notes (event a)));
   ("location", AStr (Location_str (ev_location (event a))));
   ("amount", AStr (FVal_str (amount a)));
   ("rate", AStr (FVal_str (ev_price (event a))))]%string.

(** [MatchedAcquisition.serialize] *)
Definition MatchedAcquisition_serialize (s : CostBasisCalculator) (m : MatchedAcquisition)
  : list (string * Any) :=
  let serialized_acquisition := AssetAcquisitionEvent_serialize (lot s (ma_event m)) in
  dict_insert "used_amount" (AStr (FVal_str (ma_amount m))) serialized_acquisition.

(** [MatchedAcquisition.to_string] *)
Definition MatchedAcquisition_to_string (s : CostBasisCalculator)
    (converter : Timestamp → string) (m : MatchedAcquisition) : string :=
  FVal_format (ma_amount m) +:+ " / " +:+ FVal_format (amount (lot s (ma_event m)))
  +:+ "  acquired in " +:+ Location_str (ev_location (event (lot s (ma_event m))))
  +:+ " at " +:+ converter (timestamp (lot s (ma_event m)))
  +:+ " for price: " +:+ FVal_format (ev_price (event (lot s (ma_event m)))).

(** [CostBasisInfo.serialize] *)
Definition CostBasisInfo_serialize (s : CostBasisCalculator) (info : CostBasisInfo)
  : list (string * Any) :=
  [("is_complete", ABool (is_complete info));
   ("matched_acquisitions",
    AList ((λ x, ADict (MatchedAcquisition_serialize s x)) <$> matched_acquisitions info))]%string.

(** The message of the [DeserializationError] for the [KeyError] of [key]. *)
Definition missing_key_message (key : string) : string :=
  "Could not decode CostBasisInfo json from the DB due to missing key '" +:+ key +:+ "'".

(** [CostBasisInfo.deserialize] *)
Definition CostBasisInfo_deserialize (data : list (string * Any))
  : Raises StoredCostBasisInfo :=
  match dict_lookup "is_complete" data with
  | None => Raise (DeserializationError (missing_key_message "is_complete"))
  | Some is_complete =>
    match dict_lookup "matched_acquisitions" data with
    | None => Raise (DeserializationError (missing_key_message "matched_acquisitions"))
    | Some entries =>
      match iterate entries with
      | None => Raise TypeError
      | Some entries =>
        let matched_acquisitions := foldl (λ acc entry, acc ++ [entry]) [] entries in
        Returns {| stored_taxable_amount := ZERO; stored_taxable_bought_cost := ZERO;
                   stored_taxfree_bought_cost := ZERO;
                   stored_matched_acquisitions := matched_acquisitions;
                   stored_is_complete := is_complete |}
      end
    end
  end.

(** [CostBasisInfo.to_string] *)
Definition CostBasisInfo_to_string (s : CostBasisCalculator) (converter : Timestamp → string)
    (info : CostBasisInfo) : string :=
  let value := ""%string in
  let value :=
    if negb (is_complete info)
    then value +:+ "Incomplete cost basis information for spend. " else value in
  if decide (length (matched_acquisitions info) = 0%nat) then value
  else
    value +:+ "Used: "
    +:+ String.concat "|" (MatchedAcquisition_to_string s converter <$> matched_acquisitions info).

End serialization.

(** ** A concrete calculator for the examples *)

(** The tickers of the assets and the timestamps of the forks. *)
Definition example_env : RotkiEnv :=
  {| A_ETH := "ETH"; A_WETH := "WETH"; A_BTC := "BTC"; A_BCH := "BCH";
     A_BSV := "BSV"; A_ETC := "ETC";
     ETH_DAO_FORK_TS := 1469020840; BTC_BCH_FORK_TS := 1501593374;
     BCH_BSV_FORK_TS := 1542304800;
     is_fiat := λ asset, bool_decide (asset ∈ ["EUR"; "USD"; "GBP"]%string);
     assets_distinct :=
       bool_decide_unpack (NoDup ["ETH"; "WETH"; "BTC"; "BCH"; "BSV"; "ETC"]%string) I |}.

(** One year of holding makes a spend tax free. *)
Definition example_settings : DBSettings :=
  {| main_currency := "EUR"; taxfree_after_period := Some 31536000%Z |}.

Definition example_calculator : CostBasisCalculator :=
  CostBasisCalculator_new example_settings.

(** The event of a trade that acquires [amount] of [asset]. *)
Definition example_acquisition (asset : Asset) (time : Timestamp) (amount : FVal)
    (price : Price) : ProcessedAccountingEvent :=
  {| ev_type := EVENT_TYPE "trade"; ev_notes := ""; ev_location := "kraken";
     ev_timestamp := time; ev_asset := asset; ev_taxable_amount := amount;
     ev_free_amount := ZERO; ev_price := price; ev_pnl := PNL_new;
     ev_cost_basis := None |}.

(** 10 BTC acquired at time 100. *)
Definition example_one_lot : CostBasisCalculator :=
  obtain_asset (env := example_env)
    (example_acquisition "BTC" 100 (Q2Qc 10) (Q2Qc 2)) example_calculator.

(** 5 BTC acquired at time 100. *)
Definition example_five : CostBasisCalculator :=
  obtain_asset (env := example_env)
    (example_acquisition "BTC" 100 (Q2Qc 5) (Q2Qc 2)) example_calculator.

(** 3, 5 and 7 BTC acquired at times 100, 200 and 300. *)
Definition example_three_lots : CostBasisCalculator :=
  obtain_asset (env := example_env) (example_acquisition "BTC" 300 (Q2Qc 7) (Q2Qc 4))
    (obtain_asset (env := example_env) (example_acquisition "BTC" 200 (Q2Qc 5) (Q2Qc 3))
       (obtain_asset (env := example_env) (example_acquisition "BTC" 100 (Q2Qc 3) (Q2Qc 2))
          example_calculator)).

(** 1 BTC acquired before the BCH fork, with its prefork acquisitions. *)
Definition example_prefork : CostBasisCalculator :=
  (handle_prefork_asset_acquisitions (env := example_env) "kraken" 1400000000 "BTC" 1
     (Q2Qc 600)
     (obtain_asset (env := example_env) (example_acquisition "BTC" 1400000000 1 (Q2Qc 600))
        example_calculator)).2.

(** 3, 5 and 0 BTC acquired at times 100, 200 and 300: [obtain_asset] takes
    an acquisition of amount zero as any other. *)
Definition example_zero_third : CostBasisCalculator :=
  obtain_asset (env := example_env) (example_acquisition "BTC" 300 0 (Q2Qc 4))
    (obtain_asset (env := example_env) (example_acquisition "BTC" 200 (Q2Qc 5) (Q2Qc 3))
       (obtain_asset (env := example_env) (example_acquisition "BTC" 100 (Q2Qc 3) (Q2Qc 2))
          example_calculator)).

(** The same lots, and 7 BTC acquired after them at time 400. *)
Definition example_zero_lot : CostBasisCalculator :=
  obtain_asset (env := example_env) (example_acquisition "BTC" 400 (Q2Qc 7) (Q2Qc 4))
    example_zero_third.

(** ** Arithmetic of [FVal]

    Goals over [Qc] are moved to [Q], where [lra] decides them. *)

Lemma Qc_eq_Qeq (x y : Qc) : x = y ↔ (x == y)%Q.
Proof. split; [intros ->; reflexivity | apply Qc_is_canon]. Qed.

Lemma Qc_neq_Qeq (x y : Qc) : x ≠ y ↔ ¬ (x == y)%Q.
Proof. by rewrite Qc_eq_Qeq. Qed.

Ltac Qc_to_Q :=
  repeat match goal with
  | H : @eq Qc _ _ |- _ => apply Qc_eq_Qeq in H
  | H : not (@eq Qc _ _) |- _ => apply Qc_neq_Qeq in H
  | |- @eq Qc _ _ => apply Qc_is_canon
  | |- not (@eq Qc _ _) => apply Qc_neq_Qeq
  end;
  unfold Qclt, Qcle, Qcminus, Qcplus, Qcopp, Qcmult, Q2Qc in *;
  cbn [this] in *;
  repeat (setoid_rewrite Qred_correct);
  repeat match goal with
  | H : context [Qred _] |- _ => setoid_rewrite Qred_correct in H
  end.

Ltac Qc_lra := Qc_to_Q; lra.

(** Equality of tuples, component by component. *)
Ltac tuple_eq :=
  repeat match goal with
  | |- (_, _) = (_, _) => apply (f_equal2 pair)
  end.

(** Lists of amounts, without unfolding the sums. *)
Ltac list_cbn :=
  cbn [fmap list_fmap fst snd covers fifo app] in *;
  repeat match goal with
  | |- context [Qc_sum (?x :: ?l)] => change (Qc_sum (x :: l)) with (x + Qc_sum l)
  | H : context [Qc_sum (?x :: ?l)] |- _ => change (Qc_sum (x :: l)) with (x + Qc_sum l) in H
  | |- context [Qc_sum []] => change (Qc_sum []) with (0 : Qc)
  | H : context [Qc_sum []] |- _ => change (Qc_sum []) with (0 : Qc) in H
  | |- context [list_fmap ?A ?B ?f ?l] => change (list_fmap A B f l) with (f <$> l)
  | H : context [list_fmap ?A ?B ?f ?l] |- _ =>
    change (list_fmap A B f l) with (f <$> l) in H
  end.

(** ** Basic facts *)

Section basics.
Context {env : RotkiEnv}.

Lemma get_events_eq asset s :
  get_events asset s = (events_key asset, ledger s asset, touch (events_key asset) s).
Proof.
  unfold get_events, ledger, touch.
  by destruct (_events s !! events_key asset).
Qed.

Lemma touch_heap key s : heap (touch key s) = heap s.
Proof. unfold touch. by destruct (_events s !! key). Qed.

Lemma touch_log key s : log (touch key s) = log s.
Proof. unfold touch. by destruct (_events s !! key). Qed.

Lemma touch_msg_aggregator key s : msg_aggregator (touch key s) = msg_aggregator s.
Proof. unfold touch. by destruct (_events s !! key). Qed.

Lemma touch_settings key s : settings (touch key s) = settings s.
Proof. unfold touch. by destruct (_events s !! key). Qed.

Lemma touch_profit_currency key s : profit_currency (touch key s) = profit_currency s.
Proof. unfold touch. by destruct (_events s !! key). Qed.

Lemma touch_lot key s r : lot (touch key s) r = lot s r.
Proof. unfold lot. by rewrite touch_heap. Qed.

Lemma touch_ledger key s asset : ledger (touch key s) asset = ledger s asset.
Proof.
  unfold touch, ledger. destruct (_events s !! key) eqn:E; [done|]. simpl.
  destruct (decide (key = events_key asset)) as [->|].
  - by rewrite lookup_insert_eq, E.
  - by rewrite lookup_insert_ne.
Qed.

Lemma amounts_of_touch key s acqs : amounts_of (touch key s) acqs = amounts_of s acqs.
Proof. unfold amounts_of. apply list_fmap_ext. intros ? ? _. by rewrite touch_lot. Qed.

Lemma ledger_store_events key asset_events s asset :
  ledger (store_events key asset_events s) asset
  = if decide (events_key asset = key) then asset_events else ledger s asset.
Proof.
  unfold ledger, store_events. simpl. case_decide as E.
  - by rewrite E, lookup_insert_eq.
  - by rewrite lookup_insert_ne.
Qed.

Lemma Qc_sum_app l1 l2 : Qc_sum (l1 ++ l2) = Qc_sum l1 + Qc_sum l2.
Proof.
  induction l1 as [|x l1 IH]; simpl.
  - ring.
  - rewrite IH. ring.
Qed.

Lemma fold_left_Qc_sum (f : LotRef → Qc) acqs acc :
  fold_left (λ amount r, amount + f r) acqs acc = acc + Qc_sum (f <$> acqs).
Proof.
  revert acc. induction acqs as [|r acqs IH]; intros acc.
  - change (acc = acc + 0). ring.
  - change (fold_left (λ amount r, amount + f r) acqs (acc + f r)
            = acc + (f r + Qc_sum (f <$> acqs))).
    rewrite IH. ring.
Qed.

Lemma Qc_sum_nonneg vs : Forall (λ v, 0 <= v) vs → 0 <= Qc_sum vs.
Proof. induction 1 as [|x l Hx _ IHl]; simpl; [done|]. Qc_lra. Qed.

Lemma covers_nonneg a vs :
  Forall (λ v, 0 <= v) vs → Qc_sum vs <= a → covers a vs.
Proof.
  revert a. induction vs as [|v vs IH]; intros a Hnn Hle; [done|].
  inversion Hnn as [|? ? Hv Hvs]; subst. simpl in *.
  pose proof (Qc_sum_nonneg vs Hvs) as Hs.
  split.
  - Qc_lra.
  - apply IH; [done|]. Qc_lra.
Qed.

Lemma covers_sum a vs : vs ≠ [] → covers a vs → Qc_sum vs <= a.
Proof.
  revert a. induction vs as [|v vs IH]; intros a Hne Hc; [done|].
  destruct Hc as [Hv Hc]. destruct vs as [|v' vs].
  - simpl. Qc_lra.
  - specialize (IH (a - v) ltac:(done) Hc). simpl in *. Qc_lra.
Qed.

(** The loop of [reduce_asset_amount] either breaks on the first lot that
    is larger than what remains, or runs to the end of the list. *)
Lemma reduce_loop_cases s len idx acqs stop_index last a :
  (idx + Z.of_nat (length acqs) = len)%Z →
  (∃ pre r post,
      acqs = pre ++ r :: post
      ∧ covers a (amounts_of s pre)
      ∧ a - Qc_sum (amounts_of s pre) < remaining_amount (lot s r)
      ∧ reduce_loop s len idx acqs stop_index last a
        = (Some (idx + Z.of_nat (length pre))%Z,
           remaining_amount (lot s r) - (a - Qc_sum (amounts_of s pre)),
           a - Qc_sum (amounts_of s pre)))
  ∨ (covers a (amounts_of s acqs)
     ∧ reduce_loop s len idx acqs stop_index last a
       = (match acqs with [] => stop_index | _ :: _ => Some len end,
          last, a - Qc_sum (amounts_of s acqs))).
Proof.
  revert idx stop_index a. induction acqs as [|r acqs IH]; intros idx stop_index a Hlen.
  - right. split; [done|]. simpl. tuple_eq; [done..|Qc_lra].
  - simpl. destruct (decide (a < remaining_amount (lot s r))) as [Hlt|Hge].
    + left. exists [], r, acqs. simpl. repeat split.
      * replace (a - 0) with a by Qc_lra. done.
      * tuple_eq; [f_equal; lia|Qc_lra..].
    + simpl in Hlen.
      destruct (IH (idx + 1)%Z
                  (if decide (idx = len - 1)%Z then Some (idx + 1)%Z else stop_index)
                  (a - remaining_amount (lot s r)) ltac:(lia))
        as [(pre & r' & post & -> & Hc & Hlt & Heq)|[Hc Heq]].
      * left. exists (r :: pre), r', post. simpl.
        replace (a - (remaining_amount (lot s r) + Qc_sum (amounts_of s pre)))
          with (a - remaining_amount (lot s r) - Qc_sum (amounts_of s pre)) by Qc_lra.
        repeat split; [done..|].
        rewrite Heq. tuple_eq; [f_equal; lia|done..].
      * right. split; [done|]. rewrite Heq. tuple_eq; [|done|Qc_lra].
        destruct acqs; [|done]. simpl in Hlen. rewrite decide_True by lia. f_equal. lia.
Qed.

Lemma slice_stop_length {A} (l1 l2 : list A) :
  slice_stop (l1 ++ l2) (Z.of_nat (length l1)) = length l1.
Proof. unfold slice_stop. rewrite decide_False by lia. lia. Qed.

Lemma slice_stop_all {A} (l : list A) : slice_stop l (Z.of_nat (length l)) = length l.
Proof. unfold slice_stop. rewrite decide_False by lia. lia. Qed.

Lemma reduce_asset_amount_zero_eq asset time s :
  reduce_asset_amount asset ZERO time s = Some (true, s).
Proof. unfold reduce_asset_amount. by rewrite decide_True. Qed.

(** The three ways through [reduce_asset_amount] for a non-zero amount:
    no pending lot, a break inside a lot, or all lots used up. *)
Lemma reduce_asset_amount_cases asset amount time s :
  amount ≠ 0 →
  let key := events_key asset in
  let asset_events := ledger s asset in
  let rest acqs :=
    store_events key
      {| used_acquisitions := used_acquisitions asset_events; acquisitions := acqs;
         spends := spends asset_events |} (touch key s) in
  (pending s asset = []
   ∧ reduce_asset_amount asset amount time s = Some (false, touch key s))
  ∨ (∃ pre r post,
       pending s asset = pre ++ r :: post
       ∧ covers amount (amounts_of s pre)
       ∧ amount - Qc_sum (amounts_of s pre) < remaining_amount (lot s r)
       ∧ reduce_asset_amount asset amount time s
         = Some (true,
                 set_remaining_amount r
                   (remaining_amount (lot s r) - (amount - Qc_sum (amounts_of s pre)))
                   (rest (r :: post))))
  ∨ (pending s asset ≠ []
     ∧ covers amount (amounts_of s (pending s asset))
     ∧ reduce_asset_amount asset amount time s
       = if decide (amount - Qc_sum (amounts_of s (pending s asset)) = 0)
         then Some (true, rest [])
         else Some (false, log_emit (NoDocumentedBuy asset time) (rest []))).
Proof.
  intros Hnz key asset_events rest. unfold reduce_asset_amount.
  rewrite decide_False by done. rewrite get_events_eq.
  fold key asset_events. unfold pending. fold asset_events.
  destruct (acquisitions asset_events) as [|r0 acqs0] eqn:Hacqs.
  { left. by rewrite decide_True. }
  right. rewrite decide_False by done. rewrite <- Hacqs.
  destruct (reduce_loop_cases (touch key s) (Z.of_nat (length (acquisitions asset_events)))
              0 (acquisitions asset_events) None (-1) amount ltac:(lia))
    as [(pre & r & post & Hsplit & Hc & Hlt & Heq)|[Hc Heq]];
    rewrite Heq; rewrite ?amounts_of_touch, ?touch_lot in *; simpl.
  - left. exists pre, r, post. repeat split; [done..|].
    rewrite decide_True by (clear -Hlt; Qc_lra).
    rewrite Z.add_0_l, Hsplit, slice_stop_length, drop_app_length. done.
  - right. split; [by rewrite Hacqs|]. split; [done|].
    rewrite Hacqs at 1. simpl. rewrite slice_stop_all, drop_all.
    by repeat case_decide.
Qed.

End basics.

(** ** The heap under the loop of [calculate_spend_cost_basis] *)

Section lots.
Context {env : RotkiEnv}.

Lemma lot_set_remaining_amount_ne r v s r' :
  r ≠ r' → lot (set_remaining_amount r v s) r' = lot s r'.
Proof. intros. unfold lot, set_remaining_amount. simpl. by apply list_lookup_total_insert_ne. Qed.

Lemma lot_set_remaining_amount_eq r v s :
  (r < length (heap s))%nat →
  lot (set_remaining_amount r v s) r = {| event := event (lot s r); remaining_amount := v |}.
Proof. intros. unfold lot, set_remaining_amount. simpl. by apply list_lookup_total_insert_eq. Qed.

Lemma event_lot_set_remaining_amount r v s r' :
  event (lot (set_remaining_amount r v s) r') = event (lot s r').
Proof.
  unfold lot, set_remaining_amount. simpl. rewrite list_lookup_total_insert.
  case_decide as E; [|done]. by destruct E as [-> _].
Qed.

Lemma length_heap_set_remaining_amount r v s :
  length (heap (set_remaining_amount r v s)) = length (heap s).
Proof. unfold set_remaining_amount. simpl. apply length_insert. Qed.

Lemma loop_frame_refl s : loop_frame s s.
Proof. by repeat split. Qed.

Lemma loop_frame_trans s1 s2 s3 : loop_frame s1 s2 → loop_frame s2 s3 → loop_frame s1 s3.
Proof.
  intros (?&?&?&?&?&He1) (?&?&?&?&?&He2). repeat split; try congruence.
Qed.

Lemma loop_frame_lots_frame s s' : loop_frame s s' → lots_frame s s'.
Proof. by intros (?&_&_&_&_&?). Qed.

Lemma lots_frame_trans s1 s2 s3 : lots_frame s1 s2 → lots_frame s2 s3 → lots_frame s1 s3.
Proof. intros [? He1] [? He2]. split; congruence. Qed.

Lemma touch_lots_frame key s : lots_frame s (touch key s).
Proof. split; [apply touch_settings|]. intros r. by rewrite touch_lot. Qed.

Lemma lots_frame_at_taxfree_period s s' time r :
  lots_frame s s' → at_taxfree_period s' time (lot s' r) = at_taxfree_period s time (lot s r).
Proof. intros [Hs He]. unfold at_taxfree_period, timestamp. by rewrite Hs, He. Qed.

Lemma lots_frame_rate s s' r : lots_frame s s' → rate (lot s' r) = rate (lot s r).
Proof. intros [_ He]. unfold rate. by rewrite He. Qed.

Lemma spend_part_frame spending_asset idx r st s time :
  loop_frame s (spend_part spending_asset idx r st s time).2.
Proof. unfold spend_part. by repeat split. Qed.

Lemma spend_entire_frame spending_asset len idx r st s time :
  loop_frame s (spend_entire spending_asset len idx r st s time).2.
Proof.
  unfold spend_entire. simpl. repeat split.
  - by rewrite length_heap_set_remaining_amount.
  - intros r'. by rewrite event_lot_set_remaining_amount.
Qed.

Lemma spend_loop_cons spending_asset time len idx r acqs st s :
  spend_loop spending_asset time len idx (r :: acqs) st s
  = if decide (remaining_sold_amount st < remaining_amount (lot s r)) then
      spend_part spending_asset idx r st s time
    else
      spend_loop spending_asset time len (idx + 1) acqs
        (spend_entire spending_asset len idx r st s time).1
        (spend_entire spending_asset len idx r st s time).2.
Proof. simpl. by case_decide. Qed.

Lemma spend_loop_frame spending_asset time len idx acqs st s :
  loop_frame s (spend_loop spending_asset time len idx acqs st s).2.
Proof.
  revert idx st s. induction acqs as [|r acqs IH]; intros idx st s.
  - apply loop_frame_refl.
  - rewrite spend_loop_cons. case_decide.
    + apply spend_part_frame.
    + eapply loop_frame_trans; [apply spend_entire_frame|apply IH].
Qed.

Lemma Qc_sum_snoc l x : Qc_sum (l ++ [x]) = Qc_sum l + x.
Proof. rewrite Qc_sum_app. simpl. ring. Qed.

Lemma taxfree_matches_snoc s time ms m :
  taxfree_matches s time (ms ++ [m])
  = taxfree_matches s time ms ++ (if eligible s time m then [m] else []).
Proof.
  unfold taxfree_matches. rewrite list.filter_app. f_equal.
  rewrite filter_cons, filter_nil. destruct (eligible s time m); by case_decide.
Qed.

Lemma taxable_matches_snoc s time ms m :
  taxable_matches s time (ms ++ [m])
  = taxable_matches s time ms ++ (if eligible s time m then [] else [m]).
Proof.
  unfold taxable_matches. rewrite list.filter_app. f_equal.
  rewrite filter_cons, filter_nil. destruct (eligible s time m); by case_decide.
Qed.

Lemma eligible_frame s0 s time a r :
  lots_frame s0 s →
  eligible s0 time {| ma_amount := a; ma_event := r |} = at_taxfree_period s time (lot s r).
Proof. intros. unfold eligible. simpl. symmetry. by apply lots_frame_at_taxfree_period. Qed.

Lemma spend_part_classified s0 spending_asset idx r st s time :
  lots_frame s0 s → classified s0 time st →
  classified s0 time (spend_part spending_asset idx r st s time).1.
Proof.
  intros Hf (H1 & H2 & H3 & H4). unfold classified, spend_part. simpl.
  rewrite !taxfree_matches_snoc, !taxable_matches_snoc, !(eligible_frame s0 s) by done.
  rewrite H1, H2, H3, H4.
  destruct (at_taxfree_period s time (lot s r));
    rewrite ?app_nil_r, ?fmap_app; simpl; rewrite ?Qc_sum_snoc;
    unfold matched_cost; simpl; by rewrite ?(lots_frame_rate s0 s).
Qed.

Lemma spend_entire_classified s0 spending_asset len idx r st s time :
  lots_frame s0 s → classified s0 time st →
  classified s0 time (spend_entire spending_asset len idx r st s time).1.
Proof.
  intros Hf (H1 & H2 & H3 & H4). unfold classified, spend_entire. simpl.
  rewrite !taxfree_matches_snoc, !taxable_matches_snoc, !(eligible_frame s0 s) by done.
  rewrite H1, H2, H3, H4.
  destruct (at_taxfree_period s time (lot s r));
    rewrite ?app_nil_r, ?fmap_app; simpl; rewrite ?Qc_sum_snoc;
    unfold matched_cost; simpl; by rewrite ?(lots_frame_rate s0 s).
Qed.

Lemma spend_loop_classified s0 spending_asset time len idx acqs st s :
  lots_frame s0 s → classified s0 time st →
  classified s0 time (spend_loop spending_asset time len idx acqs st s).1.
Proof.
  revert idx st s. induction acqs as [|r acqs IH]; intros idx st s Hf Hc; [done|].
  rewrite spend_loop_cons. case_decide.
  - by apply spend_part_classified.
  - apply IH.
    + eapply lots_frame_trans; [done|].
      apply loop_frame_lots_frame, spend_entire_frame.
    + by apply spend_entire_classified.
Qed.

(** Every match of the loop is with a lot of the list it walks. *)
Lemma spend_loop_matched spending_asset time len idx acqs st s m :
  m ∈ acc_matched_acquisitions (spend_loop spending_asset time len idx acqs st s).1 →
  m ∈ acc_matched_acquisitions st ∨ ma_event m ∈ acqs.
Proof.
  revert idx st s. induction acqs as [|r acqs IH]; intros idx st s; [by left|].
  rewrite spend_loop_cons. case_decide.
  - unfold spend_part. simpl. rewrite elem_of_app, list_elem_of_singleton.
    intros [?| ->]; [by left|right]. simpl. left.
  - intros [Hm|Hm]%IH; [|right; by right].
    unfold spend_entire in Hm. simpl in Hm.
    apply elem_of_app in Hm as [?|Hm]; [by left|right].
    apply list_elem_of_singleton in Hm as ->. left.
Qed.

Lemma lot_spend_entire_ne spending_asset len idx r st s time r' :
  r ≠ r' → lot (spend_entire spending_asset len idx r st s time).2 r' = lot s r'.
Proof. intros. unfold spend_entire. simpl. by rewrite lot_set_remaining_amount_ne. Qed.

Lemma lot_spend_entire_eq spending_asset len idx r st s time :
  (r < length (heap s))%nat →
  remaining_amount (lot (spend_entire spending_asset len idx r st s time).2 r) = 0.
Proof. intros. unfold spend_entire. simpl. by rewrite lot_set_remaining_amount_eq. Qed.

Lemma amounts_of_ext s s' acqs :
  (∀ r, r ∈ acqs → lot s' r = lot s r) → amounts_of s' acqs = amounts_of s acqs.
Proof.
  intros Hl. unfold amounts_of. apply list_fmap_ext. intros i r Hr.
  rewrite Hl; [done|]. by eapply list_elem_of_lookup_2.
Qed.

Lemma matches_of_ext s s' acqs :
  (∀ r, r ∈ acqs → lot s' r = lot s r) → matches_of s' acqs = matches_of s acqs.
Proof.
  intros Hl. unfold matches_of. apply list_fmap_ext. intros i r Hr.
  rewrite Hl; [done|]. by eapply list_elem_of_lookup_2.
Qed.

Lemma spend_loop_consume spending_asset time len idx pre post st s :
  NoDup pre →
  covers (remaining_sold_amount st) (amounts_of s pre) →
  spend_loop spending_asset time len idx (pre ++ post) st s
  = spend_loop spending_asset time len (idx + Z.of_nat (length pre)) post
      (consume spending_asset time len idx pre st s).1
      (consume spending_asset time len idx pre st s).2.
Proof.
  revert idx st s. induction pre as [|r pre IH]; intros idx st s Hnd Hc.
  - simpl. by rewrite Z.add_0_r.
  - apply list.NoDup_cons in Hnd as [Hr Hnd]. destruct Hc as [Hge Hc].
    change ((r :: pre) ++ post) with (r :: (pre ++ post)).
    rewrite spend_loop_cons, decide_False by done.
    rewrite IH; [|done|].
    + replace (idx + Z.of_nat (length (r :: pre)))%Z
        with (idx + 1 + Z.of_nat (length pre))%Z by (simpl length; lia).
      done.
    + rewrite (amounts_of_ext s).
      * unfold spend_entire. simpl. done.
      * intros r' Hr'. apply lot_spend_entire_ne. by intros ->.
Qed.

Lemma stop_index_step (pre : list LotRef) r (idx len x : Z) :
  (idx + 1 + Z.of_nat (length pre) ≤ len)%Z →
  (if decide (pre ≠ [] ∧ idx + 1 + Z.of_nat (length pre) = len)%Z then len
   else if decide (idx = len - 1)%Z then (idx + 1)%Z else x)
  = (if decide (r :: pre ≠ [] ∧ idx + Z.of_nat (length (r :: pre)) = len)%Z then len else x).
Proof.
  intros Hle.
  destruct (decide (r :: pre ≠ [] ∧ idx + Z.of_nat (length (r :: pre)) = len)%Z)
    as [[_ E]|E]; simpl length in E.
  - destruct pre as [|r' pre].
    + rewrite decide_False by (by intros [? _]).
      simpl in E. rewrite decide_True by lia. lia.
    + rewrite decide_True; [done|]. split; [done|lia].
  - assert (idx + Z.of_nat (S (length pre)) ≠ len)%Z as E' by (intros ?; by apply E).
    rewrite decide_False by (intros [_ ?]; lia).
    rewrite decide_False; [done|].
    intros ->. destruct pre; simpl in *; lia.
Qed.

Lemma consume_spec spending_asset time len idx pre st s :
  NoDup pre → (idx + Z.of_nat (length pre) ≤ len)%Z →
  let st' := (consume spending_asset time len idx pre st s).1 in
  let s' := (consume spending_asset time len idx pre st s).2 in
  remaining_sold_amount st' = remaining_sold_amount st - Qc_sum (amounts_of s pre)
  ∧ acc_matched_acquisitions st' = acc_matched_acquisitions st ++ matches_of s pre
  ∧ remaining_amount_from_last_buy st' = remaining_amount_from_last_buy st
  ∧ stop_index st'
    = (if decide (pre ≠ [] ∧ idx + Z.of_nat (length pre) = len)%Z then len else stop_index st)
  ∧ (∀ r, r ∉ pre → lot s' r = lot s r)
  ∧ (∀ r, r ∈ pre → (r < length (heap s))%nat → remaining_amount (lot s' r) = 0)
  ∧ loop_frame s s'.
Proof.
  revert idx st s. induction pre as [|r pre IH]; intros idx st s Hnd Hlen.
  - cbv zeta. cbn [consume fst snd]. split_and!.
    + change (amounts_of s []) with (@nil Qc). simpl. ring.
    + by rewrite app_nil_r.
    + done.
    + rewrite decide_False; [done|]. by intros [? _].
    + done.
    + intros r Hr. by apply elem_of_nil in Hr.
    + apply loop_frame_refl.
  - apply list.NoDup_cons in Hnd as [Hr Hnd]. simpl in Hlen.
    assert (∀ r', r' ∈ pre →
              lot (spend_entire spending_asset len idx r st s time).2 r' = lot s r') as Hsame.
    { intros r' Hr'. apply lot_spend_entire_ne. by intros ->. }
    destruct (IH (idx + 1)%Z (spend_entire spending_asset len idx r st s time).1
                (spend_entire spending_asset len idx r st s time).2 Hnd ltac:(lia))
      as (H1 & H2 & H3 & H4 & H5 & H6 & H7).
    cbn [consume]. cbv zeta. rewrite (amounts_of_ext s) in H1 by done.
    rewrite (matches_of_ext s) in H2 by done.
    split_and!.
    + rewrite H1. unfold spend_entire. simpl. ring.
    + rewrite H2. unfold spend_entire. simpl. by rewrite <- app_assoc.
    + rewrite H3. done.
    + rewrite H4. unfold spend_entire. simpl stop_index.
      apply stop_index_step. lia.
    + intros r' [Hne Hr']%not_elem_of_cons. rewrite H5 by done.
      by apply lot_spend_entire_ne.
    + intros r' [->|Hr']%elem_of_cons Hv.
      * rewrite H5 by done. by apply lot_spend_entire_eq.
      * apply H6; [done|].
        destruct (spend_entire_frame spending_asset len idx r st s time)
          as (_&_&_&_&Hl&_). by rewrite Hl.
    + eapply loop_frame_trans; [apply spend_entire_frame|done].
Qed.

Lemma spend_loop_partial spending_asset time len idx pre r post st s :
  NoDup pre → r ∉ pre →
  covers (remaining_sold_amount st) (amounts_of s pre) →
  remaining_sold_amount st - Qc_sum (amounts_of s pre) < remaining_amount (lot s r) →
  (idx + Z.of_nat (length pre) ≤ len)%Z →
  spend_loop spending_asset time len idx (pre ++ r :: post) st s
  = spend_part spending_asset (idx + Z.of_nat (length pre)) r
      (consume spending_asset time len idx pre st s).1
      (consume spending_asset time len idx pre st s).2 time.
Proof.
  intros Hnd Hr Hc Hlt Hlen.
  destruct (consume_spec spending_asset time len idx pre st s Hnd Hlen)
    as (H1 & _ & _ & _ & H5 & _).
  rewrite spend_loop_consume, spend_loop_cons by done.
  rewrite decide_True; [done|]. by rewrite H1, H5.
Qed.

Lemma spend_loop_exhaust spending_asset time len idx acqs st s :
  NoDup acqs →
  covers (remaining_sold_amount st) (amounts_of s acqs) →
  spend_loop spending_asset time len idx acqs st s
  = consume spending_asset time len idx acqs st s.
Proof.
  intros Hnd Hc. rewrite <- (app_nil_r acqs) at 1.
  rewrite spend_loop_consume by done. simpl.
  by destruct (consume spending_asset time len idx acqs st s).
Qed.

Lemma calculate_spend_cost_basis_eq spending_amount spending_asset time s :
  calculate_spend_cost_basis spending_amount spending_asset time s
  = let key := events_key spending_asset in
    let asset_events := ledger s spending_asset in
    let st := (spend_scan spending_amount spending_asset time s).1 in
    let s1 := (spend_scan spending_amount spending_asset time s).2 in
    if decide (length (acquisitions asset_events) = 0%nat) then
      Some ({| taxable_amount := spending_amount; taxable_bought_cost := ZERO;
               taxfree_bought_cost := ZERO; matched_acquisitions := [];
               is_complete := false |},
            inform_user_missing_acquisition spending_asset time None None s1)
    else
      let asset_events :=
        ledger_after asset_events (slice_stop (acquisitions asset_events) (stop_index st)) in
      let s2 := store_events key asset_events s1 in
      if decide (remaining_amount_from_last_buy st ≠ -1) then
        r0 ← acquisitions asset_events !! 0%nat;
        Some (spend_info st true (acc_taxable_amount st),
              set_remaining_amount r0 (remaining_amount_from_last_buy st) s2)
      else if decide (remaining_sold_amount st ≠ ZERO) then
        Some (spend_info st false (spending_amount - taxfree_amount st),
              inform_user_missing_acquisition spending_asset time
                (Some (acc_taxable_amount st + taxfree_amount st))
                (Some (remaining_sold_amount st)) s2)
      else Some (spend_info st true (acc_taxable_amount st), s2).
Proof.
  unfold calculate_spend_cost_basis, spend_scan, pending, spend_init.
  rewrite get_events_eq.
  by destruct (spend_loop _ _ _ _ _ _ _).
Qed.

Lemma ledger_set_remaining_amount r v s asset :
  ledger (set_remaining_amount r v s) asset = ledger s asset.
Proof. done. Qed.

Lemma ledger_log_emit x s asset : ledger (log_emit x s) asset = ledger s asset.
Proof. done. Qed.

Lemma ledger_add_error m s asset : ledger (add_error m s) asset = ledger s asset.
Proof. done. Qed.

Lemma heap_store_events key asset_events s : heap (store_events key asset_events s) = heap s.
Proof. done. Qed.

Lemma heap_log_emit x s : heap (log_emit x s) = heap s.
Proof. done. Qed.

Lemma lot_store_events key asset_events s r : lot (store_events key asset_events s) r = lot s r.
Proof. done. Qed.

Lemma lot_log_emit x s r : lot (log_emit x s) r = lot s r.
Proof. done. Qed.

Lemma lot_add_error m s r : lot (add_error m s) r = lot s r.
Proof. done. Qed.

(** A spend that stops inside the lot [r], after using up the lots [pre]. *)
Lemma calculate_spend_cost_basis_partial spending_amount spending_asset time s pre r post :
  pending s spending_asset = pre ++ r :: post →
  NoDup pre → r ∉ pre →
  covers spending_amount (amounts_of s pre) →
  spending_amount - Qc_sum (amounts_of s pre) < remaining_amount (lot s r) →
  ∃ info s',
    calculate_spend_cost_basis spending_amount spending_asset time s = Some (info, s')
    ∧ matched_acquisitions info
      = matches_of s pre
        ++ [{| ma_amount := spending_amount - Qc_sum (amounts_of s pre); ma_event := r |}]
    ∧ is_complete info = true
    ∧ ledger s' spending_asset
      = {| used_acquisitions := used_acquisitions (ledger s spending_asset) ++ pre;
           acquisitions := r :: post;
           spends := spends (ledger s spending_asset) |}
    ∧ ((r < length (heap s))%nat →
       remaining_amount (lot s' r)
       = remaining_amount (lot s r) - (spending_amount - Qc_sum (amounts_of s pre)))
    ∧ (∀ r', r' ∈ pre → (r' < length (heap s))%nat → remaining_amount (lot s' r') = 0)
    ∧ (∀ r', r' ∉ pre → r' ≠ r → lot s' r' = lot s r')
    ∧ msg_aggregator s' = msg_aggregator s.
Proof.
  intros Hp Hnd Hr Hc Hlt.
  set (key := events_key spending_asset). set (s1 := touch key s).
  set (len := Z.of_nat (length (pre ++ r :: post))).
  assert (0 + Z.of_nat (length pre) ≤ len)%Z as Hlen.
  { unfold len. rewrite length_app. lia. }
  destruct (consume_spec spending_asset time len 0 pre (spend_init spending_amount) s1 Hnd Hlen)
    as (H1 & H2 & H3 & H4 & H5 & H6 & H7).
  rewrite calculate_spend_cost_basis_eq. unfold spend_scan. rewrite Hp.
  fold key s1 len.
  rewrite spend_loop_partial; [|done|done|..|done].
  2: { unfold s1. by rewrite amounts_of_touch. }
  2: { unfold s1. by rewrite amounts_of_touch, touch_lot. }
  unfold s1 in H1, H2, H5, H6. rewrite ?amounts_of_touch in H1.
  rewrite (matches_of_ext s) in H2 by (intros; apply touch_lot).
  fold s1 in H1, H2, H5, H6, H7.
  set (st2 := (consume spending_asset time len 0 pre (spend_init spending_amount) s1).1) in *.
  set (s2 := (consume spending_asset time len 0 pre (spend_init spending_amount) s1).2) in *.
  cbv zeta. unfold pending in Hp. rewrite Hp.
  rewrite decide_False by (rewrite length_app; simpl; lia).
  assert (lot s2 r = lot s r) as Hlr by (rewrite H5 by done; apply touch_lot).
  unfold spend_part. cbn [fst snd remaining_amount_from_last_buy stop_index].
  rewrite Hlr, H1. cbn [remaining_sold_amount spend_init].
  rewrite decide_True by (clear -Hlt; Qc_lra).
  unfold ledger_after. cbn [acquisitions used_acquisitions spends]. rewrite ?Hp.
  rewrite Z.add_0_l, slice_stop_length, take_app_length, drop_app_length.
  cbn [lookup list_lookup mbind option_bind].
  eexists _, _. split; [reflexivity|].
  unfold spend_info. cbn [matched_acquisitions is_complete acc_matched_acquisitions].
  split_and!.
  - rewrite H2. done.
  - done.
  - rewrite ledger_set_remaining_amount, ledger_store_events. by rewrite decide_True.
  - intros Hv. rewrite lot_set_remaining_amount_eq; [done|].
    cbn [heap store_events set_events log_emit].
    destruct H7 as (_&_&_&_&Hl&_). rewrite Hl. unfold s1. by rewrite touch_heap.
  - intros r' Hr' Hv. rewrite lot_set_remaining_amount_ne by (by intros ->).
    rewrite lot_store_events, lot_log_emit. apply H6; [done|].
    unfold s1. by rewrite touch_heap.
  - intros r' Hr' Hne. rewrite lot_set_remaining_amount_ne by done.
    rewrite lot_store_events, lot_log_emit, H5 by done. apply touch_lot.
  - cbn [msg_aggregator set_remaining_amount set_heap store_events set_events log_emit].
    destruct H7 as (_&_&_&Hm&_). rewrite Hm. apply touch_msg_aggregator.
Qed.

Lemma spend_scan_classified spending_amount spending_asset time s :
  classified s time (spend_scan spending_amount spending_asset time s).1.
Proof.
  unfold spend_scan. apply spend_loop_classified.
  - apply touch_lots_frame.
  - by repeat split.
Qed.

Lemma spend_scan_matched spending_amount spending_asset time s m :
  m ∈ acc_matched_acquisitions (spend_scan spending_amount spending_asset time s).1 →
  ma_event m ∈ pending s spending_asset.
Proof.
  unfold spend_scan. intros [Hm|Hm]%spend_loop_matched; [|done].
  by apply elem_of_nil in Hm.
Qed.

Lemma Qc_sum_matches s time (f : MatchedAcquisition → Qc) ms :
  Qc_sum (f <$> taxable_matches s time ms) + Qc_sum (f <$> taxfree_matches s time ms)
  = Qc_sum (f <$> ms).
Proof.
  induction ms as [|m ms IH]; [done|].
  unfold taxable_matches, taxfree_matches in *. rewrite !filter_cons.
  destruct (eligible s time m); repeat case_decide; try done;
    rewrite !fmap_cons; simpl; rewrite <- IH; ring.
Qed.

Lemma ma_amount_matches_of s acqs : ma_amount <$> matches_of s acqs = amounts_of s acqs.
Proof. unfold matches_of, amounts_of. rewrite <- list_fmap_compose. done. Qed.

(** A spend that uses up every pending lot. *)
Lemma calculate_spend_cost_basis_exhaust spending_amount spending_asset time s :
  pending s spending_asset ≠ [] →
  NoDup (pending s spending_asset) →
  covers spending_amount (amounts_of s (pending s spending_asset)) →
  let found := Qc_sum (amounts_of s (pending s spending_asset)) in
  ∃ info s',
    calculate_spend_cost_basis spending_amount spending_asset time s = Some (info, s')
    ∧ matched_acquisitions info = matches_of s (pending s spending_asset)
    ∧ ledger s' spending_asset
      = {| used_acquisitions :=
             used_acquisitions (ledger s spending_asset) ++ pending s spending_asset;
           acquisitions := [];
           spends := spends (ledger s spending_asset) |}
    ∧ (∀ r, r ∈ pending s spending_asset → (r < length (heap s))%nat →
            remaining_amount (lot s' r) = 0)
    ∧ (∀ r, r ∉ pending s spending_asset → lot s' r = lot s r)
    ∧ if decide (spending_amount - found = 0) then
        is_complete info = true ∧ msg_aggregator s' = msg_aggregator s
      else
        is_complete info = false
        ∧ taxable_amount info
          = spending_amount
            - Qc_sum (ma_amount <$> taxfree_matches s time (matched_acquisitions info))
        ∧ msg_aggregator s'
          = msg_aggregator s
            ++ [NotEnoughDocumentedAcquisitions spending_asset time found
                  (Some (spending_amount - found))].
Proof.
  intros Hne Hnd Hc found.
  set (key := events_key spending_asset). set (s1 := touch key s).
  set (acqs := pending s spending_asset) in *.
  set (len := Z.of_nat (length acqs)).
  pose proof (spend_scan_classified spending_amount spending_asset time s) as Hcl.
  destruct (consume_spec spending_asset time len 0 acqs (spend_init spending_amount) s1 Hnd
              ltac:(lia))
    as (H1 & H2 & H3 & H4 & H5 & H6 & H7).
  rewrite calculate_spend_cost_basis_eq. unfold spend_scan in *.
  fold acqs key s1 len in Hcl |- *.
  assert (covers (remaining_sold_amount (spend_init spending_amount)) (amounts_of s1 acqs))
    as Hc1 by (unfold s1; by rewrite amounts_of_touch).
  rewrite (spend_loop_exhaust _ _ _ _ _ _ _ Hnd Hc1) in Hcl |- *.
  unfold s1 in H1, H2, H5, H6. rewrite ?amounts_of_touch in H1.
  rewrite (matches_of_ext s) in H2 by (intros; apply touch_lot).
  fold s1 in H1, H2, H5, H6, H7.
  set (st2 := (consume spending_asset time len 0 acqs (spend_init spending_amount) s1).1) in *.
  set (s2 := (consume spending_asset time len 0 acqs (spend_init spending_amount) s1).2) in *.
  cbv zeta. change (acquisitions (ledger s spending_asset)) with acqs.
  rewrite decide_False by (by destruct acqs).
  rewrite H3. cbn [remaining_amount_from_last_buy spend_init].
  rewrite decide_False by (by intros Hx; apply Hx).
  rewrite decide_True in H4 by (split; [done|lia]). rewrite H4.
  unfold len, ledger_after. rewrite slice_stop_all, take_ge, drop_all by done.
  rewrite H1. cbn [remaining_sold_amount spend_init]. fold found.
  destruct Hcl as (_ & _ & Hfree & Htaxable).
  assert (acc_taxable_amount st2 + taxfree_amount st2 = found) as Hfound.
  { rewrite Hfree, Htaxable, Qc_sum_matches, H2. simpl. by rewrite ma_amount_matches_of. }
  assert ((∀ r, r ∈ acqs → (r < length (heap s))%nat → remaining_amount (lot s2 r) = 0)
          ∧ (∀ r, r ∉ acqs → lot s2 r = lot s r)) as [Hzero Hrest].
  { split.
    - intros r Hr Hv. apply H6; [done|]. unfold s1. by rewrite touch_heap.
    - intros r Hr. rewrite H5 by done. apply touch_lot. }
  destruct H7 as (_&_&_&Hm&_).
  destruct (decide (spending_amount - found = 0)) as [Hz|Hz].
  - rewrite decide_False by (by intros Hx; apply Hx).
    eexists _, _. split; [reflexivity|]. unfold spend_info. simpl.
    split_and!; try done.
    + rewrite ledger_store_events. by rewrite decide_True.
    + rewrite Hm. apply touch_msg_aggregator.
  - rewrite decide_True by done.
    eexists _, _. split; [reflexivity|]. unfold spend_info. simpl.
    split_and!; try done.
    + rewrite ledger_add_error, ledger_store_events. by rewrite decide_True.
    + by rewrite Hfree.
    + rewrite Hm, Hfound. unfold s1. by rewrite touch_msg_aggregator.
Qed.

(** Where the loop stops: inside a lot of the list, or at its end. *)
Lemma spend_loop_stop spending_asset time len idx acqs st s :
  (idx + Z.of_nat (length acqs) = len)%Z →
  let st' := (spend_loop spending_asset time len idx acqs st s).1 in
  (remaining_amount_from_last_buy st' ≠ -1
   ∧ ∃ k, (k < length acqs)%nat ∧ stop_index st' = (idx + Z.of_nat k)%Z)
  ∨ (remaining_amount_from_last_buy st' = remaining_amount_from_last_buy st
     ∧ stop_index st' = match acqs with [] => stop_index st | _ :: _ => len end).
Proof.
  revert idx st s. induction acqs as [|r acqs IH]; intros idx st s Hlen; [by right|].
  cbv zeta. rewrite spend_loop_cons. simpl length in Hlen.
  destruct (decide (remaining_sold_amount st < remaining_amount (lot s r))) as [Hlt|Hge].
  - left. unfold spend_part. cbn [fst remaining_amount_from_last_buy stop_index]. split.
    + clear -Hlt. Qc_lra.
    + exists 0%nat. split; [simpl; lia|lia].
  - destruct (IH (idx + 1)%Z (spend_entire spending_asset len idx r st s time).1
                (spend_entire spending_asset len idx r st s time).2 ltac:(lia))
      as [[Hl (k & Hk & Hs)]|[Hl Hs]].
    + left. split; [done|]. exists (S k). split; [simpl; lia|rewrite Hs; lia].
    + right. split; [by rewrite Hl|]. rewrite Hs.
      destruct acqs; [|done]. unfold spend_entire. cbn [fst stop_index].
      simpl in Hlen. rewrite decide_True by lia. lia.
Qed.

Lemma calculate_spend_cost_basis_total spending_amount spending_asset time s :
  ∃ info s',
    calculate_spend_cost_basis spending_amount spending_asset time s = Some (info, s')
    ∧ matched_acquisitions info
      = acc_matched_acquisitions (spend_scan spending_amount spending_asset time s).1
    ∧ taxable_bought_cost info
      = acc_taxable_bought_cost (spend_scan spending_amount spending_asset time s).1
    ∧ taxfree_bought_cost info
      = acc_taxfree_bought_cost (spend_scan spending_amount spending_asset time s).1
    ∧ taxable_amount info
      = (if is_complete info
         then acc_taxable_amount (spend_scan spending_amount spending_asset time s).1
         else spending_amount
              - taxfree_amount (spend_scan spending_amount spending_asset time s).1).
Proof.
  rewrite calculate_spend_cost_basis_eq. cbv zeta.
  pose proof (spend_loop_stop spending_asset time
                (Z.of_nat (length (pending s spending_asset))) 0
                (pending s spending_asset) (spend_init spending_amount)
                (touch (events_key spending_asset) s) (Z.add_0_l _)) as Hstop.
  cbv zeta in Hstop. fold (spend_scan spending_amount spending_asset time s) in Hstop.
  change (acquisitions (ledger s spending_asset)) with (pending s spending_asset).
  set (st := (spend_scan spending_amount spending_asset time s).1) in *.
  destruct (decide (length (pending s spending_asset) = 0%nat)) as [Hz|Hz].
  - eexists _, _. split; [reflexivity|]. simpl.
    apply length_zero_iff_nil in Hz.
    unfold st, spend_scan. rewrite Hz. simpl. split_and!; try done. ring.
  - destruct (decide (remaining_amount_from_last_buy st ≠ -1)) as [Hl|Hl].
    + destruct Hstop as [[_ (k & Hk & Hs)]|[Hl' _]]; [|by rewrite Hl' in Hl].
      unfold ledger_after. cbn [acquisitions].
      rewrite Hs, Z.add_0_l. unfold slice_stop. rewrite decide_False by lia.
      rewrite Nat2Z.id, lookup_drop, Nat.add_0_r.
      destruct (lookup_lt_is_Some_2 (pending s spending_asset) k Hk) as [r0 Hr0].
      fold (pending s spending_asset). rewrite Hr0. simpl.
      eexists _, _. split; [reflexivity|]. by simpl.
    + case_decide; eexists _, _; (split; [reflexivity|]); by simpl.
Qed.

(** A spend of an asset without pending lots. *)
Lemma calculate_spend_cost_basis_empty spending_amount spending_asset time s :
  pending s spending_asset = [] →
  ∃ s',
    calculate_spend_cost_basis spending_amount spending_asset time s
    = Some ({| taxable_amount := spending_amount; taxable_bought_cost := ZERO;
               taxfree_bought_cost := ZERO; matched_acquisitions := [];
               is_complete := false |}, s')
    ∧ msg_aggregator s'
      = msg_aggregator s ++ [NoDocumentedAcquisition spending_asset time]
    ∧ (∀ asset, ledger s' asset = ledger s asset)
    ∧ heap s' = heap s ∧ log s' = log s.
Proof.
  intros Hempty. unfold pending in Hempty.
  unfold calculate_spend_cost_basis. rewrite get_events_eq, Hempty. simpl.
  eexists. split; [done|]. simpl.
  rewrite touch_msg_aggregator, touch_heap, touch_log.
  repeat split. intros asset. apply touch_ledger.
Qed.

End lots.

(** ** Properties *)

Section properties.
Context {env : RotkiEnv}.

(** C7: reducing an asset by zero returns [True] and leaves the whole
    calculator, hence every ledger, as it was. *)
Theorem reduce_asset_amount_zero asset time s :
  reduce_asset_amount asset ZERO time s = Some (true, s).
Proof. apply reduce_asset_amount_zero_eq. Qed.

(** C1: a spend of an asset without pending acquisitions does not raise,
    reports the missing acquisition to the message aggregator, and returns
    the whole spend as taxable with zero cost, no match and [is_complete]
    false. *)
Theorem calculate_spend_cost_basis_no_acquisitions spending_amount spending_asset time s :
  pending s spending_asset = [] →
  ∃ s',
    calculate_spend_cost_basis spending_amount spending_asset time s
    = Some ({| taxable_amount := spending_amount; taxable_bought_cost := ZERO;
               taxfree_bought_cost := ZERO; matched_acquisitions := [];
               is_complete := false |}, s')
    ∧ msg_aggregator s'
      = msg_aggregator s ++ [NoDocumentedAcquisition spending_asset time]
    ∧ (∀ asset, ledger s' asset = ledger s asset)
    ∧ heap s' = heap s ∧ log s' = log s.
Proof. apply calculate_spend_cost_basis_empty. Qed.

(** C9: the calculated amount is [None] exactly when the asset has no
    pending acquisition, whatever its used acquisitions and spends are, and
    otherwise the sum of the remaining amounts of the pending acquisitions. *)
Theorem get_calculated_asset_amount_spec asset s :
  (fst (get_calculated_asset_amount asset s) = None ↔ pending s asset = [])
  ∧ fst (get_calculated_asset_amount asset s)
    = match pending s asset with
      | [] => None
      | _ :: _ => Some (Qc_sum (amounts_of s (pending s asset)))
      end.
Proof.
  unfold get_calculated_asset_amount, pending. rewrite get_events_eq.
  destruct (acquisitions (ledger s asset)) as [|r acqs] eqn:E; simpl.
  - done.
  - split; [done|]. f_equal.
    rewrite (fold_left_Qc_sum (λ r, remaining_amount (lot (touch (events_key asset) s) r))).
    fold (amounts_of (touch (events_key asset) s) acqs).
    rewrite amounts_of_touch, touch_lot. ring.
Qed.

(** C2: with one pending lot of remaining amount 10, a spend of 4 keeps
    that lot as the only pending one with remaining amount 6, moves nothing
    to the used lots, matches 4 of the lot and is complete. *)
Theorem calculate_spend_cost_basis_splits_lot spending_asset time s r :
  pending s spending_asset = [r] →
  (r < length (heap s))%nat →
  remaining_amount (lot s r) = Q2Qc 10 →
  ∃ info s',
    calculate_spend_cost_basis (Q2Qc 4) spending_asset time s = Some (info, s')
    ∧ pending s' spending_asset = [r]
    ∧ remaining_amount (lot s' r) = Q2Qc 6
    ∧ used_acquisitions (ledger s' spending_asset)
      = used_acquisitions (ledger s spending_asset)
    ∧ matched_acquisitions info = [{| ma_amount := Q2Qc 4; ma_event := r |}]
    ∧ is_complete info = true.
Proof.
  intros Hp Hv Hrem.
  destruct (calculate_spend_cost_basis_partial (Q2Qc 4) spending_asset time s [] r [])
    as (info & s' & Heq & Hm & Hc & Hl & Hr & _); try done.
  { apply NoDup_nil_2. }
  { apply not_elem_of_nil. }
  { rewrite Hrem. by vm_compute. }
  exists info, s'. split; [done|]. unfold pending. rewrite Hl. simpl.
  split_and!; try done.
  - rewrite Hr, Hrem by done. apply Qc_is_canon. by vm_compute.
  - by rewrite app_nil_r.
Qed.

(** C3, as the code has it: with at least three pending lots, distinct
    objects, of which the second has a remaining amount that is not negative
    and the third one that is positive, a spend of exactly the remaining
    amounts of the two oldest uses both up, appends them to the used lots,
    removes them from the pending ones, leaves the third lot pending with
    its remaining amount, and is complete.  A third lot of amount zero does
    not stay pending, as the lots 3, 5 and 0 of the examples show. *)
Theorem calculate_spend_cost_basis_two_oldest spending_asset time s r1 r2 r3 rest :
  pending s spending_asset = r1 :: r2 :: r3 :: rest →
  NoDup [r1; r2; r3] →
  (r1 < length (heap s))%nat → (r2 < length (heap s))%nat → (r3 < length (heap s))%nat →
  0 <= remaining_amount (lot s r2) →
  0 < remaining_amount (lot s r3) →
  ∃ info s',
    calculate_spend_cost_basis
      (remaining_amount (lot s r1) + remaining_amount (lot s r2)) spending_asset time s
    = Some (info, s')
    ∧ is_complete info = true
    ∧ used_acquisitions (ledger s' spending_asset)
      = used_acquisitions (ledger s spending_asset) ++ [r1; r2]
    ∧ pending s' spending_asset = r3 :: rest
    ∧ remaining_amount (lot s' r1) = 0
    ∧ remaining_amount (lot s' r2) = 0
    ∧ remaining_amount (lot s' r3) = remaining_amount (lot s r3)
    ∧ (∀ r, r ∉ [r1; r2; r3] → lot s' r = lot s r).
Proof.
  intros Hp Hnd Hv1 Hv2 Hv3 Hnn Hpos.
  apply list.NoDup_cons in Hnd as [Hr1 Hnd]. apply list.NoDup_cons in Hnd as [Hr2 _].
  apply not_elem_of_cons in Hr1 as [Hr12 Hr1]. apply not_elem_of_cons in Hr1 as [Hr13 _].
  apply not_elem_of_cons in Hr2 as [Hr23 _].
  destruct (calculate_spend_cost_basis_partial
              (remaining_amount (lot s r1) + remaining_amount (lot s r2))
              spending_asset time s [r1; r2] r3 rest)
    as (info & s' & Heq & Hm & Hc & Hl & Hr & Hz & Hrest & _); try done.
  { apply list.NoDup_cons. split; [|apply NoDup_singleton].
    by intros ->%list_elem_of_singleton. }
  { intros [->| ->%list_elem_of_singleton]%elem_of_cons; congruence. }
  { simpl. split_and!; [clear -Hnn; Qc_lra|clear; Qc_lra|done]. }
  { simpl. clear -Hpos. Qc_lra. }
  exists info, s'. split; [done|]. unfold pending. rewrite Hl. simpl.
  split_and!; try done.
  - apply Hz; [|done]. apply list_elem_of_here.
  - apply Hz; [|done]. apply list_elem_of_further, list_elem_of_here.
  - rewrite Hr by done. simpl. clear. Qc_lra.
  - intros r Hnot. apply not_elem_of_cons in Hnot as [? Hnot].
    apply not_elem_of_cons in Hnot as [? Hnot]. apply not_elem_of_cons in Hnot as [? _].
    apply Hrest; [|done].
    intros [->| ->%list_elem_of_singleton]%elem_of_cons; congruence.
Qed.

(** C10, as the code has it: a spend of exactly the remaining amounts, none
    negative, of a prefix of the pending lots that leaves over a lot with a
    positive remaining amount matches, besides the lots of the prefix, that
    lot with amount zero; the lot stays pending and keeps its remaining
    amount.  A lot of amount zero after the prefix is used up instead, as
    the lots 3, 5, 0 and 7 of the examples show. *)
Theorem calculate_spend_cost_basis_zero_match spending_asset time s pre r post :
  pending s spending_asset = pre ++ r :: post →
  NoDup (pre ++ [r]) →
  (r < length (heap s))%nat →
  Forall (λ v, 0 <= v) (amounts_of s pre) →
  0 < remaining_amount (lot s r) →
  ∃ info s',
    calculate_spend_cost_basis (Qc_sum (amounts_of s pre)) spending_asset time s
    = Some (info, s')
    ∧ matched_acquisitions info
      = matches_of s pre ++ [{| ma_amount := 0; ma_event := r |}]
    ∧ pending s' spending_asset = r :: post
    ∧ remaining_amount (lot s' r) = remaining_amount (lot s r).
Proof.
  intros Hp Hnd Hv Hnn Hpos.
  apply list.NoDup_app in Hnd as (Hnd & Hdisj & _).
  destruct (calculate_spend_cost_basis_partial (Qc_sum (amounts_of s pre))
              spending_asset time s pre r post)
    as (info & s' & Heq & Hm & Hc & Hl & Hr & _); try done.
  { intros Hin. apply (Hdisj r Hin). apply list_elem_of_here. }
  { apply covers_nonneg; [done|]. apply Qcle_refl. }
  { clear -Hpos. Qc_lra. }
  exists info, s'. split; [done|]. unfold pending. rewrite Hl. simpl.
  split_and!.
  - rewrite Hm. do 3 f_equal. ring.
  - done.
  - rewrite Hr by done. ring.
Qed.

(** C5: when the pending lots hold less than the spend, the partial
    missing acquisition is reported with the found and the missing amount,
    what is not tax free of the spend is taxable, the result is not
    complete, and the matches cover exactly the found amount. *)
Theorem calculate_spend_cost_basis_not_enough spending_amount spending_asset time s :
  pending s spending_asset ≠ [] →
  NoDup (pending s spending_asset) →
  Forall (λ v, 0 <= v) (amounts_of s (pending s spending_asset)) →
  balance s spending_asset < spending_amount →
  ∃ info s',
    calculate_spend_cost_basis spending_amount spending_asset time s = Some (info, s')
    ∧ msg_aggregator s'
      = msg_aggregator s
        ++ [NotEnoughDocumentedAcquisitions spending_asset time
              (balance s spending_asset)
              (Some (spending_amount - balance s spending_asset))]
    ∧ taxable_amount info
      = spending_amount
        - Qc_sum (ma_amount <$> taxfree_matches s time (matched_acquisitions info))
    ∧ is_complete info = false
    ∧ matched_acquisitions info = matches_of s (pending s spending_asset)
    ∧ Qc_sum (ma_amount <$> matched_acquisitions info) = balance s spending_asset.
Proof.
  intros Hne Hnd Hnn Hlt. unfold balance in *.
  destruct (calculate_spend_cost_basis_exhaust spending_amount spending_asset time s)
    as (info & s' & Heq & Hm & _ & _ & _ & Hcase); try done.
  { apply covers_nonneg; [done|]. by apply Qclt_le_weak. }
  rewrite decide_False in Hcase by (clear -Hlt; Qc_lra).
  destruct Hcase as (Hc & Ht & Hmsg).
  exists info, s'. split_and!; try done.
  by rewrite Hm, ma_amount_matches_of.
Qed.

Lemma at_taxfree_period_spec s time l :
  at_taxfree_period s time l = true
  ↔ ∃ period, taxfree_after_period (settings s) = Some period
              ∧ (timestamp l + period < time)%Z.
Proof.
  unfold at_taxfree_period. destruct (taxfree_after_period (settings s)) as [p|].
  - rewrite bool_decide_eq_true. split; [by exists p|]. by intros (? & [= <-] & ?).
  - split; [done|]. by intros (? & ? & _).
Qed.

Lemma taxable_matches_nil s time ms :
  (∀ m, m ∈ ms → eligible s time m = true) → taxable_matches s time ms = [].
Proof.
  induction ms as [|m ms IH]; intros Hall; [done|].
  unfold taxable_matches in *. rewrite filter_cons_False.
  - apply IH. intros m' Hm'. apply Hall. by apply list_elem_of_further.
  - rewrite (Hall m); [done|]. apply list_elem_of_here.
Qed.

Lemma taxfree_matches_nil s time ms :
  (∀ m, m ∈ ms → eligible s time m = false) → taxfree_matches s time ms = [].
Proof.
  induction ms as [|m ms IH]; intros Hall; [done|].
  unfold taxfree_matches in *. rewrite filter_cons_False.
  - apply IH. intros m' Hm'. apply Hall. by apply list_elem_of_further.
  - rewrite (Hall m); [done|]. apply list_elem_of_here.
Qed.

(** C4: a match is tax free exactly when the tax-free period is set and the
    lot's timestamp plus the period is strictly before the spend; the costs
    and the taxable amount of the result are the sums over the matches so
    classified.  With period [P] and lots acquired at [t0], a spend at
    [t0 + P + 1] is tax free for all that is matched and a spend at
    [t0 + P - 1] is taxable for all of it. *)
Theorem calculate_spend_cost_basis_taxfree_period spending_amount spending_asset time s :
  ∃ info s',
    calculate_spend_cost_basis spending_amount spending_asset time s = Some (info, s')
    ∧ (∀ m, m ∈ matched_acquisitions info →
         ma_event m ∈ pending s spending_asset
         ∧ (eligible s time m = true
            ↔ ∃ period, taxfree_after_period (settings s) = Some period
                        ∧ (timestamp (lot s (ma_event m)) + period < time)%Z))
    ∧ taxfree_bought_cost info
      = Qc_sum (matched_cost s <$> taxfree_matches s time (matched_acquisitions info))
    ∧ taxable_bought_cost info
      = Qc_sum (matched_cost s <$> taxable_matches s time (matched_acquisitions info))
    ∧ taxable_amount info
      = (if is_complete info
         then Qc_sum (ma_amount <$> taxable_matches s time (matched_acquisitions info))
         else spending_amount
              - Qc_sum (ma_amount <$> taxfree_matches s time (matched_acquisitions info)))
    ∧ (∀ period t0,
         taxfree_after_period (settings s) = Some period →
         (∀ r, r ∈ pending s spending_asset → timestamp (lot s r) = t0) →
         (time = (t0 + period + 1)%Z →
            taxable_bought_cost info = 0
            ∧ taxfree_bought_cost info
              = Qc_sum (matched_cost s <$> matched_acquisitions info)
            ∧ (is_complete info = true → taxable_amount info = 0))
         ∧ (time = (t0 + period - 1)%Z →
              taxfree_bought_cost info = 0
              ∧ taxable_bought_cost info
                = Qc_sum (matched_cost s <$> matched_acquisitions info)
              ∧ taxable_amount info
                = (if is_complete info
                   then Qc_sum (ma_amount <$> matched_acquisitions info)
                   else spending_amount))).
Proof.
  destruct (calculate_spend_cost_basis_total spending_amount spending_asset time s)
    as (info & s' & Heq & Hm & Htaxable & Htaxfree & Hamount).
  destruct (spend_scan_classified spending_amount spending_asset time s)
    as (H1 & H2 & H3 & H4).
  rewrite <- Hm in H1, H2, H3, H4. rewrite <- Htaxfree in H1. rewrite <- Htaxable in H2.
  rewrite H3, H4 in Hamount.
  assert (∀ m, m ∈ matched_acquisitions info → ma_event m ∈ pending s spending_asset)
    as Hin.
  { intros m. rewrite Hm. apply spend_scan_matched. }
  exists info, s'. split_and!; try done.
  - intros m Hmm. split; [by apply Hin|]. apply at_taxfree_period_spec.
  - intros period t0 Hperiod Ht0. split; intros ->.
    + assert (taxable_matches s (t0 + period + 1) (matched_acquisitions info) = [])
        as Hnil.
      { apply taxable_matches_nil. intros m Hmm. apply at_taxfree_period_spec.
        exists period. split; [done|]. rewrite (Ht0 _ (Hin m Hmm)). lia. }
      pose proof (Qc_sum_matches s (t0 + period + 1)%Z (matched_cost s)
                    (matched_acquisitions info)) as Hsum.
      rewrite Hnil in Hsum, H2, Hamount. simpl in Hsum, H2, Hamount.
      split_and!; [done| |].
      * rewrite H1, <- Hsum. ring.
      * intros Hc. by rewrite Hc in Hamount.
    + assert (taxfree_matches s (t0 + period - 1) (matched_acquisitions info) = [])
        as Hnil.
      { apply taxfree_matches_nil. intros m Hmm. apply not_true_is_false.
        intros (p & Hp & Hlt)%at_taxfree_period_spec.
        rewrite Hperiod in Hp. injection Hp as <-.
        rewrite (Ht0 _ (Hin m Hmm)) in Hlt. lia. }
      pose proof (Qc_sum_matches s (t0 + period - 1)%Z (matched_cost s)
                    (matched_acquisitions info)) as Hsum.
      pose proof (Qc_sum_matches s (t0 + period - 1)%Z ma_amount
                    (matched_acquisitions info)) as Hsum'.
      rewrite Hnil in Hsum, Hsum', H1, Hamount. simpl in Hsum, Hsum', H1, Hamount.
      split_and!; [done| |].
      * rewrite H2, <- Hsum. ring.
      * rewrite Hamount. destruct (is_complete info); [rewrite <- Hsum'|]; ring.
Qed.

Lemma amounts_of_cons s r l :
  amounts_of s (r :: l) = remaining_amount (lot s r) :: amounts_of s l.
Proof. done. Qed.

Lemma amounts_of_app s l1 l2 : amounts_of s (l1 ++ l2) = amounts_of s l1 ++ amounts_of s l2.
Proof. unfold amounts_of. apply fmap_app. Qed.

Lemma reduce_asset_amount_result asset amount time s :
  amount ≠ 0 →
  Forall (λ v, 0 <= v) (amounts_of s (pending s asset)) →
  ∃ ok s',
    reduce_asset_amount asset amount time s = Some (ok, s')
    ∧ (ok = true ↔ pending s asset ≠ [] ∧ amount <= balance s asset)
    ∧ log s'
      = (if ok then log s
         else if decide (pending s asset = []) then log s
         else log s ++ [NoDocumentedBuy asset time]).
Proof.
  intros Hnz Hnn. unfold balance.
  destruct (reduce_asset_amount_cases asset amount time s Hnz)
    as [[Hp Heq]|[(pre & r & post & Hp & Hc & Hlt & Heq)|(Hp & Hc & Heq)]].
  - exists false, (touch (events_key asset) s). split; [done|]. rewrite Hp. split.
    + split; [done|]. by intros [? _].
    + rewrite decide_True by done. apply touch_log.
  - eexists true, _. split; [exact Heq|]. split.
    + split; [intros _|done]. rewrite Hp in Hnn |- *. split; [by destruct pre|].
      rewrite amounts_of_app, Qc_sum_app in *.
      apply Forall_app in Hnn as [_ Hnn]. simpl in Hnn |- *.
      inversion Hnn as [|? ? _ Hpost]; subst.
      pose proof (Qc_sum_nonneg _ Hpost) as Hs. fold (amounts_of s post) in Hs.
      clear -Hlt Hs. Qc_lra.
    + simpl. apply touch_log.
  - assert (amounts_of s (pending s asset) ≠ []) as Hne
      by (by destruct (pending s asset)).
    pose proof (covers_sum _ _ Hne Hc) as Hle.
    destruct (decide (amount - Qc_sum (amounts_of s (pending s asset)) = 0)) as [Hz|Hz].
    + eexists true, _. split; [exact Heq|]. split.
      * split; [intros _|done]. split; [done|]. clear -Hz. Qc_lra.
      * simpl. apply touch_log.
    + eexists false, _. split; [exact Heq|]. split.
      * split; [done|]. intros [_ Hge]. exfalso. clear -Hz Hle Hge. Qc_lra.
      * rewrite decide_False by done. simpl. by rewrite touch_log.
Qed.

Lemma ledger_same_key s a asset :
  events_key a = events_key asset → ledger s a = ledger s asset.
Proof. unfold ledger. by intros ->. Qed.

(** What [reduce_asset_amount] changes: the pending lots of the asset, and
    the remaining amount of one of them. *)
Lemma reduce_asset_amount_effect asset amount time s :
  ∃ ok s',
    reduce_asset_amount asset amount time s = Some (ok, s')
    ∧ (∀ a, spends (ledger s' a) = spends (ledger s a))
    ∧ (∀ a, used_acquisitions (ledger s' a) = used_acquisitions (ledger s a))
    ∧ (∀ a, events_key a ≠ events_key asset → ledger s' a = ledger s a)
    ∧ (∀ r, r ∉ pending s asset → lot s' r = lot s r)
    ∧ length (heap s') = length (heap s)
    ∧ (∀ r, r ∈ pending s' asset → r ∈ pending s asset)
    ∧ (ok = true →
       NoDup (pending s asset) →
       (∀ r, r ∈ pending s asset → (r < length (heap s))%nat) →
       balance s' asset = balance s asset - amount).
Proof.
  destruct (decide (amount = 0)) as [->|Hnz].
  { exists true, s. rewrite reduce_asset_amount_zero_eq. split_and!; try done.
    intros _ _ _. ring. }
  assert (∀ acqs a,
            ledger (store_events (events_key asset)
                      {| used_acquisitions := used_acquisitions (ledger s asset);
                         acquisitions := acqs;
                         spends := spends (ledger s asset) |}
                      (touch (events_key asset) s)) a
            = if decide (events_key a = events_key asset)
              then {| used_acquisitions := used_acquisitions (ledger s a);
                      acquisitions := acqs;
                      spends := spends (ledger s a) |}
              else ledger s a) as Hledger.
  { intros acqs a. rewrite ledger_store_events, touch_ledger.
    case_decide as E; [|done]. by rewrite (ledger_same_key s a asset E). }
  unfold balance.
  destruct (reduce_asset_amount_cases asset amount time s Hnz)
    as [[Hp Heq]|[(pre & r & post & Hp & Hc & Hlt & Heq)|(Hp & Hc & Heq)]].
  - eexists false, _. split; [exact Heq|].
    split_and!; try done; intros; unfold pending in *;
      rewrite ?touch_ledger, ?touch_lot, ?touch_heap in *; done.
  - eexists true, _. split; [exact Heq|]. split_and!.
    + intros a. rewrite ledger_set_remaining_amount, Hledger. by case_decide.
    + intros a. rewrite ledger_set_remaining_amount, Hledger. by case_decide.
    + intros a Ha. rewrite ledger_set_remaining_amount, Hledger. by rewrite decide_False.
    + intros r' Hr'. rewrite Hp in Hr'.
      rewrite lot_set_remaining_amount_ne, lot_store_events, touch_lot; [done|].
      intros ->. apply Hr'. apply elem_of_app. right. apply list_elem_of_here.
    + by rewrite length_heap_set_remaining_amount, heap_store_events, touch_heap.
    + intros r'. unfold pending at 1.
      rewrite ledger_set_remaining_amount, Hledger, decide_True by done.
      cbn [acquisitions]. rewrite Hp. intros Hin. apply elem_of_app. by right.
    + intros _ Hnd Hvalid. unfold pending at 1.
      rewrite ledger_set_remaining_amount, Hledger, decide_True by done.
      cbn [acquisitions]. rewrite Hp in Hnd, Hvalid |- *.
      apply list.NoDup_app in Hnd as (_ & _ & Hnd).
      apply list.NoDup_cons in Hnd as [Hr _].
      match goal with |- context [amounts_of ?s1 (r :: post)] => set (s' := s1) end.
      assert (remaining_amount (lot s' r)
              = remaining_amount (lot s r) - (amount - Qc_sum (amounts_of s pre))) as Hr'.
      { unfold s'. rewrite lot_set_remaining_amount_eq; [done|].
        rewrite heap_store_events, touch_heap. apply Hvalid.
        apply elem_of_app. right. apply list_elem_of_here. }
      assert (amounts_of s' post = amounts_of s post) as Hpost.
      { apply amounts_of_ext. intros r' Hin. unfold s'.
        rewrite lot_set_remaining_amount_ne by (by intros ->).
        by rewrite lot_store_events, touch_lot. }
      rewrite amounts_of_app, Qc_sum_app, !amounts_of_cons, Hr', Hpost. simpl. ring.
  - destruct (decide (amount - Qc_sum (amounts_of s (pending s asset)) = 0)) as [Hz|Hz].
    + eexists true, _. split; [exact Heq|]. split_and!.
      * intros a. rewrite Hledger. by case_decide.
      * intros a. rewrite Hledger. by case_decide.
      * intros a Ha. rewrite Hledger. by rewrite decide_False.
      * intros r' _. by rewrite lot_store_events, touch_lot.
      * by rewrite heap_store_events, touch_heap.
      * intros r'. unfold pending at 1. rewrite Hledger, decide_True by done.
        cbn [acquisitions]. by intros ?%elem_of_nil.
      * intros _ _ _. unfold pending at 1. rewrite Hledger, decide_True by done.
        simpl. clear -Hz. Qc_lra.
    + eexists false, _. split; [exact Heq|]. split_and!; try done.
      * intros a. rewrite ledger_log_emit, Hledger. by case_decide.
      * intros a. rewrite ledger_log_emit, Hledger. by case_decide.
      * intros a Ha. rewrite ledger_log_emit, Hledger. by rewrite decide_False.
      * intros r' _. by rewrite lot_log_emit, lot_store_events, touch_lot.
      * by rewrite heap_log_emit, heap_store_events, touch_heap.
      * intros r'. unfold pending at 1.
        rewrite ledger_log_emit, Hledger, decide_True by done.
        cbn [acquisitions]. by intros ?%elem_of_nil.
Qed.

Lemma assets_distinct_facts :
  A_BTC ≠ A_ETH ∧ A_BTC ≠ A_BCH ∧ A_BCH ≠ A_BSV ∧ A_BCH ≠ A_WETH ∧ A_BSV ≠ A_WETH.
Proof.
  pose proof assets_distinct as Hd.
  repeat (apply list.NoDup_cons in Hd as [?%not_elem_of_cons Hd]).
  repeat match goal with
         | H : _ ∧ _ |- _ => destruct H as [? H]
         | H : _ ∉ _ :: _ |- _ => apply not_elem_of_cons in H
         end.
  split_and!; congruence.
Qed.

Lemma events_key_other asset : asset ≠ A_WETH → events_key asset = asset.
Proof. intros. unfold events_key. by rewrite decide_False. Qed.

Lemma obtain_asset_heap event s :
  heap (obtain_asset event s) = heap s ++ [AssetAcquisitionEvent_new event].
Proof.
  unfold obtain_asset, alloc. rewrite get_events_eq.
  by rewrite heap_store_events, touch_heap.
Qed.

Lemma obtain_asset_ledger event s asset :
  ledger (obtain_asset event s) asset
  = if decide (events_key asset = events_key (ev_asset event)) then
      {| used_acquisitions := used_acquisitions (ledger s asset);
         acquisitions := acquisitions (ledger s asset) ++ [length (heap s)];
         spends := spends (ledger s asset) |}
    else ledger s asset.
Proof.
  unfold obtain_asset, alloc. rewrite get_events_eq.
  rewrite ledger_store_events, touch_ledger.
  case_decide as E; [|done].
  by rewrite (ledger_same_key s asset (ev_asset event) E).
Qed.

(** A reduction that the pending lots can satisfy. *)
Lemma reduce_asset_amount_sufficient asset amount time s :
  0 <= amount →
  Forall (λ v, 0 <= v) (amounts_of s (pending s asset)) →
  amount <= balance s asset →
  NoDup (pending s asset) →
  (∀ r, r ∈ pending s asset → (r < length (heap s))%nat) →
  ∃ s',
    reduce_asset_amount asset amount time s = Some (true, s')
    ∧ balance s' asset = balance s asset - amount.
Proof.
  intros Hpos Hnn Hle Hnd Hvalid.
  destruct (reduce_asset_amount_effect asset amount time s)
    as (ok & s' & Heq & _ & _ & _ & _ & _ & _ & Hbal).
  exists s'. destruct (decide (amount = 0)) as [->|Hnz].
  - rewrite reduce_asset_amount_zero_eq in Heq |- *. injection Heq as <- <-.
    split; [done|]. ring.
  - destruct (reduce_asset_amount_result asset amount time s Hnz Hnn)
      as (ok' & s'' & Heq' & Hok & _).
    rewrite Heq in Heq'. injection Heq' as <- <-.
    assert (ok = true) as ->.
    { apply Hok. split; [|done]. intros Hempty. unfold balance in Hle.
      rewrite Hempty in Hle. simpl in Hle. clear -Hpos Hle Hnz. Qc_lra. }
    split; [done|]. by apply Hbal.
Qed.

(** C8, as the code has it: acquiring BTC before the BCH fork records an
    acquisition of the same amount and price for BCH and for BSV and returns
    both events; spending BTC before the fork runs [reduce_asset_amount]
    with the amount on BCH and then on BSV and adds no spend to any ledger;
    the balances of BCH and BSV drop by the amount when it is not negative
    and both hold at least the amount.  A descendant that holds less loses
    what it holds, as the spend of 2 BTC in the examples shows. *)
Theorem handle_prefork_btc location time amount price s :
  (time < BTC_BCH_FORK_TS)%Z →
  let prefork asset notes :=
    {| ev_type := PREFORK_ACQUISITION; ev_notes := notes; ev_location := location;
       ev_timestamp := time; ev_asset := asset; ev_taxable_amount := amount;
       ev_free_amount := ZERO; ev_price := price; ev_pnl := PNL_new;
       ev_cost_basis := None |} in
  let ev_bch := prefork A_BCH "Prefork acquisition for BCH"%string in
  let ev_bsv := prefork A_BSV "Prefork acquisition for BSV"%string in
  let acquired := handle_prefork_asset_acquisitions location time A_BTC amount price s in
  (acquired.1 = [ev_bch; ev_bsv]
   ∧ heap acquired.2
     = heap s ++ [AssetAcquisitionEvent_new ev_bch; AssetAcquisitionEvent_new ev_bsv]
   ∧ pending acquired.2 A_BCH = pending s A_BCH ++ [length (heap s)]
   ∧ pending acquired.2 A_BSV = pending s A_BSV ++ [S (length (heap s))]
   ∧ lot acquired.2 (length (heap s)) = {| event := ev_bch; remaining_amount := amount |}
   ∧ lot acquired.2 (S (length (heap s)))
     = {| event := ev_bsv; remaining_amount := amount |})
  ∧ ∃ ok_bch s1 ok_bsv s',
      reduce_asset_amount A_BCH amount time s = Some (ok_bch, s1)
      ∧ reduce_asset_amount A_BSV amount time s1 = Some (ok_bsv, s')
      ∧ handle_prefork_asset_spends A_BTC amount time s = Some s'
      ∧ (∀ asset, spends (ledger s' asset) = spends (ledger s asset))
      ∧ (0 <= amount →
         NoDup (pending s A_BCH ++ pending s A_BSV) →
         (∀ r, r ∈ pending s A_BCH ++ pending s A_BSV → (r < length (heap s))%nat) →
         Forall (λ v, 0 <= v) (amounts_of s (pending s A_BCH ++ pending s A_BSV)) →
         amount <= balance s A_BCH →
         amount <= balance s A_BSV →
         balance s' A_BCH = balance s A_BCH - amount
         ∧ balance s' A_BSV = balance s A_BSV - amount).
Proof.
  intros Htime prefork ev_bch ev_bsv acquired.
  destruct assets_distinct_facts as (Hbtc_eth & Hbtc_bch & Hbch_bsv & Hbch_weth & Hbsv_weth).
  pose proof (events_key_other A_BCH Hbch_weth) as Kbch.
  pose proof (events_key_other A_BSV Hbsv_weth) as Kbsv.
  split.
  - assert (acquired = ([ev_bch; ev_bsv], obtain_asset ev_bsv (obtain_asset ev_bch s)))
      as ->.
    { unfold acquired, handle_prefork_asset_acquisitions, prefork_acquisitions.
      rewrite decide_False by (by intros [? _]).
      by rewrite decide_True. }
    cbn [fst snd]. unfold pending.
    rewrite !obtain_asset_ledger, !obtain_asset_heap. cbn [ev_asset ev_bsv ev_bch prefork].
    rewrite (decide_True (P := events_key A_BCH = events_key A_BCH)) by done.
    rewrite (decide_True (P := events_key A_BSV = events_key A_BSV)) by done.
    rewrite (decide_False (P := events_key A_BCH = events_key A_BSV)) by congruence.
    rewrite (decide_False (P := events_key A_BSV = events_key A_BCH)) by congruence.
    cbn [acquisitions]. rewrite length_app, <- app_assoc. simpl length.
    rewrite Nat.add_1_r. unfold lot. rewrite !obtain_asset_heap, <- app_assoc.
    cbn [app]. split_and!; try done.
    + by rewrite list_lookup_total_middle.
    + rewrite (cons_middle _ (heap s)), app_assoc.
      rewrite list_lookup_total_middle; [done|]. rewrite length_app. simpl. lia.
  - unfold handle_prefork_asset_spends.
    destruct (reduce_asset_amount_effect A_BCH amount time s)
      as (ok1 & s1 & Heq1 & Hsp1 & _ & Hled1 & Hlot1 & Hlen1 & Hsub1 & _).
    destruct (reduce_asset_amount_effect A_BSV amount time s1)
      as (ok2 & s2 & Heq2 & Hsp2 & _ & Hled2 & Hlot2 & Hlen2 & Hsub2 & _).
    rewrite decide_False by (by intros [? _]). cbn [mbind option_bind].
    rewrite decide_True by done. rewrite Heq1. cbn. rewrite Heq2. cbn.
    rewrite decide_False by (by intros [? _]).
    exists ok1, s1, ok2, s2. split_and!; [done..| |].
    { intros asset. by rewrite Hsp2, Hsp1. }
    intros Hpos Hnd Hvalid Hnn Hle1 Hle2.
    apply list.NoDup_app in Hnd as (Hnd1 & Hdisj & Hnd2).
    rewrite amounts_of_app in Hnn. apply Forall_app in Hnn as [Hnn1 Hnn2].
    assert (pending s1 A_BSV = pending s A_BSV) as Hp1.
    { unfold pending. rewrite Hled1; [done|]. congruence. }
    assert (amounts_of s1 (pending s A_BSV) = amounts_of s (pending s A_BSV)) as Ha1.
    { apply amounts_of_ext. intros r Hr. apply Hlot1. intros Hin. by apply (Hdisj r). }
    destruct (reduce_asset_amount_sufficient A_BCH amount time s)
      as (s1' & Heq1' & Hbal1); try done.
    { intros r Hr. apply Hvalid, elem_of_app. by left. }
    rewrite Heq1 in Heq1'. injection Heq1' as -> <-.
    destruct (reduce_asset_amount_sufficient A_BSV amount time s1)
      as (s2' & Heq2' & Hbal2).
    { done. }
    { by rewrite Hp1, Ha1. }
    { unfold balance. by rewrite Hp1, Ha1. }
    { by rewrite Hp1. }
    { intros r Hr. rewrite Hp1 in Hr. rewrite Hlen1. apply Hvalid, elem_of_app. by right. }
    rewrite Heq2 in Heq2'. injection Heq2' as -> <-.
    split.
    + rewrite <- Hbal1. unfold balance, pending. rewrite Hled2 by congruence.
      f_equal. apply amounts_of_ext. intros r Hr. apply Hlot2. rewrite Hp1.
      apply Hdisj. by apply Hsub1.
    + rewrite Hbal2. unfold balance. by rewrite Hp1, Ha1.
Qed.

(** X21: what [reduce_asset_amount] returns and logs: for a non-zero amount
    and pending lots with non-negative remaining amounts it returns [True]
    exactly when there are pending lots and they hold at least the amount
    (for a positive amount: exactly when they hold at least the amount); a
    [False] with pending lots is logged as critical, and a [False] without
    any pending lot is not logged. *)
Theorem reduce_asset_amount_enough_or_logged asset amount time s :
  amount ≠ 0 →
  Forall (λ v, 0 <= v) (amounts_of s (pending s asset)) →
  ∃ ok s',
    reduce_asset_amount asset amount time s = Some (ok, s')
    ∧ (ok = true ↔ pending s asset ≠ [] ∧ amount <= balance s asset)
    ∧ (0 < amount → (ok = true ↔ amount <= balance s asset))
    ∧ (ok = false → pending s asset ≠ [] →
       ∃ record, log s' = log s ++ [record] ∧ level record = CRITICAL)
    ∧ (ok = false → pending s asset = [] → log s' = log s).
Proof.
  intros Hnz Hnn.
  destruct (reduce_asset_amount_result asset amount time s Hnz Hnn)
    as (ok & s' & Heq & Hok & Hlog).
  exists ok, s'. split_and!; try done.
  - intros Hpos. rewrite Hok. split; [by intros [_ ?]|]. intros Hle. split; [|done].
    intros Hempty. unfold balance in Hle. rewrite Hempty in Hle. simpl in Hle.
    clear -Hpos Hle. Qc_lra.
  - intros -> Hne. rewrite decide_False in Hlog by done. by eexists.
  - intros -> Hempty. by rewrite decide_True in Hlog.
Qed.

End properties.

(** ** The invariant of the lots *)

Section invariant.
Context {env : RotkiEnv}.

Lemma lots_invariant_new settings : lots_invariant (CostBasisCalculator_new settings).
Proof.
  split_and!.
  - intros asset r Hr. by apply elem_of_nil in Hr.
  - intros asset1 asset2 i j r Hi. done.
  - intros asset r Hr. by apply elem_of_nil in Hr.
Qed.

Lemma lots_invariant_NoDup s asset : lots_invariant s → NoDup (pending s asset).
Proof.
  intros (_ & Hd & _). apply NoDup_alt. intros i j r Hi Hj.
  by destruct (Hd asset asset i j r Hi Hj).
Qed.

Lemma lots_invariant_nonneg s asset :
  lots_invariant s → Forall (λ v, 0 <= v) (amounts_of s (pending s asset)).
Proof.
  intros (_ & _ & Hp). unfold amounts_of. apply Forall_fmap, list.Forall_forall.
  intros r Hr. simpl. apply Qclt_le_weak. by apply (Hp asset).
Qed.

(** Either the spend uses up every amount, or it stops inside one. *)
Lemma covers_or_split a vs :
  covers a vs
  ∨ ∃ pre v post, vs = pre ++ v :: post ∧ covers a pre ∧ a - Qc_sum pre < v.
Proof.
  revert a. induction vs as [|v vs IH]; intros a; [by left|].
  destruct (decide (a < v)) as [Hlt|Hge].
  - right. exists [], v, vs. simpl. split_and!; [done..|]. clear -Hlt. Qc_lra.
  - destruct (IH (a - v)) as [Hc|(pre & v' & post & -> & Hc & Hlt)].
    + by left.
    + right. exists (v :: pre), v', post. simpl. split_and!; [done..|].
      clear -Hlt. Qc_lra.
Qed.

Lemma covers_or_split_lots s a acqs :
  covers a (amounts_of s acqs)
  ∨ ∃ pre r post,
      acqs = pre ++ r :: post
      ∧ covers a (amounts_of s pre)
      ∧ a - Qc_sum (amounts_of s pre) < remaining_amount (lot s r).
Proof.
  destruct (covers_or_split a (amounts_of s acqs))
    as [Hc|(vpre & v & vpost & Heq & Hc & Hlt)]; [by left|right].
  unfold amounts_of in Heq.
  apply fmap_app_inv in Heq as (pre & post' & -> & Hpost & ->).
  symmetry in Hpost. apply fmap_cons_inv in Hpost as (r & post & -> & -> & ->).
  by exists pre, r, post.
Qed.

Lemma pending_same_key s a asset :
  events_key a = events_key asset → pending s a = pending s asset.
Proof. intros. unfold pending. by rewrite (ledger_same_key s a asset). Qed.

(** The invariant survives when the pending lots of one ledger lose a
    prefix and the lots that stay pending stay positive. *)
Lemma lots_invariant_shrink s s' key k :
  lots_invariant s →
  length (heap s') = length (heap s) →
  (∀ a, events_key a ≠ key → pending s' a = pending s a) →
  (∀ a, events_key a = key → pending s' a = drop k (pending s a)) →
  lots_positive s' →
  lots_invariant s'.
Proof.
  intros (Hlive & Hdist & _) Hlen Hother Hkey Hpos.
  assert (∀ a i r, pending s' a !! i = Some r →
            ∃ i', pending s a !! i' = Some r
                  ∧ i' = if decide (events_key a = key) then (k + i)%nat else i) as Hold.
  { intros a i r Hi. case_decide as E.
    - rewrite (Hkey a E), lookup_drop in Hi. by exists (k + i)%nat.
    - rewrite (Hother a E) in Hi. by exists i. }
  split_and!; [| |done].
  - intros a r [i Hi]%list_elem_of_lookup. rewrite Hlen.
    destruct (Hold a i r Hi) as (i' & Hi' & _).
    apply (Hlive a). by eapply list_elem_of_lookup_2.
  - intros a1 a2 i j r Hi Hj.
    destruct (Hold a1 i r Hi) as (i' & Hi' & Ei).
    destruct (Hold a2 j r Hj) as (j' & Hj' & Ej).
    destruct (Hdist a1 a2 i' j' r Hi' Hj') as [Ekey Eij]. split; [done|].
    rewrite Ekey in Ei. subst i' j'. case_decide; lia.
Qed.

Lemma ledger_events_eq s1 s2 asset : _events s1 = _events s2 → ledger s1 asset = ledger s2 asset.
Proof. unfold ledger. by intros ->. Qed.

Lemma spend_scan_frame spending_amount spending_asset time s :
  (∀ a, ledger (spend_scan spending_amount spending_asset time s).2 a = ledger s a)
  ∧ length (heap (spend_scan spending_amount spending_asset time s).2) = length (heap s).
Proof.
  unfold spend_scan.
  destruct (spend_loop_frame spending_asset time
              (Z.of_nat (length (pending s spending_asset))) 0
              (pending s spending_asset) (spend_init spending_amount)
              (touch (events_key spending_asset) s)) as (_ & _ & He & _ & Hl & _).
  split.
  - intros a. rewrite (ledger_events_eq _ _ a He). apply touch_ledger.
  - by rewrite Hl, touch_heap.
Qed.

(** What [calculate_spend_cost_basis] leaves alone. *)
Lemma calculate_spend_cost_basis_frame spending_amount spending_asset time s info s' :
  calculate_spend_cost_basis spending_amount spending_asset time s = Some (info, s') →
  (∀ a, events_key a ≠ events_key spending_asset → ledger s' a = ledger s a)
  ∧ length (heap s') = length (heap s).
Proof.
  rewrite calculate_spend_cost_basis_eq. cbv zeta.
  destruct (spend_scan_frame spending_amount spending_asset time s) as [Hled Hlen].
  set (st := (spend_scan spending_amount spending_asset time s).1) in *.
  set (s1 := (spend_scan spending_amount spending_asset time s).2) in *.
  repeat case_decide.
  - intros [= <- <-]. split; [|done]. intros a _. by rewrite ledger_add_error.
  - destruct (_ !! 0%nat) as [r0|]; [|done]. simpl. intros [= <- <-]. split.
    + intros a Ha. rewrite ledger_set_remaining_amount, ledger_store_events.
      by rewrite decide_False.
    + by rewrite length_heap_set_remaining_amount, heap_store_events.
  - intros [= <- <-]. split; [|done].
    intros a Ha. rewrite ledger_add_error, ledger_store_events. by rewrite decide_False.
  - intros [= <- <-]. split; [|done].
    intros a Ha. rewrite ledger_store_events. by rewrite decide_False.
Qed.

Lemma pending_set_remaining_amount r v s a :
  pending (set_remaining_amount r v s) a = pending s a.
Proof. done. Qed.

Lemma pending_log_emit x s a : pending (log_emit x s) a = pending s a.
Proof. done. Qed.

Lemma lots_invariant_other s asset a r :
  lots_invariant s → events_key a ≠ events_key asset →
  r ∈ pending s a → r ∉ pending s asset.
Proof.
  intros (_ & Hd & _) Hne [i Hi]%list_elem_of_lookup [j Hj]%list_elem_of_lookup.
  by destruct (Hd a asset i j r Hi Hj).
Qed.

(** [calculate_spend_cost_basis] returns on every state that has the
    invariant, and keeps it. *)
Lemma calculate_spend_cost_basis_invariant spending_amount spending_asset time s :
  lots_invariant s →
  ∃ info s',
    calculate_spend_cost_basis spending_amount spending_asset time s = Some (info, s')
    ∧ lots_invariant s'.
Proof.
  intros Hinv. pose proof Hinv as (Hlive & Hdist & Hpos).
  pose proof (lots_invariant_NoDup s spending_asset Hinv) as Hnd.
  destruct (decide (pending s spending_asset = [])) as [Hempty|Hne].
  { destruct (calculate_spend_cost_basis_empty spending_amount spending_asset time s Hempty)
      as (s' & Heq & _ & Hled & Hheap & _).
    eexists _, s'. split; [done|].
    apply (lots_invariant_shrink s s' (events_key spending_asset) 0); try done.
    - by rewrite Hheap.
    - intros a _. unfold pending. by rewrite Hled.
    - intros a _. unfold pending. by rewrite Hled.
    - intros a r Hr. unfold pending, lot in *. rewrite Hled in Hr. rewrite Hheap.
      by apply (Hpos a). }
  destruct (covers_or_split_lots s spending_amount (pending s spending_asset))
    as [Hc|(pre & r & post & Hp & Hc & Hlt)].
  - destruct (calculate_spend_cost_basis_exhaust spending_amount spending_asset time s
                Hne Hnd Hc) as (info & s' & Heq & _ & Hled & _ & Hrest & _).
    destruct (calculate_spend_cost_basis_frame _ _ _ _ _ _ Heq) as [Hother Hlen].
    exists info, s'. split; [done|].
    assert (pending s' spending_asset = []) as Hp' by (unfold pending; by rewrite Hled).
    apply (lots_invariant_shrink s s' (events_key spending_asset)
             (length (pending s spending_asset))); try done.
    + intros a Ha. unfold pending. by rewrite Hother.
    + intros a Ha. rewrite !(pending_same_key _ a spending_asset Ha), Hp'.
      by rewrite drop_all.
    + intros a r Hr. destruct (decide (events_key a = events_key spending_asset)) as [E|E].
      * rewrite (pending_same_key _ a spending_asset E), Hp' in Hr.
        by apply elem_of_nil in Hr.
      * unfold pending in Hr. rewrite Hother in Hr by done.
        rewrite Hrest; [by apply (Hpos a)|].
        by apply (lots_invariant_other s spending_asset a).
  - rewrite Hp in Hnd. pose proof Hnd as Hnd'.
    apply list.NoDup_app in Hnd as (Hndpre & Hdisj & Hndpost).
    apply list.NoDup_cons in Hndpost as [Hrpost _].
    assert (r ∉ pre) as Hr.
    { intros Hin. apply (Hdisj r Hin). apply list_elem_of_here. }
    destruct (calculate_spend_cost_basis_partial spending_amount spending_asset time s
                pre r post Hp Hndpre Hr Hc Hlt)
      as (info & s' & Heq & _ & _ & Hled & Hrem & _ & Hrest & _).
    destruct (calculate_spend_cost_basis_frame _ _ _ _ _ _ Heq) as [Hother Hlen].
    exists info, s'. split; [done|].
    assert (pending s' spending_asset = r :: post) as Hp' by (unfold pending; by rewrite Hled).
    apply (lots_invariant_shrink s s' (events_key spending_asset) (length pre)); try done.
    + intros a Ha. unfold pending. by rewrite Hother.
    + intros a Ha. rewrite !(pending_same_key _ a spending_asset Ha), Hp', Hp.
      by rewrite drop_app_length.
    + intros a r' Hr'. destruct (decide (events_key a = events_key spending_asset)) as [E|E].
      * rewrite (pending_same_key _ a spending_asset E), Hp' in Hr'.
        apply elem_of_cons in Hr' as [->|Hr'].
        -- rewrite Hrem.
           ++ clear -Hlt. Qc_lra.
           ++ apply (Hlive spending_asset). rewrite Hp. apply elem_of_app. right.
              apply list_elem_of_here.
        -- rewrite Hrest.
           ++ apply (Hpos spending_asset). rewrite Hp. apply elem_of_app. right.
              by apply list_elem_of_further.
           ++ intros Hin. apply (Hdisj r' Hin). by apply list_elem_of_further.
           ++ by intros ->.
      * unfold pending in Hr'. rewrite Hother in Hr' by done.
        pose proof (lots_invariant_other s spending_asset a r' Hinv E Hr') as Hnot.
        rewrite Hp in Hnot. rewrite Hrest.
        -- by apply (Hpos a).
        -- intros Hin. apply Hnot. apply elem_of_app. by left.
        -- intros ->. apply Hnot. apply elem_of_app. right. apply list_elem_of_here.
Qed.

(** [reduce_asset_amount] returns on every state that has the invariant,
    and keeps it. *)
Lemma reduce_asset_amount_invariant asset amount time s :
  lots_invariant s →
  ∃ ok s', reduce_asset_amount asset amount time s = Some (ok, s') ∧ lots_invariant s'.
Proof.
  intros Hinv. pose proof Hinv as (Hlive & Hdist & Hpos).
  destruct (decide (amount = 0)) as [->|Hnz].
  { exists true, s. by rewrite reduce_asset_amount_zero_eq. }
  set (key := events_key asset).
  assert (∀ acqs a,
            pending (store_events key
                       {| used_acquisitions := used_acquisitions (ledger s asset);
                          acquisitions := acqs;
                          spends := spends (ledger s asset) |}
                       (touch key s)) a
            = if decide (events_key a = key) then acqs else pending s a) as Hpending.
  { intros acqs a. unfold pending. rewrite ledger_store_events, touch_ledger.
    by case_decide. }
  destruct (reduce_asset_amount_cases asset amount time s Hnz)
    as [[Hp Heq]|[(pre & r & post & Hp & Hc & Hlt & Heq)|(Hp & Hc & Heq)]].
  - eexists _, _. split; [exact Heq|].
    apply (lots_invariant_shrink s _ key 0); try done.
    + by rewrite touch_heap.
    + intros a _. unfold pending. by rewrite touch_ledger.
    + intros a _. unfold pending. by rewrite touch_ledger.
    + intros a r Hr. unfold pending in Hr. rewrite touch_ledger in Hr.
      rewrite touch_lot. by apply (Hpos a).
  - pose proof (lots_invariant_NoDup s asset Hinv) as Hnd. rewrite Hp in Hnd.
    apply list.NoDup_app in Hnd as (_ & Hdisj & Hndpost).
    apply list.NoDup_cons in Hndpost as [Hrpost _].
    eexists _, _. split; [exact Heq|].
    apply (lots_invariant_shrink s _ key (length pre)); try done.
    + by rewrite length_heap_set_remaining_amount, heap_store_events, touch_heap.
    + intros a Ha. by rewrite pending_set_remaining_amount, Hpending, decide_False.
    + intros a Ha. rewrite pending_set_remaining_amount, Hpending, decide_True by done.
      by rewrite (pending_same_key s a asset Ha), Hp, drop_app_length.
    + intros a r' Hr'. rewrite pending_set_remaining_amount, Hpending in Hr'.
      assert (r ∈ pending s asset) as Hrin.
      { rewrite Hp. apply elem_of_app. right. apply list_elem_of_here. }
      destruct (decide (r = r')) as [<-|Hne].
      * rewrite lot_set_remaining_amount_eq.
        -- simpl. clear -Hlt. Qc_lra.
        -- rewrite heap_store_events, touch_heap. by apply (Hlive asset).
      * rewrite lot_set_remaining_amount_ne, lot_store_events, touch_lot by done.
        case_decide as E.
        -- apply (Hpos asset). rewrite Hp. apply elem_of_app. right.
           apply elem_of_cons in Hr' as [->|Hr']; [done|]. by apply list_elem_of_further.
        -- by apply (Hpos a).
  - assert (∀ s',
              (∀ r, lot s' r = lot s r) → length (heap s') = length (heap s) →
              (∀ a, pending s' a = if decide (events_key a = key) then [] else pending s a) →
              lots_invariant s') as Hdone.
    { intros s' Hlot Hlen Hpend.
      apply (lots_invariant_shrink s s' key (length (pending s asset))); try done.
      - intros a Ha. by rewrite Hpend, decide_False.
      - intros a Ha. rewrite Hpend, decide_True by done.
        by rewrite (pending_same_key s a asset Ha), drop_all.
      - intros a r Hr. rewrite Hpend in Hr. case_decide; [by apply elem_of_nil in Hr|].
        rewrite Hlot. by apply (Hpos a). }
    case_decide; eexists _, _; (split; [exact Heq|]); apply Hdone.
    + intros r. by rewrite lot_store_events, touch_lot.
    + by rewrite heap_store_events, touch_heap.
    + intros a. apply Hpending.
    + intros r. by rewrite lot_log_emit, lot_store_events, touch_lot.
    + by rewrite heap_log_emit, heap_store_events, touch_heap.
    + intros a. rewrite pending_log_emit. apply Hpending.
Qed.

(** [obtain_asset] keeps the invariant when the acquired amount is positive. *)
Lemma obtain_asset_invariant event s :
  lots_invariant s → 0 < ev_taxable_amount event → lots_invariant (obtain_asset event s).
Proof.
  intros Hinv Hamount. pose proof Hinv as (Hlive & Hdist & Hpos).
  set (key := events_key (ev_asset event)). set (n := length (heap s)).
  assert (∀ a, pending (obtain_asset event s) a
               = if decide (events_key a = key) then pending s a ++ [n] else pending s a)
    as Hpending.
  { intros a. unfold pending. rewrite obtain_asset_ledger. fold key.
    by destruct (decide (events_key a = key)). }
  assert (∀ a i r, pending (obtain_asset event s) a !! i = Some r →
            pending s a !! i = Some r
            ∨ (events_key a = key ∧ i = length (pending s a) ∧ r = n)) as Hlookup.
  { intros a i r. rewrite Hpending. case_decide; [|by left].
    intros [?|[? Hr]]%lookup_app_Some; [by left|right].
    apply list_lookup_singleton_Some in Hr as [Hi <-]. split_and!; [done| |done]. lia. }
  assert (∀ a i, pending s a !! i = Some n → False) as Hfresh.
  { intros a i Hi. apply list_elem_of_lookup_2, (Hlive a) in Hi. unfold n in Hi. lia. }
  split_and!.
  - intros a r [i Hi]%list_elem_of_lookup. rewrite obtain_asset_heap, length_app. simpl.
    destruct (Hlookup a i r Hi) as [Hold|(_ & _ & ->)].
    + apply list_elem_of_lookup_2, (Hlive a) in Hold. lia.
    + unfold n. lia.
  - intros a1 a2 i j r Hi Hj.
    destruct (Hlookup a1 i r Hi) as [Hi'|(E1 & Ei & Er1)];
      destruct (Hlookup a2 j r Hj) as [Hj'|(E2 & Ej & Er2)].
    + by apply (Hdist a1 a2 i j r).
    + subst r. by destruct (Hfresh a1 i).
    + subst r. by destruct (Hfresh a2 j).
    + split; [congruence|]. subst i j.
      by rewrite (pending_same_key s a1 a2) by congruence.
  - intros a r [i Hi]%list_elem_of_lookup. unfold lot. rewrite obtain_asset_heap.
    destruct (Hlookup a i r Hi) as [Hold|(_ & _ & ->)].
    + apply list_elem_of_lookup_2 in Hold.
      rewrite lookup_total_app_l by (by apply (Hlive a)). by apply (Hpos a).
    + unfold n. by rewrite list_lookup_total_middle.
Qed.

(** A step that keeps the pending lists, the heap and hence the lots. *)
Lemma lots_invariant_same s s' :
  lots_invariant s →
  heap s' = heap s → (∀ a, pending s' a = pending s a) →
  lots_invariant s'.
Proof.
  intros Hinv Hheap Hpend. pose proof Hinv as (_ & _ & Hpos).
  apply (lots_invariant_shrink s s' "" 0); try done.
  - by rewrite Hheap.
  - intros a r Hr. rewrite Hpend in Hr. unfold lot. rewrite Hheap. by apply (Hpos a).
Qed.

Lemma reset_invariant settings s : lots_invariant (reset settings s).
Proof.
  split_and!.
  - intros asset r Hr. by apply elem_of_nil in Hr.
  - intros asset1 asset2 i j r Hi. done.
  - intros asset r Hr. by apply elem_of_nil in Hr.
Qed.

Lemma get_calculated_asset_amount_invariant asset s :
  lots_invariant s → lots_invariant (get_calculated_asset_amount asset s).2.
Proof.
  intros Hinv. unfold get_calculated_asset_amount. rewrite get_events_eq.
  apply (lots_invariant_same s); [done|..].
  - case_decide; apply touch_heap.
  - intros a. unfold pending. case_decide; apply f_equal, touch_ledger.
Qed.

Lemma spend_asset_invariant location time asset amount rate taxable_spend s :
  lots_invariant s →
  ∃ info s',
    spend_asset location time asset amount rate taxable_spend s = Some (info, s')
    ∧ lots_invariant s'.
Proof.
  intros Hinv. unfold spend_asset. rewrite get_events_eq.
  match goal with |- context [store_events ?k ?e ?s0] => set (s1 := store_events k e s0) end.
  assert (lots_invariant s1) as Hinv1.
  { apply (lots_invariant_same s); [done|..].
    - unfold s1. by rewrite heap_store_events, touch_heap.
    - intros a. unfold pending, s1. rewrite ledger_store_events, touch_ledger.
      case_decide as E; [|done]. simpl. by rewrite (ledger_same_key s a asset E). }
  destruct (negb (is_fiat asset) && taxable_spend).
  - destruct (calculate_spend_cost_basis_invariant amount asset time s1 Hinv1)
      as (info & s' & -> & Hinv'). by eexists _, _.
  - destruct (reduce_asset_amount_invariant asset amount time s1 Hinv1)
      as (ok & s' & -> & Hinv'). by eexists _, _.
Qed.

Lemma handle_prefork_asset_acquisitions_invariant location time asset amount price s :
  lots_invariant s → 0 < amount →
  lots_invariant (handle_prefork_asset_acquisitions location time asset amount price s).2.
Proof.
  intros Hinv Hamount. unfold handle_prefork_asset_acquisitions.
  assert (∀ l events s0,
            lots_invariant s0 →
            lots_invariant
              (fold_left
                 (λ '(events, s) acquisition,
                    let event := prefork_event location time amount price acquisition in
                    (events ++ [event], obtain_asset event s))
                 l (events, s0)).2) as Hfold.
  { induction l as [|acquisition l IH]; intros events s0 H0; [done|].
    simpl. apply IH. by apply obtain_asset_invariant. }
  by apply Hfold.
Qed.

Lemma handle_prefork_asset_spends_invariant asset amount time s :
  lots_invariant s →
  ∃ s', handle_prefork_asset_spends asset amount time s = Some s' ∧ lots_invariant s'.
Proof.
  intros Hinv. unfold handle_prefork_asset_spends.
  assert (∀ a s0, lots_invariant s0 →
            ∃ s', snd <$> reduce_asset_amount a amount time s0 = Some s'
                  ∧ lots_invariant s') as Hreduce.
  { intros a s0 H0. destruct (reduce_asset_amount_invariant a amount time s0 H0)
      as (ok & s' & -> & Hinv'). by exists s'. }
  assert (∃ s1, (if decide (asset = A_ETH ∧ (time < ETH_DAO_FORK_TS)%Z)
                 then snd <$> reduce_asset_amount A_ETC amount time s else Some s) = Some s1
                ∧ lots_invariant s1) as (s1 & -> & Hinv1).
  { case_decide; [by apply Hreduce|by exists s]. }
  cbn [mbind option_bind].
  assert (∃ s2, (if decide (asset = A_BTC ∧ (time < BTC_BCH_FORK_TS)%Z)
                 then (snd <$> reduce_asset_amount A_BCH amount time s1)
                      ≫= λ s, snd <$> reduce_asset_amount A_BSV amount time s
                 else Some s1) = Some s2
                ∧ lots_invariant s2) as (s2 & -> & Hinv2).
  { case_decide; [|by exists s1].
    destruct (Hreduce A_BCH s1 Hinv1) as (s' & -> & Hinv'). by apply Hreduce. }
  cbn [mbind option_bind].
  case_decide; [by apply Hreduce|by exists s2].
Qed.

End invariant.

(** ** The matching engine on every state *)

Section engine.
Context {env : RotkiEnv}.


(** The loop of [calculate_spend_cost_basis] walks the lots in order and
    matches each one it visits; it either breaks inside the lot at position
    [k], or visits them all. *)
Lemma spend_loop_shape spending_asset time len idx acqs st s :
  (idx + Z.of_nat (length acqs) = len)%Z →
  let st' := (spend_loop spending_asset time len idx acqs st s).1 in
  (∃ k, (k < length acqs)%nat
      ∧ 0 < remaining_amount_from_last_buy st'
      ∧ stop_index st' = (idx + Z.of_nat k)%Z
      ∧ ma_event <$> acc_matched_acquisitions st'
        = (ma_event <$> acc_matched_acquisitions st) ++ take (S k) acqs
      ∧ matched_total st' = matched_total st + remaining_sold_amount st)
  ∨ (remaining_amount_from_last_buy st' = remaining_amount_from_last_buy st
     ∧ stop_index st' = match acqs with [] => stop_index st | _ :: _ => len end
     ∧ ma_event <$> acc_matched_acquisitions st'
       = (ma_event <$> acc_matched_acquisitions st) ++ acqs
     ∧ matched_total st' + remaining_sold_amount st'
       = matched_total st + remaining_sold_amount st).
Proof.
  revert idx st s. induction acqs as [|r acqs IH]; intros idx st s Hlen.
  { right. simpl. by rewrite app_nil_r. }
  cbv zeta. rewrite spend_loop_cons. simpl length in Hlen.
  destruct (decide (remaining_sold_amount st < remaining_amount (lot s r))) as [Hlt|Hge].
  - left. exists 0%nat. unfold spend_part, matched_total.
    cbn [fst remaining_amount_from_last_buy stop_index acc_matched_acquisitions].
    split_and!.
    + simpl. lia.
    + clear -Hlt. Qc_lra.
    + lia.
    + by rewrite fmap_app.
    + rewrite fmap_app, Qc_sum_app. cbn [fmap list_fmap Qc_sum foldr ma_amount]. ring.
  - set (st1 := (spend_entire spending_asset len idx r st s time).1).
    set (s1 := (spend_entire spending_asset len idx r st s time).2).
    assert (ma_event <$> acc_matched_acquisitions st1
            = (ma_event <$> acc_matched_acquisitions st) ++ [r]) as Hev.
    { unfold st1, spend_entire. cbn [fst acc_matched_acquisitions]. by rewrite fmap_app. }
    assert (matched_total st1 + remaining_sold_amount st1
            = matched_total st + remaining_sold_amount st) as Htot.
    { unfold st1, spend_entire, matched_total.
      cbn [fst acc_matched_acquisitions remaining_sold_amount].
      rewrite fmap_app, Qc_sum_app. cbn [fmap list_fmap Qc_sum foldr ma_amount]. ring. }
    destruct (IH (idx + 1)%Z st1 s1 ltac:(lia))
      as [(k & Hk & Hl & Hs & He & Ht)|(Hl & Hs & He & Ht)].
    + left. exists (S k). split_and!.
      * simpl. lia.
      * done.
      * rewrite Hs. lia.
      * rewrite He, Hev, <- app_assoc. done.
      * rewrite Ht, Htot. done.
    + right. split_and!.
      * by rewrite Hl.
      * rewrite Hs. destruct acqs; [|done]. unfold st1, spend_entire. cbn [fst stop_index].
        simpl in Hlen. rewrite decide_True by lia. lia.
      * rewrite He, Hev, <- app_assoc. done.
      * rewrite Ht, Htot. done.
Qed.

(** The loop logs one debug record for each match it makes. *)
Lemma spend_loop_log spending_asset time len idx acqs st s :
  let st' := (spend_loop spending_asset time len idx acqs st s).1 in
  let s' := (spend_loop spending_asset time len idx acqs st s).2 in
  ∃ records,
    log s' = log s ++ records
    ∧ length (acc_matched_acquisitions st')
      = (length (acc_matched_acquisitions st) + length records)%nat
    ∧ Forall (λ record, level record = DEBUG) records.
Proof.
  revert idx st s. induction acqs as [|r acqs IH]; intros idx st s.
  { exists []. simpl. by rewrite app_nil_r, Nat.add_0_r. }
  cbv zeta. rewrite spend_loop_cons. case_decide.
  - eexists [_]. unfold spend_part. cbn [fst snd log log_emit acc_matched_acquisitions].
    split_and!; [done| |by repeat constructor].
    by rewrite length_app.
  - destruct (IH (idx + 1)%Z (spend_entire spending_asset len idx r st s time).1
                (spend_entire spending_asset len idx r st s time).2)
      as (records & Hl & Hn & Hd).
    eexists (_ :: records). rewrite Hl, Hn. unfold spend_entire.
    cbn [fst snd log log_emit set_remaining_amount set_heap acc_matched_acquisitions].
    split_and!.
    + by rewrite <- app_assoc.
    + rewrite length_app. simpl. lia.
    + by constructor.
Qed.


(** The three ways through [calculate_spend_cost_basis], for every state:
    no pending lot, a break inside the lot at position [k], or all lots
    visited. *)
Lemma calculate_spend_cost_basis_cases spending_amount spending_asset time s :
  let key := events_key spending_asset in
  let st := (spend_scan spending_amount spending_asset time s).1 in
  let s1 := (spend_scan spending_amount spending_asset time s).2 in
  let moved k := store_events key (ledger_after (ledger s spending_asset) k) s1 in
  (pending s spending_asset = []
   ∧ calculate_spend_cost_basis spending_amount spending_asset time s
     = Some ({| taxable_amount := spending_amount; taxable_bought_cost := ZERO;
                taxfree_bought_cost := ZERO; matched_acquisitions := [];
                is_complete := false |},
             inform_user_missing_acquisition spending_asset time None None
               (touch key s)))
  ∨ (∃ k r0,
       pending s spending_asset !! k = Some r0
       ∧ 0 < remaining_amount_from_last_buy st
       ∧ ma_event <$> acc_matched_acquisitions st = take (S k) (pending s spending_asset)
       ∧ matched_total st = spending_amount
       ∧ calculate_spend_cost_basis spending_amount spending_asset time s
         = Some (spend_info st true (acc_taxable_amount st),
                 set_remaining_amount r0 (remaining_amount_from_last_buy st) (moved k)))
  ∨ (pending s spending_asset ≠ []
     ∧ ma_event <$> acc_matched_acquisitions st = pending s spending_asset
     ∧ matched_total st + remaining_sold_amount st = spending_amount
     ∧ calculate_spend_cost_basis spending_amount spending_asset time s
       = if decide (remaining_sold_amount st ≠ ZERO) then
           Some (spend_info st false (spending_amount - taxfree_amount st),
                 inform_user_missing_acquisition spending_asset time
                   (Some (acc_taxable_amount st + taxfree_amount st))
                   (Some (remaining_sold_amount st))
                   (moved (length (pending s spending_asset))))
         else
           Some (spend_info st true (acc_taxable_amount st),
                 moved (length (pending s spending_asset)))).
Proof.
  cbv zeta. rewrite calculate_spend_cost_basis_eq. cbv zeta.
  pose proof (spend_loop_shape spending_asset time
                (Z.of_nat (length (pending s spending_asset))) 0
                (pending s spending_asset) (spend_init spending_amount)
                (touch (events_key spending_asset) s) (Z.add_0_l _)) as Hshape.
  cbv zeta in Hshape. fold (spend_scan spending_amount spending_asset time s) in Hshape.
  change (acquisitions (ledger s spending_asset)) with (pending s spending_asset).
  set (st := (spend_scan spending_amount spending_asset time s).1) in *.
  assert (matched_total (spend_init spending_amount) = 0) as Hinit by done.
  rewrite Hinit in Hshape. cbn [spend_init acc_matched_acquisitions remaining_sold_amount
    remaining_amount_from_last_buy stop_index fmap list_fmap app] in Hshape.
  destruct (decide (length (pending s spending_asset) = 0%nat)) as [Hz|Hz].
  { left. apply length_zero_iff_nil in Hz. split; [done|].
    unfold spend_scan. rewrite Hz. done. }
  right. destruct Hshape as [(k & Hk & Hl & Hs & He & Ht)|(Hl & Hs & He & Ht)].
  - left. destruct (lookup_lt_is_Some_2 (pending s spending_asset) k Hk) as [r0 Hr0].
    exists k, r0. split_and!; [done..| |].
    { rewrite Ht. ring. }
    rewrite decide_True by (clear -Hl; Qc_lra).
    rewrite Hs, Z.add_0_l. unfold slice_stop. rewrite decide_False by lia.
    rewrite Nat2Z.id. unfold ledger_after. cbn [acquisitions].
    fold (pending s spending_asset).
    rewrite lookup_drop, Nat.add_0_r, Hr0. done.
  - right. split_and!.
    + intros Hp. by rewrite Hp in Hz.
    + done.
    + rewrite Ht. ring.
    + rewrite decide_False by (rewrite Hl; by intros ?).
      destruct (pending s spending_asset) eqn:Hp; [done|]. rewrite <- Hp in *.
      rewrite Hs, slice_stop_all. done.
Qed.


(** The loop writes only to the lots it walks. *)
Lemma spend_loop_lots spending_asset time len idx acqs st s r :
  r ∉ acqs → lot (spend_loop spending_asset time len idx acqs st s).2 r = lot s r.
Proof.
  revert idx st s. induction acqs as [|r' acqs IH]; intros idx st s Hr; [done|].
  apply not_elem_of_cons in Hr as [Hne Hr].
  rewrite spend_loop_cons. case_decide; [done|].
  rewrite IH by done. by apply lot_spend_entire_ne.
Qed.

Lemma spend_scan_loop_frame spending_amount spending_asset time s :
  loop_frame (touch (events_key spending_asset) s)
    (spend_scan spending_amount spending_asset time s).2.
Proof. apply spend_loop_frame. Qed.

Lemma spend_scan_log spending_amount spending_asset time s :
  ∃ records,
    log (spend_scan spending_amount spending_asset time s).2 = log s ++ records
    ∧ length (acc_matched_acquisitions (spend_scan spending_amount spending_asset time s).1)
      = length records
    ∧ Forall (λ record, level record = DEBUG) records.
Proof.
  destruct (spend_loop_log spending_asset time
              (Z.of_nat (length (pending s spending_asset))) 0
              (pending s spending_asset) (spend_init spending_amount)
              (touch (events_key spending_asset) s)) as (records & Hl & Hn & Hd).
  exists records. unfold spend_scan. by rewrite Hl, Hn, touch_log.
Qed.

Lemma spend_scan_lots spending_amount spending_asset time s r :
  r ∉ pending s spending_asset →
  lot (spend_scan spending_amount spending_asset time s).2 r = lot s r.
Proof. intros Hr. unfold spend_scan. rewrite spend_loop_lots by done. apply touch_lot. Qed.

Lemma ledger_inform_user_missing_acquisition asset time found missing s a :
  ledger (inform_user_missing_acquisition asset time found missing s) a = ledger s a.
Proof. unfold inform_user_missing_acquisition. by destruct found. Qed.

Lemma ledger_moved key asset_events s spending_asset :
  key = events_key spending_asset →
  ledger (store_events key asset_events s) spending_asset = asset_events.
Proof. intros ->. by rewrite ledger_store_events, decide_True. Qed.

(** X1: FIFO: the matched lots are the oldest pending ones, in their order;
    the lots that leave the pending list are a prefix of it and are
    appended, in their order, to the used ones; at most the last matched
    lot stays pending. *)
Theorem calculate_spend_cost_basis_fifo spending_amount spending_asset time s :
  ∃ info s' k,
    calculate_spend_cost_basis spending_amount spending_asset time s = Some (info, s')
    ∧ ma_event <$> matched_acquisitions info
      = take (length (matched_acquisitions info)) (pending s spending_asset)
    ∧ used_acquisitions (ledger s' spending_asset)
      = used_acquisitions (ledger s spending_asset) ++ take k (pending s spending_asset)
    ∧ pending s' spending_asset = drop k (pending s spending_asset)
    ∧ (k ≤ length (matched_acquisitions info) ≤ S k)%nat.
Proof.
  destruct (calculate_spend_cost_basis_cases spending_amount spending_asset time s)
    as [[Hp Hc]|[(k & r0 & Hk & _ & He & _ & Hc)|(Hne & He & _ & Hc)]].
  - eexists _, _, 0%nat. split; [done|]. cbn [matched_acquisitions].
    unfold pending in *.
    rewrite ledger_inform_user_missing_acquisition, touch_ledger, Hp.
    simpl. rewrite app_nil_r. split_and!; try done; lia.
  - eexists _, _, k. split; [done|]. unfold spend_info. cbn [matched_acquisitions].
    apply lookup_lt_Some in Hk.
    assert (length (acc_matched_acquisitions
                      (spend_scan spending_amount spending_asset time s).1) = S k) as Hn.
    { rewrite <- (length_fmap ma_event), He, length_take. lia. }
    unfold pending in *.
    rewrite ledger_set_remaining_amount, ledger_moved by done.
    rewrite Hn. split_and!; try done; lia.
  - assert (length (acc_matched_acquisitions
                      (spend_scan spending_amount spending_asset time s).1)
            = length (pending s spending_asset)) as Hn.
    { by rewrite <- (length_fmap ma_event), He. }
    unfold pending in *.
    case_decide; eexists _, _, (length (acquisitions (ledger s spending_asset)));
      (split; [done|]); unfold spend_info; cbn [fst snd matched_acquisitions];
      rewrite ?ledger_inform_user_missing_acquisition, ledger_moved by done;
      rewrite Hn; (split_and!; [by rewrite firstn_all|done|done|lia|lia]).
Qed.


(** The amounts of the result, for every state. *)
Lemma calculate_spend_cost_basis_taxable_sum spending_amount spending_asset time s :
  ∃ info s',
    calculate_spend_cost_basis spending_amount spending_asset time s = Some (info, s')
    ∧ taxable_amount info
      = spending_amount
        - Qc_sum (ma_amount <$> taxfree_matches s time (matched_acquisitions info))
    ∧ (is_complete info = true →
       Qc_sum (ma_amount <$> matched_acquisitions info) = spending_amount)
    ∧ (taxfree_after_period (settings s) = None →
       taxable_amount info = spending_amount ∧ taxfree_bought_cost info = 0).
Proof.
  pose proof (spend_scan_classified spending_amount spending_asset time s)
    as (Hfc & Htc & Hfa & Hta).
  pose proof (Qc_sum_matches s time ma_amount
    (acc_matched_acquisitions (spend_scan spending_amount spending_asset time s).1)) as Hsum.
  assert (∀ info,
    taxable_amount info
    = spending_amount
      - Qc_sum (ma_amount <$> taxfree_matches s time (matched_acquisitions info)) →
    taxfree_bought_cost info
    = Qc_sum (matched_cost s <$> taxfree_matches s time (matched_acquisitions info)) →
    taxfree_after_period (settings s) = None →
    taxable_amount info = spending_amount ∧ taxfree_bought_cost info = 0) as Hnone.
  { intros info -> -> Hp.
    rewrite taxfree_matches_nil.
    - split; [|done]. simpl. ring.
    - intros m _. unfold eligible, at_taxfree_period. by rewrite Hp. }
  destruct (calculate_spend_cost_basis_cases spending_amount spending_asset time s)
    as [[Hp Hc]|[(k & r0 & Hk & _ & He & Ht & Hc)|(Hne & He & Ht & Hc)]].
  - eexists _, _. split; [done|]. cbn [taxable_amount matched_acquisitions is_complete].
    assert (spending_amount = spending_amount - Qc_sum (ma_amount <$> taxfree_matches s time []))
      as Heq by (simpl; ring).
    split_and!; [done|done|]. intros _. done.
  - eexists _, _. split; [done|].
    assert (taxable_amount
              (spend_info (spend_scan spending_amount spending_asset time s).1 true
                 (acc_taxable_amount (spend_scan spending_amount spending_asset time s).1))
            = spending_amount
              - Qc_sum (ma_amount <$> taxfree_matches s time
                          (acc_matched_acquisitions
                             (spend_scan spending_amount spending_asset time s).1))) as Heq.
    { unfold spend_info. cbn [taxable_amount]. rewrite Hta.
      unfold matched_total in Ht. rewrite <- Hsum in Ht. clear -Ht. Qc_lra. }
    split_and!; [done|done|]. intros Hp. by apply Hnone.
  - unfold matched_total in Ht. case_decide as Hr.
    + eexists _, _. split; [done|].
      assert (taxable_amount
                (spend_info (spend_scan spending_amount spending_asset time s).1 false
                   (spending_amount
                    - taxfree_amount (spend_scan spending_amount spending_asset time s).1))
              = spending_amount
                - Qc_sum (ma_amount <$> taxfree_matches s time
                            (acc_matched_acquisitions
                               (spend_scan spending_amount spending_asset time s).1))) as Heq.
      { unfold spend_info. cbn [taxable_amount]. by rewrite Hfa. }
      split_and!; [done|done|]. intros Hp. by apply Hnone.
    + rewrite Hr in Ht.
      eexists _, _. split; [done|].
      assert (taxable_amount
                (spend_info (spend_scan spending_amount spending_asset time s).1 true
                   (acc_taxable_amount (spend_scan spending_amount spending_asset time s).1))
              = spending_amount
                - Qc_sum (ma_amount <$> taxfree_matches s time
                            (acc_matched_acquisitions
                               (spend_scan spending_amount spending_asset time s).1))) as Heq.
      { unfold spend_info. cbn [taxable_amount]. rewrite Hta.
        rewrite <- Hsum in Ht. clear -Ht. Qc_lra. }
      split_and!; [done| |intros Hp; by apply Hnone].
      intros _. unfold spend_info. cbn [matched_acquisitions]. clear -Ht. Qc_lra.
Qed.

(** X2: what is not tax free of a spend is taxable: the taxable amount is the
    spend less the amounts matched with lots held longer than the tax-free
    period; a complete result matches exactly the spend; and without a
    tax-free period the whole spend is taxable at no tax-free cost. *)
Theorem calculate_spend_cost_basis_taxable_amount spending_amount spending_asset time s :
  ∃ info s',
    calculate_spend_cost_basis spending_amount spending_asset time s = Some (info, s')
    ∧ taxable_amount info
      = spending_amount
        - Qc_sum (ma_amount <$> taxfree_matches s time (matched_acquisitions info))
    ∧ (is_complete info = true →
       Qc_sum (ma_amount <$> matched_acquisitions info) = spending_amount)
    ∧ (taxfree_after_period (settings s) = None →
       taxable_amount info = spending_amount ∧ taxfree_bought_cost info = 0).
Proof. apply calculate_spend_cost_basis_taxable_sum. Qed.


Lemma msg_aggregator_spend_scan spending_amount spending_asset time s :
  msg_aggregator (spend_scan spending_amount spending_asset time s).2 = msg_aggregator s.
Proof.
  destruct (spend_scan_loop_frame spending_amount spending_asset time s) as (_&_&_&Hm&_).
  rewrite Hm. apply touch_msg_aggregator.
Qed.

(** X3: the user is told of missing acquisitions exactly when the result is
    not complete, with one message; the log receives one debug record for
    each match and nothing else. *)
Theorem calculate_spend_cost_basis_reports spending_amount spending_asset time s :
  ∃ info s' records,
    calculate_spend_cost_basis spending_amount spending_asset time s = Some (info, s')
    ∧ (if is_complete info then msg_aggregator s' = msg_aggregator s
       else ∃ message, msg_aggregator s' = msg_aggregator s ++ [message])
    ∧ log s' = log s ++ records
    ∧ length records = length (matched_acquisitions info)
    ∧ Forall (λ record, level record = DEBUG) records.
Proof.
  destruct (spend_scan_log spending_amount spending_asset time s) as (records & Hl & Hn & Hd).
  pose proof (msg_aggregator_spend_scan spending_amount spending_asset time s) as Hm.
  destruct (calculate_spend_cost_basis_cases spending_amount spending_asset time s)
    as [[Hp Hc]|[(k & r0 & _ & _ & _ & _ & Hc)|(_ & _ & _ & Hc)]].
  - eexists _, _, []. split; [done|]. cbn [is_complete matched_acquisitions].
    split_and!; [| |done..].
    + eexists. cbn [inform_user_missing_acquisition add_error msg_aggregator].
      by rewrite touch_msg_aggregator.
    + rewrite app_nil_r. cbn [inform_user_missing_acquisition add_error log].
      apply touch_log.
  - eexists _, _, records. split; [done|]. unfold spend_info.
    cbn [is_complete matched_acquisitions].
    split_and!; done.
  - case_decide; eexists _, _, records; (split; [done|]); unfold spend_info;
      cbn [is_complete matched_acquisitions].
    + split_and!; try done. eexists.
      cbn [inform_user_missing_acquisition add_error msg_aggregator store_events set_events].
      by rewrite Hm.
    + split_and!; done.
Qed.

(** What [calculate_spend_cost_basis] leaves as it is. *)
Lemma calculate_spend_cost_basis_untouched spending_amount spending_asset time s :
  ∃ info s',
    calculate_spend_cost_basis spending_amount spending_asset time s = Some (info, s')
    ∧ (∀ asset, events_key asset ≠ events_key spending_asset →
         ledger s' asset = ledger s asset)
    ∧ (∀ asset, spends (ledger s' asset) = spends (ledger s asset))
    ∧ settings s' = settings s
    ∧ profit_currency s' = profit_currency s
    ∧ length (heap s') = length (heap s)
    ∧ (∀ r, event (lot s' r) = event (lot s r))
    ∧ (∀ r, r ∉ pending s spending_asset → lot s' r = lot s r).
Proof.
  destruct (spend_scan_loop_frame spending_amount spending_asset time s)
    as (Hset & Hcur & _ & _ & Hlen & Hev).
  rewrite touch_settings in Hset. rewrite touch_profit_currency in Hcur.
  rewrite touch_heap in Hlen. setoid_rewrite touch_lot in Hev.
  pose proof (spend_scan_frame spending_amount spending_asset time s) as [Hled _].
  pose proof (spend_scan_lots spending_amount spending_asset time s) as Hlots.
  assert (∀ k asset,
    ledger (store_events (events_key spending_asset)
              (ledger_after (ledger s spending_asset) k)
              (spend_scan spending_amount spending_asset time s).2) asset
    = if decide (events_key asset = events_key spending_asset)
      then ledger_after (ledger s spending_asset) k else ledger s asset) as Hmoved.
  { intros k asset. rewrite ledger_store_events. case_decide; [done|]. apply Hled. }
  assert (∀ k asset,
    spends (if decide (events_key asset = events_key spending_asset)
            then ledger_after (ledger s spending_asset) k else ledger s asset)
    = spends (ledger s asset)) as Hspends.
  { intros k asset. case_decide as Hk; [|done]. simpl. by rewrite (ledger_same_key _ _ _ Hk). }
  destruct (calculate_spend_cost_basis_cases spending_amount spending_asset time s)
    as [[Hp Hc]|[(k & r0 & Hk & _ & _ & _ & Hc)|(_ & _ & _ & Hc)]].
  - eexists _, _. split; [done|].
    split_and!; try done.
    + intros asset _. by rewrite ledger_inform_user_missing_acquisition, touch_ledger.
    + intros asset. by rewrite ledger_inform_user_missing_acquisition, touch_ledger.
    + apply touch_settings.
    + apply touch_profit_currency.
    + cbn [inform_user_missing_acquisition add_error heap]. by rewrite touch_heap.
    + intros r. unfold inform_user_missing_acquisition. by rewrite lot_add_error, touch_lot.
    + intros r _. unfold inform_user_missing_acquisition. by rewrite lot_add_error, touch_lot.
  - eexists _, _. split; [done|].
    split_and!; try done.
    + intros asset Hne. rewrite ledger_set_remaining_amount, Hmoved. by rewrite decide_False.
    + intros asset. by rewrite ledger_set_remaining_amount, Hmoved, Hspends.
    + by rewrite length_heap_set_remaining_amount.
    + intros r. by rewrite event_lot_set_remaining_amount, lot_store_events.
    + intros r Hr. rewrite lot_set_remaining_amount_ne.
      * rewrite lot_store_events. by apply Hlots.
      * intros ->. apply Hr. by eapply list_elem_of_lookup_2.
  - pose proof lot_add_error as Hadd.
    case_decide; eexists _, _; (split; [done|]);
      unfold inform_user_missing_acquisition; (split_and!; try done);
      first
        [ by intros asset Hne; rewrite ?ledger_add_error, Hmoved, decide_False
        | by intros asset; rewrite ?ledger_add_error, Hmoved, Hspends
        | by intros r; rewrite ?Hadd, lot_store_events
        | by intros r Hr; rewrite ?Hadd, lot_store_events; apply Hlots ].
Qed.

(** X4: what [calculate_spend_cost_basis] never touches: the ledgers of the
    other assets, the spends of any asset, the settings, the events of the
    lots, and the lots that are not pending for the asset. *)
Theorem calculate_spend_cost_basis_leaves spending_amount spending_asset time s :
  ∃ info s',
    calculate_spend_cost_basis spending_amount spending_asset time s = Some (info, s')
    ∧ (∀ asset, events_key asset ≠ events_key spending_asset →
         ledger s' asset = ledger s asset)
    ∧ (∀ asset, spends (ledger s' asset) = spends (ledger s asset))
    ∧ settings s' = settings s
    ∧ profit_currency s' = profit_currency s
    ∧ length (heap s') = length (heap s)
    ∧ (∀ r, event (lot s' r) = event (lot s r))
    ∧ (∀ r, r ∉ pending s spending_asset → lot s' r = lot s r).
Proof. apply calculate_spend_cost_basis_untouched. Qed.

End engine.

(** ** First in, first out *)

Section fifo.
Context {env : RotkiEnv}.

Lemma lots_view_fst s asset : (fst <$> lots_view s asset) = pending s asset.
Proof.
  unfold lots_view. rewrite <- list_fmap_compose. apply list_fmap_id.
Qed.

Lemma lots_view_snd s asset : (snd <$> lots_view s asset) = amounts_of s (pending s asset).
Proof. unfold lots_view, amounts_of. by rewrite <- list_fmap_compose. Qed.

Lemma fifo_covers a lots : covers a (snd <$> lots) → fifo a lots = [].
Proof.
  revert a. induction lots as [|[r v] lots IH]; intros a Hc; [done|].
  destruct Hc as [Hv Hc]. list_cbn. rewrite decide_False by done. by apply IH.
Qed.

Lemma fifo_split a pre r v post :
  covers a (snd <$> pre) → a - Qc_sum (snd <$> pre) < v →
  fifo a (pre ++ (r, v) :: post) = (r, v - (a - Qc_sum (snd <$> pre))) :: post.
Proof.
  revert a. induction pre as [|[r' v'] pre IH]; intros a Hc Hlt.
  - list_cbn. rewrite decide_True by (clear -Hlt; Qc_lra).
    do 2 f_equal. ring.
  - destruct Hc as [Hv Hc]. list_cbn. rewrite decide_False by done.
    rewrite IH; [|done|clear -Hlt; Qc_lra]. do 2 f_equal. ring.
Qed.

(** Taking [a] and then [b] is taking [a + b]. *)
Lemma fifo_add a b lots : 0 <= b → fifo b (fifo a lots) = fifo (a + b) lots.
Proof.
  intros Hb. revert a. induction lots as [|[r v] lots IH]; intros a; [done|].
  list_cbn. destruct (decide (a < v)) as [Hlt|Hge].
  - list_cbn. destruct (decide (b < v - a)) as [Hlt'|Hge'].
    + rewrite decide_True by (clear -Hlt'; Qc_lra). do 2 f_equal. ring.
    + rewrite decide_False by (clear -Hge'; Qc_lra). f_equal. ring.
  - rewrite decide_False by (clear -Hge Hb; Qc_lra). rewrite IH. f_equal. ring.
Qed.

(** What is left holds what was there less what was taken. *)
Lemma fifo_sum a lots :
  0 <= a → Forall (λ v, 0 <= v) (snd <$> lots) →
  Qc_sum (snd <$> fifo a lots)
  = Qc_sum (snd <$> lots)
    - (if decide (a <= Qc_sum (snd <$> lots)) then a else Qc_sum (snd <$> lots)).
Proof.
  revert a. induction lots as [|[r v] lots IH]; intros a Ha Hnn.
  - list_cbn. case_decide; Qc_lra.
  - inversion Hnn as [|? ? Hv Hnn']; subst. list_cbn.
    pose proof (Qc_sum_nonneg _ Hnn') as Hs.
    destruct (decide (a < v)) as [Hlt|Hge].
    + list_cbn. rewrite decide_True by (clear -Hlt Hs; Qc_lra). ring.
    + rewrite IH; [|clear -Hge; Qc_lra|done].
      destruct (decide (a - v <= Qc_sum (snd <$> lots))) as [Hle|Hgt].
      * rewrite decide_True by (clear -Hle; Qc_lra). ring.
      * rewrite decide_False by (clear -Hgt; Qc_lra). ring.
Qed.

Lemma fifo_nil_iff a lots :
  Forall (λ v, 0 <= v) (snd <$> lots) →
  fifo a lots = [] ↔ lots = [] ∨ Qc_sum (snd <$> lots) <= a.
Proof.
  revert a. induction lots as [|[r v] lots IH]; intros a Hnn.
  - list_cbn. split; [by left|done].
  - inversion Hnn as [|? ? Hv Hnn']; subst. list_cbn.
    pose proof (Qc_sum_nonneg _ Hnn') as Hs.
    destruct (decide (a < v)) as [Hlt|Hge].
    + split; [done|]. intros [?|Hle]; [done|]. clear -Hlt Hle Hs. Qc_lra.
    + rewrite IH by done. split.
      * intros [->|Hle]; right; list_cbn; Qc_lra.
      * intros [?|Hle]; [done|]. right. clear -Hle. Qc_lra.
Qed.

End fifo.

Section views_of_operations.
Context {env : RotkiEnv}.

Lemma lots_view_ext s s' asset :
  pending s' asset = pending s asset →
  (∀ r, r ∈ pending s asset → lot s' r = lot s r) →
  lots_view s' asset = lots_view s asset.
Proof.
  intros Hp Hl. unfold lots_view. rewrite Hp. apply list_fmap_ext.
  intros i r Hr. by rewrite Hl by (by eapply list_elem_of_lookup_2).
Qed.

Lemma balance_view s asset : balance s asset = Qc_sum (snd <$> lots_view s asset).
Proof. unfold balance. by rewrite lots_view_snd. Qed.

Lemma lots_view_app s asset pre r post :
  pending s asset = pre ++ r :: post →
  lots_view s asset
  = ((λ r, (r, remaining_amount (lot s r))) <$> pre)
    ++ (r, remaining_amount (lot s r)) :: ((λ r, (r, remaining_amount (lot s r))) <$> post).
Proof. intros Hp. unfold lots_view. by rewrite Hp, fmap_app. Qed.

Lemma amounts_of_snd s acqs :
  snd <$> ((λ r, (r, remaining_amount (lot s r))) <$> acqs) = amounts_of s acqs.
Proof. unfold amounts_of. by rewrite <- list_fmap_compose. Qed.

(** The pending lots after [calculate_spend_cost_basis], on a state with
    the invariant: the spend is taken from the oldest lots. *)
Lemma calculate_spend_cost_basis_view spending_amount spending_asset time s :
  lots_invariant s →
  ∃ info s',
    calculate_spend_cost_basis spending_amount spending_asset time s = Some (info, s')
    ∧ lots_view s' spending_asset = fifo spending_amount (lots_view s spending_asset)
    ∧ (∀ asset, events_key asset ≠ events_key spending_asset →
         lots_view s' asset = lots_view s asset)
    ∧ used_acquisitions (ledger s' spending_asset)
      = used_acquisitions (ledger s spending_asset)
        ++ take (length (pending s spending_asset) - length (pending s' spending_asset))
             (pending s spending_asset)
    ∧ Qc_sum (ma_amount <$> matched_acquisitions info)
      = balance s spending_asset - balance s' spending_asset
    ∧ (is_complete info = true
       ↔ pending s spending_asset ≠ [] ∧ spending_amount <= balance s spending_asset).
Proof.
  intros Hinv. pose proof Hinv as (Hlive & Hdist & Hpos).
  pose proof (lots_invariant_NoDup s spending_asset Hinv) as Hnd.
  pose proof (lots_invariant_nonneg s spending_asset Hinv) as Hnn.
  assert (∀ info s',
    calculate_spend_cost_basis spending_amount spending_asset time s = Some (info, s') →
    (∀ r, r ∉ pending s spending_asset → lot s' r = lot s r) →
    ∀ asset, events_key asset ≠ events_key spending_asset →
      lots_view s' asset = lots_view s asset) as Hothers.
  { intros info s' Heq Hlots asset Hne.
    destruct (calculate_spend_cost_basis_frame _ _ _ _ _ _ Heq) as [Hother _].
    apply lots_view_ext.
    - unfold pending. by rewrite Hother.
    - intros r Hr. apply Hlots. by apply (lots_invariant_other s spending_asset asset). }
  destruct (decide (pending s spending_asset = [])) as [Hempty|Hne].
  { destruct (calculate_spend_cost_basis_empty spending_amount spending_asset time s Hempty)
      as (s' & Heq & _ & Hled & Hheap & _).
    assert (∀ asset, lots_view s' asset = lots_view s asset) as Hview.
    { intros asset. apply lots_view_ext.
      - unfold pending. by rewrite Hled.
      - intros r _. unfold lot. by rewrite Hheap. }
    eexists _, s'. split; [done|]. cbn [matched_acquisitions is_complete].
    split_and!.
    - rewrite Hview. unfold lots_view. by rewrite Hempty.
    - intros asset _. apply Hview.
    - unfold pending. rewrite Hled. fold (pending s spending_asset).
      rewrite Hempty. simpl. by rewrite app_nil_r.
    - rewrite !balance_view, Hview. list_cbn. ring.
    - split; [done|]. by intros [? _]. }
  destruct (covers_or_split_lots s spending_amount (pending s spending_asset))
    as [Hc|(pre & r & post & Hp & Hc & Hlt)].
  - destruct (calculate_spend_cost_basis_exhaust spending_amount spending_asset time s
                Hne Hnd Hc) as (info & s' & Heq & Hm & Hled & _ & Hrest & Hfin).
    exists info, s'. split; [done|].
    assert (pending s' spending_asset = []) as Hp' by (unfold pending; by rewrite Hled).
    assert (lots_view s' spending_asset = []) as Hv' by (unfold lots_view; by rewrite Hp').
    assert (amounts_of s (pending s spending_asset) ≠ []) as Hne'.
    { destruct (pending s spending_asset); [done|]. by rewrite amounts_of_cons. }
    pose proof (covers_sum _ _ Hne' Hc) as Hsum.
    fold (balance s spending_asset) in Hsum.
    split_and!.
    + rewrite Hv', fifo_covers; [done|]. by rewrite lots_view_snd.
    + by apply (Hothers info s').
    + rewrite Hled, Hp'. simpl. by rewrite Nat.sub_0_r, firstn_all.
    + rewrite Hm, ma_amount_matches_of, (balance_view s'), Hv'. unfold balance.
      list_cbn. ring.
    + case_decide as Hz; destruct Hfin as [Hcomp Hfin]; rewrite Hcomp.
      * split; [|done]. intros _. split; [done|]. unfold balance. clear -Hz. Qc_lra.
      * split; [done|]. intros [_ Hle]. exfalso. apply Hz. unfold balance in *.
        clear -Hsum Hle. Qc_lra.
  - rewrite Hp in Hnd. pose proof Hnd as Hnd'.
    apply list.NoDup_app in Hnd as (Hndpre & Hdisj & Hndpost).
    apply list.NoDup_cons in Hndpost as [Hrpost _].
    assert (r ∉ pre) as Hr.
    { intros Hin. apply (Hdisj r Hin). apply list_elem_of_here. }
    assert ((r < length (heap s))%nat) as Hrlive.
    { apply (Hlive spending_asset). rewrite Hp. apply elem_of_app. right. left. }
    destruct (calculate_spend_cost_basis_partial spending_amount spending_asset time s
                pre r post Hp Hndpre Hr Hc Hlt)
      as (info & s' & Heq & Hm & Hcomp & Hled & Hrem & _ & Hrest & _).
    exists info, s'. split; [done|].
    assert (pending s' spending_asset = r :: post) as Hp' by (unfold pending; by rewrite Hled).
    assert (lots_view s' spending_asset
            = (r, remaining_amount (lot s r)
                  - (spending_amount - Qc_sum (amounts_of s pre)))
              :: ((λ r, (r, remaining_amount (lot s r))) <$> post)) as Hv'.
    { unfold lots_view. rewrite Hp', fmap_cons, (Hrem Hrlive). f_equal.
      apply list_fmap_ext. intros i r' Hr'. apply list_elem_of_lookup_2 in Hr'.
      rewrite Hrest; [done| |by intros ->].
      intros Hin. apply (Hdisj r' Hin). by right. }
    assert (balance s spending_asset
            = Qc_sum (amounts_of s pre) + remaining_amount (lot s r)
              + Qc_sum (amounts_of s post)) as Hbal.
    { unfold balance. rewrite Hp, amounts_of_app, Qc_sum_app, amounts_of_cons.
      list_cbn. ring. }
    assert (0 <= Qc_sum (amounts_of s post)) as Hpost.
    { apply Qc_sum_nonneg. rewrite Hp, amounts_of_app, amounts_of_cons in Hnn.
      apply Forall_app in Hnn as [_ Hnn]. by inversion Hnn. }
    split_and!.
    + rewrite Hv', (lots_view_app s spending_asset pre r post Hp).
      rewrite fifo_split; rewrite ?amounts_of_snd; done.
    + apply (Hothers info s' Heq). intros r' Hr'. rewrite Hp in Hr'.
      apply Hrest.
      * intros Hin. apply Hr'. apply elem_of_app. by left.
      * intros ->. apply Hr'. apply elem_of_app. right. left.
    + rewrite Hled, Hp', Hp. cbn [used_acquisitions]. f_equal.
      rewrite length_app. simpl.
      replace (length pre + S (length post) - S (length post))%nat with (length pre) by lia.
      by rewrite take_app_length.
    + rewrite Hm, fmap_app, Qc_sum_app, ma_amount_matches_of.
      rewrite (balance_view s'), Hv', Hbal. list_cbn. rewrite amounts_of_snd. cbn [ma_amount]. ring.
    + rewrite Hcomp. split; [|done]. intros _. split; [by rewrite Hp; destruct pre|].
      rewrite Hbal. clear -Hlt Hpost. Qc_lra.
Qed.


Lemma fifo_zero lots : Forall (λ v, 0 < v) (snd <$> lots) → fifo 0 lots = lots.
Proof.
  destruct lots as [|[r v] lots]; [done|]. intros Hpos. list_cbn.
  inversion Hpos as [|? ? Hv _]; subst. rewrite decide_True by done.
  do 2 f_equal. ring.
Qed.

Lemma lots_invariant_positive s asset :
  lots_invariant s → Forall (λ v, 0 < v) (snd <$> lots_view s asset).
Proof.
  intros (_ & _ & Hpos). rewrite lots_view_snd. unfold amounts_of.
  apply Forall_fmap, list.Forall_forall. intros r Hr. by apply (Hpos asset).
Qed.

Lemma lot_touch_store key asset_events s r :
  lot (store_events key asset_events (touch key s)) r = lot s r.
Proof. by rewrite lot_store_events, touch_lot. Qed.

Lemma ledger_touch_store key asset_events s asset :
  ledger (store_events key asset_events (touch key s)) asset
  = if decide (events_key asset = key) then asset_events else ledger s asset.
Proof. rewrite ledger_store_events. case_decide; [done|]. apply touch_ledger. Qed.

(** The pending lots after [reduce_asset_amount], on a state with the
    invariant: the amount is taken from the oldest lots. *)
Lemma reduce_asset_amount_view asset amount time s :
  lots_invariant s →
  ∃ ok s',
    reduce_asset_amount asset amount time s = Some (ok, s')
    ∧ lots_view s' asset = fifo amount (lots_view s asset)
    ∧ (∀ a, events_key a ≠ events_key asset → lots_view s' a = lots_view s a)
    ∧ (amount ≠ 0 → (ok = true ↔ pending s asset ≠ [] ∧ amount <= balance s asset)).
Proof.
  intros Hinv. pose proof Hinv as (Hlive & Hdist & Hpos).
  pose proof (lots_invariant_NoDup s asset Hinv) as Hnd.
  pose proof (lots_invariant_nonneg s asset Hinv) as Hnn.
  destruct (decide (amount = 0)) as [->|Hnz].
  { rewrite reduce_asset_amount_zero_eq. eexists _, _. split; [done|].
    split_and!; try done. symmetry. by apply fifo_zero, lots_invariant_positive. }
  assert (∀ acqs a, events_key a ≠ events_key asset →
    ledger (store_events (events_key asset)
              {| used_acquisitions := used_acquisitions (ledger s asset);
                 acquisitions := acqs; spends := spends (ledger s asset) |}
              (touch (events_key asset) s)) a = ledger s a) as Hother.
  { intros acqs a Hne. rewrite ledger_touch_store. by rewrite decide_False. }
  assert (∀ acqs,
    ledger (store_events (events_key asset)
              {| used_acquisitions := used_acquisitions (ledger s asset);
                 acquisitions := acqs; spends := spends (ledger s asset) |}
              (touch (events_key asset) s)) asset
    = {| used_acquisitions := used_acquisitions (ledger s asset);
         acquisitions := acqs; spends := spends (ledger s asset) |}) as Hself.
  { intros acqs. rewrite ledger_touch_store. by rewrite decide_True. }
  destruct (reduce_asset_amount_cases asset amount time s Hnz)
    as [[Hp Heq]|[(pre & r & post & Hp & Hc & Hlt & Heq)|(Hne & Hc & Heq)]];
    cbv zeta in Heq.
  - eexists _, _. split; [done|].
    assert (∀ a, lots_view (touch (events_key asset) s) a = lots_view s a) as Hview.
    { intros a. apply lots_view_ext.
      - unfold pending. by rewrite touch_ledger.
      - intros r _. apply touch_lot. }
    split_and!.
    + rewrite Hview. unfold lots_view. by rewrite Hp.
    + intros a _. apply Hview.
    + intros _. split; [done|]. by intros [? _].
  - eexists _, _. split; [done|].
    rewrite Hp in Hnd.
    apply list.NoDup_app in Hnd as (Hndpre & Hdisj & Hndpost).
    apply list.NoDup_cons in Hndpost as [Hrpost _].
    assert ((r < length (heap s))%nat) as Hrlive.
    { apply (Hlive asset). rewrite Hp. apply elem_of_app. right. left. }
    assert (balance s asset
            = Qc_sum (amounts_of s pre) + remaining_amount (lot s r)
              + Qc_sum (amounts_of s post)) as Hbal.
    { unfold balance. rewrite Hp, amounts_of_app, Qc_sum_app, amounts_of_cons.
      list_cbn. ring. }
    assert (0 <= Qc_sum (amounts_of s post)) as Hpost.
    { apply Qc_sum_nonneg. rewrite Hp, amounts_of_app, amounts_of_cons in Hnn.
      apply Forall_app in Hnn as [_ Hnn]. by inversion Hnn. }
    split_and!.
    + unfold lots_view at 1. unfold pending.
      rewrite ledger_set_remaining_amount, Hself. cbn [acquisitions].
      rewrite fmap_cons, lot_set_remaining_amount_eq
        by (by rewrite heap_store_events, touch_heap).
      cbn [remaining_amount].
      rewrite (lots_view_app s asset pre r post Hp).
      rewrite fifo_split; rewrite ?amounts_of_snd; [|done..]. f_equal.
      apply list_fmap_ext. intros i r' Hr'. apply list_elem_of_lookup_2 in Hr'.
      rewrite lot_set_remaining_amount_ne by (by intros ->).
      by rewrite lot_touch_store.
    + intros a Hne. apply lots_view_ext.
      * unfold pending. by rewrite ledger_set_remaining_amount, Hother.
      * intros r' Hr'. rewrite lot_set_remaining_amount_ne.
        { apply lot_touch_store. }
        intros ->. apply (lots_invariant_other s asset a r' Hinv Hne Hr').
        rewrite Hp. apply elem_of_app. right. left.
    + intros _. split; [|done]. intros _. split; [by rewrite Hp; destruct pre|].
      rewrite Hbal. clear -Hlt Hpost. Qc_lra.
  - assert (amounts_of s (pending s asset) ≠ []) as Hne'.
    { destruct (pending s asset); [done|]. by rewrite amounts_of_cons. }
    pose proof (covers_sum _ _ Hne' Hc) as Hsum.
    fold (balance s asset) in Hsum, Heq.
    assert (∀ s', ledger s' asset
                  = {| used_acquisitions := used_acquisitions (ledger s asset);
                       acquisitions := []; spends := spends (ledger s asset) |} →
            lots_view s' asset = fifo amount (lots_view s asset)) as Hv.
    { intros s' Hled. unfold lots_view at 1. unfold pending. rewrite Hled.
      rewrite fifo_covers; [done|]. by rewrite lots_view_snd. }
    assert (∀ s', (∀ a, events_key a ≠ events_key asset → ledger s' a = ledger s a) →
            (∀ r, lot s' r = lot s r) →
            ∀ a, events_key a ≠ events_key asset → lots_view s' a = lots_view s a) as Hvo.
    { intros s' Hled Hlot a Hne2. apply lots_view_ext; [|by intros].
      unfold pending. by rewrite Hled. }
    case_decide as Hz; eexists _, _; (split; [done|]); split_and!.
    + by apply Hv.
    + apply Hvo; [by intros; apply Hother|]. intros r. apply lot_touch_store.
    + intros _. split; [|done]. intros _. split; [done|]. clear -Hz. Qc_lra.
    + apply Hv. by rewrite ledger_log_emit.
    + apply Hvo.
      * intros a Hne2. rewrite ledger_log_emit. by apply Hother.
      * intros r. rewrite lot_log_emit. apply lot_touch_store.
    + intros _. split; [done|]. intros [_ Hle]. exfalso. apply Hz.
      clear -Hsum Hle. Qc_lra.
Qed.

End views_of_operations.

(** ** How the operations compose *)

Section composition.
Context {env : RotkiEnv}.

Lemma fifo_fst a lots :
  (length (fifo a lots) ≤ length lots)%nat
  ∧ fst <$> fifo a lots = drop (length lots - length (fifo a lots)) (fst <$> lots).
Proof.
  revert a. induction lots as [|[r v] lots IH]; intros a; [done|].
  list_cbn. case_decide.
  - split; [done|]. by rewrite Nat.sub_diag.
  - destruct (IH (a - v)) as [Hle Heq]. split; [simpl; lia|].
    rewrite Heq. simpl length.
    replace (S (length lots) - length (fifo (a - v) lots))%nat
      with (S (length lots - length (fifo (a - v) lots))) by lia.
    done.
Qed.

(** The lots that a spend removes from the pending ones are used up. *)
Lemma calculate_spend_cost_basis_used_up spending_amount spending_asset time s info s' :
  lots_invariant s →
  calculate_spend_cost_basis spending_amount spending_asset time s = Some (info, s') →
  ∀ r, r ∈ pending s spending_asset → r ∉ pending s' spending_asset →
       remaining_amount (lot s' r) = 0.
Proof.
  intros Hinv Heq r Hr Hr'. pose proof Hinv as (Hlive & _ & _).
  pose proof (lots_invariant_NoDup s spending_asset Hinv) as Hnd.
  destruct (decide (pending s spending_asset = [])) as [Hempty|Hne].
  { rewrite Hempty in Hr. by apply elem_of_nil in Hr. }
  destruct (covers_or_split_lots s spending_amount (pending s spending_asset))
    as [Hc|(pre & r0 & post & Hp & Hc & Hlt)].
  - destruct (calculate_spend_cost_basis_exhaust spending_amount spending_asset time s
                Hne Hnd Hc) as (info' & s'' & Heq' & _ & _ & Hzero & _).
    rewrite Heq in Heq'. injection Heq' as <- <-.
    apply Hzero; [done|]. by apply (Hlive spending_asset).
  - rewrite Hp in Hnd.
    apply list.NoDup_app in Hnd as (Hndpre & Hdisj & Hndpost).
    assert (r0 ∉ pre) as Hr0.
    { intros Hin. apply (Hdisj r0 Hin). apply list_elem_of_here. }
    destruct (calculate_spend_cost_basis_partial spending_amount spending_asset time s
                pre r0 post Hp Hndpre Hr0 Hc Hlt)
      as (info' & s'' & Heq' & _ & _ & Hled & _ & Hzero & _).
    rewrite Heq in Heq'. injection Heq' as <- <-.
    assert (pending s' spending_asset = r0 :: post) as Hp' by (unfold pending; by rewrite Hled).
    apply Hzero; [|by apply (Hlive spending_asset)].
    rewrite Hp in Hr. rewrite Hp' in Hr'. apply elem_of_app in Hr as [?|?]; done.
Qed.


Lemma lots_view_same_key s a asset :
  events_key a = events_key asset → lots_view s a = lots_view s asset.
Proof. intros Hk. unfold lots_view. by rewrite (pending_same_key s a asset Hk). Qed.

Lemma lots_view_eq s1 s2 asset :
  lots_view s1 asset = lots_view s2 asset →
  pending s1 asset = pending s2 asset
  ∧ amounts_of s1 (pending s1 asset) = amounts_of s2 (pending s2 asset).
Proof.
  intros Hv. split.
  - by rewrite <- !lots_view_fst, Hv.
  - by rewrite <- !lots_view_snd, Hv.
Qed.

(** X5: a spend of a non-negative amount, on a state with the invariant,
    matches the smaller of the spend and of what the pending lots hold, and
    takes exactly what it matches from the pending lots of the asset; it is
    complete exactly when the asset has pending lots that hold the spend. *)
Theorem calculate_spend_cost_basis_conserves spending_amount spending_asset time s :
  lots_invariant s → 0 <= spending_amount →
  ∃ info s',
    calculate_spend_cost_basis spending_amount spending_asset time s = Some (info, s')
    ∧ Qc_sum (ma_amount <$> matched_acquisitions info)
      = (if decide (spending_amount <= balance s spending_asset)
         then spending_amount else balance s spending_asset)
    ∧ balance s' spending_asset
      = balance s spending_asset - Qc_sum (ma_amount <$> matched_acquisitions info)
    ∧ (∀ asset, events_key asset ≠ events_key spending_asset →
         balance s' asset = balance s asset)
    ∧ (is_complete info = true
       ↔ pending s spending_asset ≠ [] ∧ spending_amount <= balance s spending_asset).
Proof.
  intros Hinv Hnn.
  destruct (calculate_spend_cost_basis_view spending_amount spending_asset time s Hinv)
    as (info & s' & Heq & Hv & Ho & _ & Hm & Hc).
  exists info, s'. split; [done|].
  assert (balance s' spending_asset
          = balance s spending_asset
            - (if decide (spending_amount <= balance s spending_asset)
               then spending_amount else balance s spending_asset)) as Hb.
  { rewrite (balance_view s'), Hv, fifo_sum, <- balance_view; [done..|].
    rewrite lots_view_snd. by apply lots_invariant_nonneg. }
  split_and!; [| |by intros asset Hne; rewrite !balance_view, Ho|done].
  - rewrite Hm, Hb. ring.
  - rewrite Hm. ring.
Qed.

(** X6: [reduce_asset_amount] consumes the pending lots as
    [calculate_spend_cost_basis] does: from a state with the invariant both
    leave the same lots pending, with the same remaining amounts, for every
    asset, and for a non-zero amount the one returns [True] exactly when
    the result of the other is complete. *)
Theorem reduce_asset_amount_as_spend asset amount time s :
  lots_invariant s →
  ∃ ok s1 info s2,
    reduce_asset_amount asset amount time s = Some (ok, s1)
    ∧ calculate_spend_cost_basis amount asset time s = Some (info, s2)
    ∧ (∀ a, pending s1 a = pending s2 a
            ∧ amounts_of s1 (pending s1 a) = amounts_of s2 (pending s2 a))
    ∧ (amount ≠ 0 → ok = is_complete info).
Proof.
  intros Hinv.
  destruct (reduce_asset_amount_view asset amount time s Hinv)
    as (ok & s1 & Heq1 & Hv1 & Ho1 & Hok).
  destruct (calculate_spend_cost_basis_view amount asset time s Hinv)
    as (info & s2 & Heq2 & Hv2 & Ho2 & _ & _ & Hc).
  exists ok, s1, info, s2. split_and!; [done..| |].
  - intros a. apply lots_view_eq.
    destruct (decide (events_key a = events_key asset)) as [Hk|Hk].
    + by rewrite !(lots_view_same_key _ a asset Hk), Hv1, Hv2.
    + by rewrite Ho1, Ho2.
  - intros Hnz. specialize (Hok Hnz).
    destruct ok, (is_complete info); try done.
    + symmetry. by apply Hc, Hok.
    + by apply Hok, Hc.
Qed.


(** X7: a reduction by a non-negative amount, on a state with the invariant,
    takes the smaller of the amount and of what the pending lots of the
    asset hold, and when it returns [False] no lot of the asset stays
    pending. *)
Theorem reduce_asset_amount_conserves asset amount time s :
  lots_invariant s → 0 <= amount →
  ∃ ok s',
    reduce_asset_amount asset amount time s = Some (ok, s')
    ∧ balance s' asset
      = balance s asset
        - (if decide (amount <= balance s asset) then amount else balance s asset)
    ∧ (∀ a, events_key a ≠ events_key asset → balance s' a = balance s a)
    ∧ (ok = false → pending s' asset = []).
Proof.
  intros Hinv Hnn.
  pose proof (lots_invariant_nonneg s asset Hinv) as Hlots.
  rewrite <- lots_view_snd in Hlots.
  destruct (reduce_asset_amount_view asset amount time s Hinv)
    as (ok & s' & Heq & Hv & Ho & Hok).
  exists ok, s'. split_and!; [done| | |].
  - by rewrite (balance_view s'), Hv, fifo_sum, <- balance_view.
  - intros a Hne. by rewrite !balance_view, Ho.
  - intros ->. destruct (decide (amount = 0)) as [->|Hnz].
    { by rewrite reduce_asset_amount_zero_eq in Heq. }
    rewrite <- lots_view_fst, Hv.
    assert (fifo amount (lots_view s asset) = []) as ->; [|done].
    apply fifo_nil_iff; [done|].
    destruct (decide (pending s asset = [])) as [Hp|Hp].
    { left. unfold lots_view. by rewrite Hp. }
    right. rewrite <- balance_view.
    destruct (decide (amount <= balance s asset)) as [Hle|Hgt].
    + by pose proof (proj2 (Hok Hnz) (conj Hp Hle)).
    + clear -Hgt. Qc_lra.
Qed.

Lemma lots_view_lookup s1 s2 asset r :
  lots_view s1 asset = lots_view s2 asset → r ∈ pending s1 asset →
  remaining_amount (lot s1 r) = remaining_amount (lot s2 r).
Proof.
  intros Hv Hr.
  assert ((r, remaining_amount (lot s1 r)) ∈ lots_view s1 asset) as Hin.
  { unfold lots_view. apply list_elem_of_fmap. by exists r. }
  rewrite Hv in Hin. unfold lots_view in Hin.
  apply list_elem_of_fmap in Hin as (r' & Heq & _). by injection Heq as <- ->.
Qed.

Lemma heap_eq s1 s2 :
  length (heap s1) = length (heap s2) → (∀ r, lot s1 r = lot s2 r) → heap s1 = heap s2.
Proof.
  intros Hlen Hlot. apply list_eq. intros i.
  destruct (decide (i < length (heap s1))%nat) as [Hi|Hi].
  - rewrite !list_lookup_lookup_total_lt by lia. f_equal. apply Hlot.
  - rewrite !lookup_ge_None_2 by lia. done.
Qed.

Lemma lots_view_length s asset : length (lots_view s asset) = length (pending s asset).
Proof. unfold lots_view. apply length_fmap. Qed.

Lemma lots_view_suffix a s s' asset :
  lots_view s' asset = fifo a (lots_view s asset) →
  (length (pending s' asset) ≤ length (pending s asset))%nat
  ∧ pending s' asset
    = drop (length (pending s asset) - length (pending s' asset)) (pending s asset).
Proof.
  intros Hv. destruct (fifo_fst a (lots_view s asset)) as [Hle Hd].
  rewrite <- Hv in Hle, Hd. rewrite !lots_view_length in Hle, Hd.
  by rewrite !lots_view_fst in Hd.
Qed.

(** X8: spends add up: a spend of [a] followed by a spend of a non-negative
    [b] of the same asset leaves every ledger and every lot as one spend
    of [a + b] does. *)
Theorem calculate_spend_cost_basis_additive a b spending_asset time1 time2 time s :
  lots_invariant s → 0 <= b →
  ∃ info1 s1 info2 s2 info s12,
    calculate_spend_cost_basis a spending_asset time1 s = Some (info1, s1)
    ∧ calculate_spend_cost_basis b spending_asset time2 s1 = Some (info2, s2)
    ∧ calculate_spend_cost_basis (a + b) spending_asset time s = Some (info, s12)
    ∧ (∀ asset, ledger s2 asset = ledger s12 asset)
    ∧ heap s2 = heap s12.
Proof.
  intros Hinv Hb.
  destruct (calculate_spend_cost_basis_view a spending_asset time1 s Hinv)
    as (info1 & s1 & Heq1 & Hv1 & Ho1 & Hu1 & _).
  destruct (calculate_spend_cost_basis_invariant a spending_asset time1 s Hinv)
    as (? & ? & Heq & Hinv1).
  rewrite Heq1 in Heq. injection Heq as <- <-.
  destruct (calculate_spend_cost_basis_untouched a spending_asset time1 s)
    as (? & ? & Heq & Hl1 & Hs1 & _ & _ & Hlen1 & He1 & Hr1).
  rewrite Heq1 in Heq. injection Heq as <- <-.
  destruct (calculate_spend_cost_basis_view b spending_asset time2 s1 Hinv1)
    as (info2 & s2 & Heq2 & Hv2 & Ho2 & Hu2 & _).
  destruct (calculate_spend_cost_basis_untouched b spending_asset time2 s1)
    as (? & ? & Heq & Hl2 & Hs2 & _ & _ & Hlen2 & He2 & Hr2).
  rewrite Heq2 in Heq. injection Heq as <- <-.
  destruct (calculate_spend_cost_basis_view (a + b) spending_asset time s Hinv)
    as (info & s12 & Heq12 & Hv12 & Ho12 & Hu12 & _).
  destruct (calculate_spend_cost_basis_untouched (a + b) spending_asset time s)
    as (? & ? & Heq & Hl12 & Hs12 & _ & _ & Hlen12 & He12 & Hr12).
  rewrite Heq12 in Heq. injection Heq as <- <-.
  exists info1, s1, info2, s2, info, s12. split_and!; [done..| |].
  - assert (lots_view s2 spending_asset = lots_view s12 spending_asset) as Hv.
    { by rewrite Hv2, Hv1, fifo_add, Hv12. }
    destruct (lots_view_eq _ _ _ Hv) as [Hp _].
    destruct (lots_view_suffix _ _ _ _ Hv1) as [Hle1 Hd1].
    destruct (lots_view_suffix _ _ _ _ Hv2) as [Hle2 _].
    assert (ledger s2 spending_asset = ledger s12 spending_asset) as Hself.
    { assert (used_acquisitions (ledger s2 spending_asset)
              = used_acquisitions (ledger s12 spending_asset)) as Hused.
      { rewrite Hu2, Hu1, Hu12, <- app_assoc. f_equal.
        rewrite Hd1 at 3. rewrite take_take_drop. f_equal.
        rewrite <- Hp. lia. }
      assert (spends (ledger s2 spending_asset) = spends (ledger s12 spending_asset))
        as Hspends by (by rewrite Hs2, Hs1, Hs12).
      unfold pending in Hp.
      destruct (ledger s2 spending_asset), (ledger s12 spending_asset).
      simpl in *. congruence. }
    intros asset. destruct (decide (events_key asset = events_key spending_asset)) as [Hk|Hk].
    + by rewrite !(ledger_same_key _ asset spending_asset Hk).
    + by rewrite Hl2, Hl1, Hl12.
  - assert (lots_view s2 spending_asset = lots_view s12 spending_asset) as Hv.
    { by rewrite Hv2, Hv1, fifo_add, Hv12. }
    destruct (lots_view_eq _ _ _ Hv) as [Hp _].
    destruct (lots_view_suffix _ _ _ _ Hv1) as [_ Hd1].
    assert (∀ r, r ∈ pending s1 spending_asset → r ∈ pending s spending_asset) as Hsub.
    { intros r Hr. rewrite Hd1 in Hr. by eapply subseteq_drop. }
    apply heap_eq; [by rewrite Hlen2, Hlen1, Hlen12|]. intros r.
    assert (event (lot s2 r) = event (lot s12 r)) as Hev by (by rewrite He2, He1, He12).
    assert (remaining_amount (lot s2 r) = remaining_amount (lot s12 r)) as Hrem.
    { destruct (decide (r ∈ pending s spending_asset)) as [Hin|Hout].
      - destruct (decide (r ∈ pending s2 spending_asset)) as [Hin2|Hout2].
        + by apply (lots_view_lookup s2 s12 spending_asset).
        + rewrite (calculate_spend_cost_basis_used_up _ _ _ _ _ _ Hinv Heq12 r Hin)
            by (by rewrite <- Hp).
          destruct (decide (r ∈ pending s1 spending_asset)) as [Hin1|Hout1].
          * by apply (calculate_spend_cost_basis_used_up _ _ _ _ _ _ Hinv1 Heq2 r).
          * rewrite Hr2 by done.
            by apply (calculate_spend_cost_basis_used_up _ _ _ _ _ _ Hinv Heq1 r).
      - rewrite Hr2, Hr1, Hr12; [done..|]. intros Hin1. by apply Hout, Hsub. }
    destruct (lot s2 r), (lot s12 r). simpl in *. congruence.
Qed.

End composition.

(** ** Ledgers *)

Section ledgers.
Context {env : RotkiEnv}.

Lemma get_calculated_asset_amount_eq asset s :
  get_calculated_asset_amount asset s
  = (match pending s asset with [] => None | _ :: _ => Some (balance s asset) end,
     touch (events_key asset) s).
Proof.
  unfold get_calculated_asset_amount, balance, pending. rewrite get_events_eq.
  destruct (acquisitions (ledger s asset)) as [|r acqs] eqn:E; simpl; [done|].
  do 2 f_equal.
  rewrite (fold_left_Qc_sum (λ r, remaining_amount (lot (touch (events_key asset) s) r))).
  fold (amounts_of (touch (events_key asset) s) acqs).
  rewrite amounts_of_touch, touch_lot.
  change (amounts_of s (r :: acqs)) with (remaining_amount (lot s r) :: amounts_of s acqs).
  list_cbn. ring.
Qed.

Lemma lot_obtain_asset_old event s r :
  (r < length (heap s))%nat → lot (obtain_asset event s) r = lot s r.
Proof. intros Hr. unfold lot. rewrite obtain_asset_heap. by apply lookup_total_app_l. Qed.

Lemma lot_obtain_asset_new event s :
  lot (obtain_asset event s) (length (heap s)) = AssetAcquisitionEvent_new event.
Proof.
  unfold lot. rewrite obtain_asset_heap, lookup_total_app_r by done.
  by rewrite Nat.sub_diag.
Qed.

Lemma amounts_of_obtain_asset event s acqs :
  (∀ r, r ∈ acqs → (r < length (heap s))%nat) →
  amounts_of (obtain_asset event s) acqs = amounts_of s acqs.
Proof.
  intros Hlive. apply amounts_of_ext. intros r Hr. by apply lot_obtain_asset_old, Hlive.
Qed.

(** X9: an acquisition is counted at once: after [obtain_asset] the calculated
    amount of the asset of the event, and of the assets that share its
    ledger, is what was pending plus the acquired amount, and never [None];
    the calculated amounts of the other assets stay as they are. *)
Theorem obtain_asset_calculated_amount event s asset :
  lots_live s →
  (get_calculated_asset_amount asset (obtain_asset event s)).1
  = if decide (events_key asset = events_key (ev_asset event))
    then Some (balance s asset + ev_taxable_amount event)
    else (get_calculated_asset_amount asset s).1.
Proof.
  intros Hlive. rewrite !get_calculated_asset_amount_eq. cbn [fst].
  unfold balance, pending. rewrite obtain_asset_ledger.
  case_decide as Hk.
  - cbn [acquisitions]. fold (pending s asset).
    destruct (pending s asset ++ [length (heap s)]) eqn:E.
    { by destruct (pending s asset). }
    rewrite <- E. f_equal.
    rewrite amounts_of_app, Qc_sum_app, amounts_of_obtain_asset by (apply Hlive).
    unfold amounts_of at 2. cbn [fmap list_fmap]. rewrite lot_obtain_asset_new.
    cbn [remaining_amount AssetAcquisitionEvent_new]. list_cbn. ring.
  - fold (pending s asset). destruct (pending s asset) eqn:E; [done|].
    rewrite <- E. f_equal. rewrite amounts_of_obtain_asset; [done|].
    apply Hlive.
Qed.


Lemma same_books_lot s s' r : same_books s s' → lot s r = lot s' r.
Proof. intros (_ & _ & Hh). unfold lot. by rewrite Hh. Qed.

Lemma same_books_at_taxfree_period s s' time l :
  same_books s s' → at_taxfree_period s time l = at_taxfree_period s' time l.
Proof. intros (Hs & _). unfold at_taxfree_period. by rewrite Hs. Qed.

Lemma same_books_ledger s s' asset : same_books s s' → ledger s asset = ledger s' asset.
Proof. intros (_ & He & _). by apply ledger_events_eq. Qed.

Lemma same_books_touch key s s' : same_books s s' → same_books (touch key s) (touch key s').
Proof.
  intros (Hs & He & Hh). unfold touch. rewrite He.
  destruct (_events s' !! key); repeat split; simpl; congruence.
Qed.

(** The asset that the loop is given only goes to the log. *)
Lemma spend_loop_books asset1 asset2 time len idx acqs st s s' :
  same_books s s' →
  (spend_loop asset1 time len idx acqs st s).1 = (spend_loop asset2 time len idx acqs st s').1
  ∧ same_books (spend_loop asset1 time len idx acqs st s).2
      (spend_loop asset2 time len idx acqs st s').2.
Proof.
  revert idx st s s'. induction acqs as [|r acqs IH]; intros idx st s s' Hb; [done|].
  rewrite !spend_loop_cons. rewrite <- (same_books_lot s s' r Hb).
  pose proof Hb as (Hs & He & Hh).
  case_decide.
  - unfold spend_part. cbn [fst snd].
    rewrite <- (same_books_lot s s' r Hb), <- (same_books_at_taxfree_period s s' _ _ Hb).
    split; [done|]. by repeat split.
  - assert ((spend_entire asset1 len idx r st s time).1
            = (spend_entire asset2 len idx r st s' time).1) as Hst.
    { unfold spend_entire. cbn [fst].
      by rewrite <- (same_books_lot s s' r Hb), <- (same_books_at_taxfree_period s s' _ _ Hb). }
    rewrite Hst. apply IH.
    unfold spend_entire, set_remaining_amount, lot. cbn [snd]. simpl.
    repeat split; simpl; congruence.
Qed.

Ltac books :=
  unfold set_remaining_amount; unfold lot;
  cbn [_events heap set_heap store_events set_events
       inform_user_missing_acquisition add_error log_emit];
  repeat match goal with H : _events _ = _events _ |- _ => rewrite H end;
  repeat match goal with H : heap _ = heap _ |- _ => rewrite H end;
  done.

(** X10: WETH is accounted as ETH: its calculated amount is that of ETH, and a
    spend or a reduction of WETH gives the result of, and leaves the
    ledgers and the lots as, the same spend or reduction of ETH. *)
Theorem weth_shares_eth_ledger amount time s :
  get_calculated_asset_amount A_WETH s = get_calculated_asset_amount A_ETH s
  ∧ (∃ info s1 s2,
       calculate_spend_cost_basis amount A_WETH time s = Some (info, s1)
       ∧ calculate_spend_cost_basis amount A_ETH time s = Some (info, s2)
       ∧ _events s1 = _events s2 ∧ heap s1 = heap s2)
  ∧ (∃ ok s1 s2,
       reduce_asset_amount A_WETH amount time s = Some (ok, s1)
       ∧ reduce_asset_amount A_ETH amount time s = Some (ok, s2)
       ∧ _events s1 = _events s2 ∧ heap s1 = heap s2).
Proof.
  assert (A_ETH ≠ A_WETH) as Hne.
  { pose proof assets_distinct as Hd. apply list.NoDup_cons in Hd as [Hd _].
    intros Heq. apply Hd. rewrite Heq. left. }
  assert (events_key A_WETH = events_key A_ETH) as Hk.
  { unfold events_key. rewrite decide_True by done. by rewrite decide_False. }
  assert (get_events A_WETH s = get_events A_ETH s) as Hg.
  { unfold get_events. by rewrite Hk. }
  split_and!.
  - unfold get_calculated_asset_amount. by rewrite Hg.
  - destruct (calculate_spend_cost_basis_total amount A_ETH time s)
      as (info & s2 & Heq & _).
    exists info. revert Heq.
    rewrite !calculate_spend_cost_basis_eq. cbv zeta.
    rewrite (ledger_same_key s A_WETH A_ETH Hk), Hk.
    destruct (spend_loop_books A_WETH A_ETH time
                (Z.of_nat (length (pending s A_ETH))) 0 (pending s A_ETH)
                (spend_init amount) (touch (events_key A_ETH) s)
                (touch (events_key A_ETH) s)) as [Hst Hb]; [done|].
    unfold spend_scan. rewrite (pending_same_key s A_WETH A_ETH Hk), Hk, Hst.
    destruct Hb as (_ & He & Hh).
    repeat case_decide.
    + intros [= <- <-]. eexists _, _.
      split_and!; [done|done|books..].
    + destruct (acquisitions (ledger_after _ _) !! 0%nat) as [r0|]; [|done].
      cbn [mbind option_bind]. intros [= <- <-]. eexists _, _.
      split_and!; [done|done|books..].
    + intros [= <- <-]. eexists _, _.
      split_and!; [done|done|books..].
    + intros [= <- <-]. eexists _, _.
      split_and!; [done|done|books..].
  - destruct (reduce_asset_amount_effect A_ETH amount time s) as (ok & s2 & Heq & _).
    exists ok. revert Heq. unfold reduce_asset_amount. rewrite Hg.
    case_decide; [intros [= <- <-]; by eexists _, _|].
    destruct (get_events A_ETH s) as [[key asset_events] s0].
    case_decide; [intros [= <- <-]; by eexists _, _|].
    destruct (reduce_loop _ _ _ _ _ _ _) as [[[stop|] last] remaining]; [|done].
    cbn [mbind option_bind]. case_decide.
    + destruct (_ !! 0%nat); [|done]. cbn [mbind option_bind].
      intros [= <- <-]. by eexists _, _.
    + case_decide; intros [= <- <-]; by eexists _, _.
Qed.


(** [reduce_asset_amount] only shortens the pending list of the asset. *)
Lemma reduce_asset_amount_quiet asset amount time s :
  ∃ ok s' k,
    reduce_asset_amount asset amount time s = Some (ok, s')
    ∧ pending s' asset = drop k (pending s asset)
    ∧ msg_aggregator s' = msg_aggregator s
    ∧ settings s' = settings s
    ∧ (∀ r, event (lot s' r) = event (lot s r)).
Proof.
  destruct (decide (amount = 0)) as [->|Hnz].
  { exists true, s, 0%nat. by rewrite reduce_asset_amount_zero_eq. }
  assert (∀ acqs,
    pending (store_events (events_key asset)
               {| used_acquisitions := used_acquisitions (ledger s asset);
                  acquisitions := acqs; spends := spends (ledger s asset) |}
               (touch (events_key asset) s)) asset = acqs) as Hpending.
  { intros acqs. unfold pending. by rewrite ledger_touch_store, decide_True. }
  destruct (reduce_asset_amount_cases asset amount time s Hnz)
    as [[Hp Heq]|[(pre & r & post & Hp & Hc & Hlt & Heq)|(Hp & Hc & Heq)]];
    cbv zeta in Heq.
  - eexists _, _, 0%nat. split; [exact Heq|]. split_and!.
    + unfold pending. by rewrite touch_ledger.
    + apply touch_msg_aggregator.
    + apply touch_settings.
    + intros r0. by rewrite touch_lot.
  - eexists _, _, (length pre). split; [exact Heq|]. split_and!.
    + rewrite pending_set_remaining_amount, Hpending, Hp. by rewrite drop_app_length.
    + cbn [msg_aggregator set_remaining_amount set_heap store_events set_events].
      apply touch_msg_aggregator.
    + cbn [settings set_remaining_amount set_heap store_events set_events].
      apply touch_settings.
    + intros r0. by rewrite event_lot_set_remaining_amount, lot_touch_store.
  - case_decide; eexists _, _, (length (pending s asset)); (split; [exact Heq|]); split_and!.
    + by rewrite Hpending, drop_all.
    + cbn [msg_aggregator store_events set_events]. apply touch_msg_aggregator.
    + cbn [settings store_events set_events]. apply touch_settings.
    + intros r0. by rewrite lot_touch_store.
    + by rewrite pending_log_emit, Hpending, drop_all.
    + cbn [msg_aggregator log_emit store_events set_events]. apply touch_msg_aggregator.
    + cbn [settings log_emit store_events set_events]. apply touch_settings.
    + intros r0. by rewrite lot_log_emit, lot_touch_store.
Qed.

(** X11: [reduce_asset_amount] never raises, and all it does to the books is to
    drop a prefix of the pending lots of the asset and to write the
    remaining amount of a pending lot: the dropped lots are not added to
    the used ones, no spend is recorded, no message is sent to the user, and
    the other ledgers, the settings and the events of the lots stay as they
    are. *)
Theorem reduce_asset_amount_leaves asset amount time s :
  ∃ ok s' k,
    reduce_asset_amount asset amount time s = Some (ok, s')
    ∧ pending s' asset = drop k (pending s asset)
    ∧ (∀ a, used_acquisitions (ledger s' a) = used_acquisitions (ledger s a))
    ∧ (∀ a, spends (ledger s' a) = spends (ledger s a))
    ∧ (∀ a, events_key a ≠ events_key asset → ledger s' a = ledger s a)
    ∧ msg_aggregator s' = msg_aggregator s
    ∧ settings s' = settings s
    ∧ length (heap s') = length (heap s)
    ∧ (∀ r, event (lot s' r) = event (lot s r))
    ∧ (∀ r, r ∉ pending s asset → lot s' r = lot s r).
Proof.
  destruct (reduce_asset_amount_quiet asset amount time s)
    as (ok & s' & k & Heq & Hp & Hm & Hs & He).
  destruct (reduce_asset_amount_effect asset amount time s)
    as (? & ? & Heq' & Hsp & Hu & Ho & Hl & Hlen & _).
  rewrite Heq in Heq'. injection Heq' as <- <-.
  by exists ok, s', k.
Qed.

(** X12: [spend_asset] never raises and always records the spend, with its
    location, timestamp, amount and rate, in the ledger of the asset,
    whatever is pending for it, and in no other ledger; it returns a cost
    basis exactly for a taxable spend of an asset that is not fiat. *)
Theorem spend_asset_records location time asset amount rate taxable_spend s :
  ∃ result s',
    spend_asset location time asset amount rate taxable_spend s = Some (result, s')
    ∧ spends (ledger s' asset)
      = spends (ledger s asset)
        ++ [{| spend_timestamp := time; spend_location := location;
               spend_amount := amount; spend_rate := rate |}]
    ∧ (∀ a, events_key a ≠ events_key asset → spends (ledger s' a) = spends (ledger s a))
    ∧ (result = None ↔ is_fiat asset = true ∨ taxable_spend = false).
Proof.
  unfold spend_asset. rewrite get_events_eq.
  match goal with |- context [store_events ?k ?e ?s0] => set (s1 := store_events k e s0) end.
  assert (∀ a, spends (ledger s1 a)
               = if decide (events_key a = events_key asset)
                 then spends (ledger s asset)
                      ++ [{| spend_timestamp := time; spend_location := location;
                             spend_amount := amount; spend_rate := rate |}]
                 else spends (ledger s a)) as Hs1.
  { intros a. unfold s1. rewrite ledger_touch_store. by case_decide. }
  destruct (is_fiat asset), taxable_spend; cbn [negb andb].
  - destruct (reduce_asset_amount_effect asset amount time s1) as (ok & s' & -> & Hsp & _).
    eexists _, _. split; [done|]. split_and!.
    + by rewrite Hsp, Hs1, decide_True.
    + intros a Hne. by rewrite Hsp, Hs1, decide_False.
    + split; [by left|done].
  - destruct (reduce_asset_amount_effect asset amount time s1) as (ok & s' & -> & Hsp & _).
    eexists _, _. split; [done|]. split_and!.
    + by rewrite Hsp, Hs1, decide_True.
    + intros a Hne. by rewrite Hsp, Hs1, decide_False.
    + split; [by left|done].
  - destruct (calculate_spend_cost_basis_untouched amount asset time s1)
      as (info & s' & -> & _ & Hsp & _).
    eexists _, _. split; [done|]. split_and!.
    + by rewrite Hsp, Hs1, decide_True.
    + intros a Hne. by rewrite Hsp, Hs1, decide_False.
    + split; [done|]. by intros [?|?].
  - destruct (reduce_asset_amount_effect asset amount time s1) as (ok & s' & -> & Hsp & _).
    eexists _, _. split; [done|]. split_and!.
    + by rewrite Hsp, Hs1, decide_True.
    + intros a Hne. by rewrite Hsp, Hs1, decide_False.
    + split; [by right|done].
Qed.

End ledgers.

(** ** Forks *)

Section forks.
Context {env : RotkiEnv}.

Lemma balance_obtain_asset event s asset :
  lots_live s →
  balance (obtain_asset event s) asset
  = balance s asset
    + (if decide (events_key asset = events_key (ev_asset event))
       then ev_taxable_amount event else 0).
Proof.
  intros Hlive. unfold balance, pending. rewrite obtain_asset_ledger.
  case_decide as Hk.
  - cbn [acquisitions]. fold (pending s asset).
    rewrite amounts_of_app, Qc_sum_app, amounts_of_obtain_asset by (apply Hlive).
    unfold amounts_of at 2. cbn [fmap list_fmap]. rewrite lot_obtain_asset_new.
    cbn [remaining_amount AssetAcquisitionEvent_new]. list_cbn. ring.
  - fold (pending s asset). rewrite amounts_of_obtain_asset by (apply Hlive). ring.
Qed.

Lemma balance_nonneg s asset : lots_invariant s → 0 <= balance s asset.
Proof. intros Hinv. by apply Qc_sum_nonneg, lots_invariant_nonneg. Qed.

(** On a state with the invariant the calculated amount is the balance,
    and [None] stands for a balance of zero. *)
Lemma get_calculated_asset_amount_balance asset s :
  lots_invariant s →
  (get_calculated_asset_amount asset s).1
  = if decide (balance s asset = 0) then None else Some (balance s asset).
Proof.
  intros Hinv. rewrite get_calculated_asset_amount_eq. cbn [fst].
  pose proof (lots_invariant_positive s asset Hinv) as Hpos.
  pose proof (lots_invariant_nonneg s asset Hinv) as Hnn.
  rewrite lots_view_snd in Hpos. unfold balance.
  destruct (pending s asset) as [|r acqs]; [done|].
  rewrite amounts_of_cons in *.
  inversion Hpos as [|? ? Hr _]; subst. inversion Hnn as [|? ? _ Hrest]; subst.
  pose proof (Qc_sum_nonneg _ Hrest) as Hs. list_cbn.
  rewrite decide_False; [done|]. clear -Hr Hs. Qc_lra.
Qed.

(** A reduction that the pending lots can satisfy takes the amount from
    the balance of the asset and keeps the invariant. *)
Lemma reduce_asset_amount_balance asset amount time s :
  lots_invariant s → 0 <= amount → amount <= balance s asset →
  ∃ ok s',
    reduce_asset_amount asset amount time s = Some (ok, s')
    ∧ lots_invariant s'
    ∧ ∀ a, balance s' a
           = balance s a - (if decide (events_key a = events_key asset) then amount else 0).
Proof.
  intros Hinv Hnn Hle.
  destruct (reduce_asset_amount_view asset amount time s Hinv)
    as (ok & s' & Heq & Hv & Ho & _).
  destruct (reduce_asset_amount_invariant asset amount time s Hinv)
    as (? & ? & Heq' & Hinv').
  rewrite Heq in Heq'. injection Heq' as <- <-.
  exists ok, s'. split_and!; [done..|]. intros a. case_decide as Hk.
  - rewrite !balance_view, !(lots_view_same_key _ a asset Hk), Hv, fifo_sum, <- balance_view;
      [|done|rewrite lots_view_snd; by apply lots_invariant_nonneg].
    by rewrite decide_True.
  - rewrite !balance_view, Ho by done. ring.
Qed.


Lemma fork_assets_distinct :
  A_ETH ≠ A_BTC ∧ A_ETH ≠ A_BCH ∧ A_BTC ≠ A_BCH ∧ A_ETH ≠ A_WETH ∧ A_BTC ≠ A_WETH
  ∧ A_BCH ≠ A_WETH ∧ A_BSV ≠ A_WETH ∧ A_ETC ≠ A_WETH ∧ A_BCH ≠ A_BSV.
Proof.
  pose proof assets_distinct as Hd.
  repeat (apply list.NoDup_cons in Hd as [?%not_elem_of_cons Hd]).
  repeat match goal with
         | H : _ ∧ _ |- _ => destruct H as [? H]
         | H : _ ∉ _ :: _ |- _ => apply not_elem_of_cons in H
         end.
  split_and!; congruence.
Qed.

(** The branch that the prefork handlers take. *)
Lemma prefork_acquisitions_cases asset time :
  (asset = A_ETH ∧ (time < ETH_DAO_FORK_TS)%Z
   ∧ prefork_acquisitions asset time = [(A_ETC, "Prefork acquisition for ETC"%string)])
  ∨ (asset = A_BTC ∧ (time < BTC_BCH_FORK_TS)%Z
     ∧ prefork_acquisitions asset time
       = [(A_BCH, "Prefork acquisition for BCH"%string);
          (A_BSV, "Prefork acquisition for BSV"%string)])
  ∨ (asset = A_BCH ∧ (time < BCH_BSV_FORK_TS)%Z
     ∧ prefork_acquisitions asset time = [(A_BSV, "Prefork acquisition for BSV"%string)])
  ∨ (¬ (asset = A_ETH ∧ (time < ETH_DAO_FORK_TS)%Z)
     ∧ ¬ (asset = A_BTC ∧ (time < BTC_BCH_FORK_TS)%Z)
     ∧ ¬ (asset = A_BCH ∧ (time < BCH_BSV_FORK_TS)%Z)
     ∧ prefork_acquisitions asset time = []).
Proof.
  unfold prefork_acquisitions.
  destruct (decide (asset = A_ETH ∧ (time < ETH_DAO_FORK_TS)%Z)) as [[-> ?]|?]; [by left|].
  destruct (decide (asset = A_BTC ∧ (time < BTC_BCH_FORK_TS)%Z)) as [[-> ?]|?];
    [by right; left|].
  destruct (decide (asset = A_BCH ∧ (time < BCH_BSV_FORK_TS)%Z)) as [[-> ?]|?];
    [by right; right; left|].
  by right; right; right.
Qed.

(** The spends of the prefork handler reduce the assets that its
    acquisitions add to, in the same order. *)
Lemma handle_prefork_asset_spends_eq asset amount time s :
  handle_prefork_asset_spends asset amount time s
  = foldl (λ state descendant,
             state ≫= λ s, snd <$> reduce_asset_amount descendant.1 amount time s)
      (Some s) (prefork_acquisitions asset time).
Proof.
  pose proof fork_assets_distinct as (H1 & H2 & H3 & _).
  unfold handle_prefork_asset_spends.
  destruct (prefork_acquisitions_cases asset time)
    as [(-> & Ht & ->)|[(-> & Ht & ->)|[(-> & Ht & ->)|(Ha & Hb & Hc & ->)]]].
  - rewrite decide_True by done. cbn [foldl mbind option_bind fst].
    destruct (snd <$> reduce_asset_amount A_ETC amount time s) as [s1|]; [|done].
    cbn [mbind option_bind].
    rewrite decide_False by (by intros [? _]). cbn [mbind option_bind].
    by rewrite decide_False by (by intros [? _]).
  - rewrite decide_False by (intros [? _]; congruence). cbn [mbind option_bind].
    rewrite decide_True by done. cbn [foldl mbind option_bind fst].
    destruct (snd <$> reduce_asset_amount A_BCH amount time s) as [s1|]; [|done].
    cbn [mbind option_bind].
    destruct (snd <$> reduce_asset_amount A_BSV amount time s1) as [s2|]; [|done].
    cbn [mbind option_bind].
    by rewrite decide_False by (intros [? _]; congruence).
  - rewrite decide_False by (intros [? _]; congruence). cbn [mbind option_bind].
    rewrite decide_False by (intros [? _]; congruence). cbn [mbind option_bind].
    by rewrite decide_True by done.
  - rewrite decide_False by done. cbn [mbind option_bind].
    rewrite decide_False by done. cbn [mbind option_bind].
    by rewrite decide_False by done.
Qed.

Lemma handle_prefork_asset_acquisitions_eq location time asset amount price s :
  handle_prefork_asset_acquisitions location time asset amount price s
  = (prefork_event location time amount price <$> prefork_acquisitions asset time,
     foldl (λ s acquisition,
              obtain_asset (prefork_event location time amount price acquisition) s)
       s (prefork_acquisitions asset time)).
Proof.
  unfold handle_prefork_asset_acquisitions.
  assert (∀ l events s0,
    fold_left
      (λ '(events, s) acquisition,
         let event := prefork_event location time amount price acquisition in
         (events ++ [event], obtain_asset event s)) l (events, s0)
    = (events ++ (prefork_event location time amount price <$> l),
       foldl (λ s acquisition,
                obtain_asset (prefork_event location time amount price acquisition) s)
         s0 l)) as Hfold.
  { induction l as [|acquisition l IH]; intros events s0.
    - simpl. by rewrite app_nil_r.
    - simpl. rewrite IH. by rewrite <- app_assoc. }
  by rewrite Hfold.
Qed.


Lemma prefork_acquisitions_NoDup asset time :
  NoDup ((λ d : Asset * string, events_key d.1) <$> prefork_acquisitions asset time).
Proof.
  pose proof fork_assets_distinct as (_ & _ & _ & _ & _ & H1 & H2 & _ & H3).
  destruct (prefork_acquisitions_cases asset time)
    as [(_ & _ & ->)|[(_ & _ & ->)|[(_ & _ & ->)|(_ & _ & _ & ->)]]];
    cbn [fmap list_fmap fst]; rewrite ?(events_key_other A_BCH), ?(events_key_other A_BSV) by done;
    repeat (apply list.NoDup_cons; split;
            [by rewrite ?not_elem_of_cons; split_and?; try apply not_elem_of_nil|]);
    apply NoDup_nil_2.
Qed.


Lemma fork_share_nonneg amount l asset : 0 <= amount → 0 <= fork_share amount l asset.
Proof.
  intros Hnn. apply Qc_sum_nonneg, Forall_fmap, list.Forall_forall.
  intros d _. simpl. by case_decide.
Qed.

Lemma fork_share_elem amount l d :
  0 <= amount → d ∈ l → amount <= fork_share amount l d.1.
Proof.
  intros Hnn Hd. induction l as [|d' l IH]; [by apply elem_of_nil in Hd|].
  unfold fork_share in *. rewrite fmap_cons. list_cbn.
  apply elem_of_cons in Hd as [->|Hd].
  - rewrite decide_True by done.
    pose proof (fork_share_nonneg amount l d'.1 Hnn) as Hs. unfold fork_share in Hs.
    clear -Hs. Qc_lra.
  - specialize (IH Hd). case_decide; clear -IH Hnn; Qc_lra.
Qed.

Lemma prefork_obtain_all location time amount price l s :
  lots_invariant s → 0 < amount →
  let s1 := foldl (λ s acquisition,
                     obtain_asset (prefork_event location time amount price acquisition) s)
              s l in
  lots_invariant s1 ∧ ∀ a, balance s1 a = balance s a + fork_share amount l a.
Proof.
  intros Hinv Hpos. revert s Hinv. induction l as [|d l IH]; intros s Hinv; cbv zeta.
  { cbn [foldl]. split; [done|]. intros a. unfold fork_share. list_cbn. ring. }
  cbn [foldl].
  destruct (IH (obtain_asset (prefork_event location time amount price d) s)) as [Hinv1 Hb].
  { by apply obtain_asset_invariant. }
  split; [done|]. intros a. rewrite Hb, balance_obtain_asset by apply Hinv.
  unfold fork_share. rewrite fmap_cons. list_cbn. cbn [prefork_event ev_asset ev_taxable_amount].
  ring.
Qed.

Lemma prefork_reduce_all amount time l s :
  NoDup ((λ d : Asset * string, events_key d.1) <$> l) →
  lots_invariant s → 0 <= amount →
  (∀ d, d ∈ l → amount <= balance s d.1) →
  ∃ s',
    foldl (λ state descendant,
             state ≫= λ s, snd <$> reduce_asset_amount descendant.1 amount time s)
      (Some s) l = Some s'
    ∧ lots_invariant s'
    ∧ ∀ a, balance s' a = balance s a - fork_share amount l a.
Proof.
  intros Hnd Hinv Hnn. revert s Hinv. induction l as [|d l IH]; intros s Hinv Hle.
  { exists s. split_and!; [done..|]. intros a. unfold fork_share. list_cbn. ring. }
  rewrite fmap_cons in Hnd. apply list.NoDup_cons in Hnd as [Hd Hnd].
  destruct (reduce_asset_amount_balance d.1 amount time s Hinv Hnn) as (ok & s1 & Heq & Hinv1 & Hb).
  { apply Hle. left. }
  cbn [foldl mbind option_bind]. rewrite Heq. cbn [fmap option_fmap option_map snd].
  destruct (IH Hnd s1 Hinv1) as (s' & Hfold & Hinv' & Hb').
  { intros d' Hd'. rewrite Hb, decide_False.
    - assert (balance s d'.1 - 0 = balance s d'.1) as -> by ring. apply Hle. by right.
    - intros Hk. apply Hd. apply list_elem_of_fmap. by exists d'. }
  exists s'. split_and!; [done..|]. intros a. rewrite Hb', Hb.
  unfold fork_share. rewrite fmap_cons. list_cbn. ring.
Qed.

(** X13: a prefork spend undoes a prefork acquisition: after the acquisitions
    for the descendants of an asset and the spends of the same amount at
    the same time, every asset has the calculated amount that it had. *)
Theorem handle_prefork_round_trip location time asset amount price s :
  lots_invariant s → 0 < amount →
  ∃ s',
    handle_prefork_asset_spends asset amount time
      (handle_prefork_asset_acquisitions location time asset amount price s).2 = Some s'
    ∧ ∀ a, (get_calculated_asset_amount a s').1 = (get_calculated_asset_amount a s).1.
Proof.
  intros Hinv Hpos.
  assert (0 <= amount) as Hnn by (clear -Hpos; Qc_lra).
  rewrite handle_prefork_asset_acquisitions_eq, handle_prefork_asset_spends_eq. cbn [snd].
  destruct (prefork_obtain_all location time amount price
              (prefork_acquisitions asset time) s Hinv Hpos) as [Hinv1 Hb1].
  destruct (prefork_reduce_all amount time (prefork_acquisitions asset time) _
              (prefork_acquisitions_NoDup asset time) Hinv1 Hnn) as (s' & Heq & Hinv' & Hb').
  { intros d Hd. rewrite Hb1.
    pose proof (fork_share_elem amount _ d Hnn Hd) as Hs.
    pose proof (balance_nonneg s d.1 Hinv) as Hz. clear -Hs Hz. Qc_lra. }
  exists s'. split; [done|]. intros a.
  rewrite !get_calculated_asset_amount_balance by done.
  assert (balance s' a = balance s a) as -> by (rewrite Hb', Hb1; ring).
  done.
Qed.


Lemma heap_obtain_all location time amount price l s :
  heap (foldl (λ s acquisition,
                 obtain_asset (prefork_event location time amount price acquisition) s) s l)
  = heap s ++ (AssetAcquisitionEvent_new <$> (prefork_event location time amount price <$> l)).
Proof.
  revert s. induction l as [|d l IH]; intros s.
  - simpl. by rewrite app_nil_r.
  - cbn [foldl]. rewrite IH, obtain_asset_heap, !fmap_cons, <- app_assoc. done.
Qed.

(** X14: the descendants of the forks: before the DAO fork ETH gives ETC, before
    the BCH fork BTC gives BCH and BSV, before the BSV fork BCH gives BSV,
    and at or after the fork, or for another asset, nothing is given.  The
    returned events carry the location, time, amount and price of the
    acquisition, each for a descendant, never for the asset itself; each
    one becomes a new lot; and the prefork spends reduce exactly the assets
    of these events, in their order. *)
Theorem handle_prefork_asset_acquisitions_descendants location time asset amount price s :
  let acquired := handle_prefork_asset_acquisitions location time asset amount price s in
  ev_asset <$> acquired.1
  = (if decide (asset = A_ETH) then
       if decide (time < ETH_DAO_FORK_TS)%Z then [A_ETC] else []
     else if decide (asset = A_BTC) then
       if decide (time < BTC_BCH_FORK_TS)%Z then [A_BCH; A_BSV] else []
     else if decide (asset = A_BCH) then
       if decide (time < BCH_BSV_FORK_TS)%Z then [A_BSV] else []
     else [])
  ∧ Forall (λ e, ev_type e = PREFORK_ACQUISITION ∧ ev_location e = location
                 ∧ ev_timestamp e = time ∧ ev_taxable_amount e = amount
                 ∧ ev_free_amount e = ZERO ∧ ev_price e = price
                 ∧ ev_cost_basis e = None ∧ ev_asset e ≠ asset) acquired.1
  ∧ heap acquired.2 = heap s ++ (AssetAcquisitionEvent_new <$> acquired.1)
  ∧ handle_prefork_asset_spends asset amount time s
    = foldl (λ state descendant,
               state ≫= λ s, snd <$> reduce_asset_amount descendant amount time s)
        (Some s) (ev_asset <$> acquired.1).
Proof.
  cbv zeta. rewrite handle_prefork_asset_acquisitions_eq, handle_prefork_asset_spends_eq.
  cbn [fst snd]. rewrite heap_obtain_all.
  pose proof fork_assets_distinct as (H1 & H2 & H3 & _ & _ & _ & _ & _ & H4).
  pose proof assets_distinct_facts as (H5 & _).
  assert (A_ETC ≠ A_ETH ∧ A_BSV ≠ A_BTC) as [H6 H7].
  { pose proof assets_distinct as Hd.
    repeat (apply list.NoDup_cons in Hd as [?%not_elem_of_cons Hd]).
    repeat match goal with
           | H : _ ∧ _ |- _ => destruct H as [? H]
           | H : _ ∉ _ :: _ |- _ => apply not_elem_of_cons in H
           end.
    split; congruence. }
  destruct (prefork_acquisitions_cases asset time)
    as [(-> & Ht & ->)|[(-> & Ht & ->)|[(-> & Ht & ->)|(Ha & Hb & Hc & ->)]]];
    cbn [fmap list_fmap prefork_event ev_asset fst snd foldl].
  - rewrite !decide_True by done. split_and!; [done| |done..].
    repeat constructor; done.
  - rewrite decide_False, !decide_True by done. split_and!; [done| |done..].
    repeat constructor; done.
  - rewrite !(decide_False (P := A_BCH = _)), !decide_True by done.
    split_and!; [done| |done..]. repeat constructor; done.
  - split_and!; [|done..].
    repeat case_decide; try done; subst; tauto.
Qed.

(** X15: the calculator keeps the invariant of the lots: a new calculator has
    it, and from a state that has it every operation returns, without
    raising, a state that has it, provided that the acquired amounts are
    positive. *)
Theorem calculator_keeps_lots_invariant s :
  lots_invariant s →
  (∀ settings, lots_invariant (CostBasisCalculator_new settings))
  ∧ (∀ settings, lots_invariant (reset settings s))
  ∧ (∀ event, 0 < ev_taxable_amount event → lots_invariant (obtain_asset event s))
  ∧ (∀ location time asset amount rate taxable_spend,
       ∃ result s',
         spend_asset location time asset amount rate taxable_spend s = Some (result, s')
         ∧ lots_invariant s')
  ∧ (∀ spending_amount spending_asset time,
       ∃ info s',
         calculate_spend_cost_basis spending_amount spending_asset time s = Some (info, s')
         ∧ lots_invariant s')
  ∧ (∀ asset amount time,
       ∃ ok s', reduce_asset_amount asset amount time s = Some (ok, s') ∧ lots_invariant s')
  ∧ (∀ asset, lots_invariant (get_calculated_asset_amount asset s).2)
  ∧ (∀ location time asset amount price,
       0 < amount →
       lots_invariant (handle_prefork_asset_acquisitions location time asset amount price s).2)
  ∧ (∀ asset amount time,
       ∃ s', handle_prefork_asset_spends asset amount time s = Some s' ∧ lots_invariant s').
Proof.
  intros Hinv. split_and!.
  - apply lots_invariant_new.
  - intros settings. apply reset_invariant.
  - intros event. by apply obtain_asset_invariant.
  - intros. by apply spend_asset_invariant.
  - intros. by apply calculate_spend_cost_basis_invariant.
  - intros. by apply reduce_asset_amount_invariant.
  - intros. by apply get_calculated_asset_amount_invariant.
  - intros. by apply handle_prefork_asset_acquisitions_invariant.
  - intros. by apply handle_prefork_asset_spends_invariant.
Qed.

End forks.

(** ** The holding period *)

Section holding.
Context {env : RotkiEnv}.

Lemma covers_left a vs : 0 <= a → covers a vs → 0 <= a - Qc_sum vs.
Proof.
  revert a. induction vs as [|v vs IH]; intros a Ha Hc; list_cbn.
  - clear -Ha. Qc_lra.
  - destruct Hc as [Hv Hc].
    assert (0 <= a - v) as Hav by (clear -Hv; Qc_lra).
    specialize (IH _ Hav Hc). clear -IH. Qc_lra.
Qed.

(** The matches of a spend do not depend on its time, and for a spend of
    a non-negative amount none of them is negative. *)
Lemma calculate_spend_cost_basis_matches spending_amount spending_asset s :
  lots_invariant s → 0 <= spending_amount →
  ∃ matches,
    Forall (λ m, 0 <= ma_amount m) matches
    ∧ ∀ time, ∃ info s',
        calculate_spend_cost_basis spending_amount spending_asset time s = Some (info, s')
        ∧ matched_acquisitions info = matches.
Proof.
  intros Hinv Hnn.
  pose proof (lots_invariant_NoDup s spending_asset Hinv) as Hnd.
  pose proof (lots_invariant_nonneg s spending_asset Hinv) as Hlots.
  assert (∀ acqs, Forall (λ v, 0 <= v) (amounts_of s acqs) →
            Forall (λ m, 0 <= ma_amount m) (matches_of s acqs)) as Hmatches.
  { induction acqs as [|r acqs IH]; intros H; [constructor|].
    rewrite amounts_of_cons in H. inversion H; subst.
    unfold matches_of. rewrite fmap_cons. constructor; [done|by apply IH]. }
  destruct (decide (pending s spending_asset = [])) as [Hempty|Hne].
  { exists []. split; [done|]. intros time.
    destruct (calculate_spend_cost_basis_empty spending_amount spending_asset time s Hempty)
      as (s' & Heq & _). by eexists _, s'. }
  destruct (covers_or_split_lots s spending_amount (pending s spending_asset))
    as [Hc|(pre & r & post & Hp & Hc & Hlt)].
  - exists (matches_of s (pending s spending_asset)). split; [by apply Hmatches|].
    intros time.
    destruct (calculate_spend_cost_basis_exhaust spending_amount spending_asset time s
                Hne Hnd Hc) as (info & s' & Heq & Hm & _).
    by exists info, s'.
  - rewrite Hp in Hnd, Hlots.
    apply list.NoDup_app in Hnd as (Hndpre & Hdisj & _).
    assert (r ∉ pre) as Hr.
    { intros Hin. apply (Hdisj r Hin). apply list_elem_of_here. }
    rewrite amounts_of_app in Hlots. apply Forall_app in Hlots as [Hpre _].
    exists (matches_of s pre
            ++ [{| ma_amount := spending_amount - Qc_sum (amounts_of s pre); ma_event := r |}]).
    split.
    + apply Forall_app. split; [by apply Hmatches|].
      repeat constructor. cbn [ma_amount]. by apply covers_left.
    + intros time.
      destruct (calculate_spend_cost_basis_partial spending_amount spending_asset time s
                  pre r post Hp Hndpre Hr Hc Hlt) as (info & s' & Heq & Hm & _).
      by exists info, s'.
Qed.

Lemma taxfree_matches_mono s time time' ms :
  (time ≤ time')%Z → Forall (λ m, 0 <= ma_amount m) ms →
  Qc_sum (ma_amount <$> taxfree_matches s time ms)
  <= Qc_sum (ma_amount <$> taxfree_matches s time' ms).
Proof.
  intros Hle. induction 1 as [|m ms Hm _ IH]; [done|].
  assert (eligible s time m = true → eligible s time' m = true) as Himp.
  { unfold eligible, at_taxfree_period.
    destruct (taxfree_after_period (settings s)) as [period|]; [|done].
    rewrite !bool_decide_eq_true. lia. }
  unfold taxfree_matches in *. rewrite !filter_cons.
  destruct (decide (eligible s time m = true)) as [He|He].
  - rewrite decide_True by (by apply Himp). rewrite !fmap_cons. list_cbn.
    clear -IH. Qc_lra.
  - destruct (decide (eligible s time' m = true)).
    + rewrite !fmap_cons. list_cbn. clear -IH Hm. Qc_lra.
    + done.
Qed.

(** X16: holding on never costs: of two spends of the same non-negative amount
    from the same state with the invariant, the later one matches the same
    lots and has no larger a taxable amount. *)
Theorem calculate_spend_cost_basis_later_less_taxable
    spending_amount spending_asset time time' s :
  lots_invariant s → 0 <= spending_amount → (time ≤ time')%Z →
  ∃ info s1 info' s2,
    calculate_spend_cost_basis spending_amount spending_asset time s = Some (info, s1)
    ∧ calculate_spend_cost_basis spending_amount spending_asset time' s = Some (info', s2)
    ∧ matched_acquisitions info' = matched_acquisitions info
    ∧ taxable_amount info' <= taxable_amount info.
Proof.
  intros Hinv Hnn Hle.
  destruct (calculate_spend_cost_basis_matches spending_amount spending_asset s Hinv Hnn)
    as (matches & Hpos & Hall).
  destruct (Hall time) as (info & s1 & Heq1 & Hm1).
  destruct (Hall time') as (info' & s2 & Heq2 & Hm2).
  exists info, s1, info', s2. split_and!; [done|done|congruence|].
  destruct (calculate_spend_cost_basis_taxable_sum spending_amount spending_asset time s)
    as (? & ? & Heq & Ht1 & _). rewrite Heq1 in Heq. injection Heq as <- <-.
  destruct (calculate_spend_cost_basis_taxable_sum spending_amount spending_asset time' s)
    as (? & ? & Heq & Ht2 & _). rewrite Heq2 in Heq. injection Heq as <- <-.
  rewrite Ht1, Ht2, Hm1, Hm2.
  pose proof (taxfree_matches_mono s time time' matches Hle Hpos) as Hmono.
  clear -Hmono. Qc_lra.
Qed.

End holding.

(** ** The used lots *)

Section used.
Context {env : RotkiEnv}.

(** A step that keeps the used lots spent: the heap keeps its length, no
    lot becomes pending, the lots that are pending nowhere are not written
    to, and what is added to a used list was pending and is used up. *)
Lemma used_spent_step s s' :
  lots_live s → used_spent s →
  length (heap s') = length (heap s) →
  (∀ a r, r ∈ pending s' a → r ∈ pending s a) →
  (∀ r, (∀ a, r ∉ pending s a) → lot s' r = lot s r) →
  (∀ a r, r ∈ used_acquisitions (ledger s' a) →
          r ∈ used_acquisitions (ledger s a)
          ∨ (∃ a0, r ∈ pending s a0) ∧ (∀ a', r ∉ pending s' a')
            ∧ remaining_amount (lot s' r) = 0) →
  used_spent s'.
Proof.
  intros Hlive Hused Hlen Hsub Hlots Hnew a r Hr.
  destruct (Hnew a r Hr) as [Hold|((a0 & Hp) & Hnot & Hz)].
  - destruct (Hused a r Hold) as (Hz & Hl & Hnot). split_and!.
    + by rewrite Hlots.
    + by rewrite Hlen.
    + intros a' Hin. by apply (Hnot a'), Hsub.
  - split_and!; [done| |done]. rewrite Hlen. by apply (Hlive a0).
Qed.

Lemma used_spent_new settings : used_spent (CostBasisCalculator_new settings).
Proof. intros asset r Hr. unfold ledger in Hr. simpl in Hr. by apply elem_of_nil in Hr. Qed.

Lemma used_spent_reset settings s : used_spent (reset settings s).
Proof. intros asset r Hr. unfold ledger in Hr. simpl in Hr. by apply elem_of_nil in Hr. Qed.

Lemma used_spent_same s s' :
  used_spent s → heap s' = heap s →
  (∀ a, used_acquisitions (ledger s' a) = used_acquisitions (ledger s a)) →
  (∀ a, pending s' a = pending s a) →
  used_spent s'.
Proof.
  intros Hused Hheap Hu Hp a r Hr. rewrite Hu in Hr.
  destruct (Hused a r Hr) as (Hz & Hl & Hnot).
  unfold lot. rewrite Hheap. split_and!; [done..|].
  intros a'. rewrite Hp. apply Hnot.
Qed.

Lemma used_spent_touch key s : used_spent s → used_spent (touch key s).
Proof.
  intros Hused. apply (used_spent_same s); [done|apply touch_heap|..].
  - intros a. by rewrite touch_ledger.
  - intros a. unfold pending. by rewrite touch_ledger.
Qed.

Lemma used_spent_obtain_asset event s : used_spent s → used_spent (obtain_asset event s).
Proof.
  intros Hused a r Hr.
  assert (r ∈ used_acquisitions (ledger s a)) as Hold.
  { rewrite obtain_asset_ledger in Hr. by case_decide. }
  destruct (Hused a r Hold) as (Hz & Hl & Hnot). split_and!.
  - by rewrite lot_obtain_asset_old.
  - rewrite obtain_asset_heap, length_app. simpl. lia.
  - intros a'. unfold pending. rewrite obtain_asset_ledger. case_decide; [|apply Hnot].
    cbn [acquisitions]. intros [Hin| ->%list_elem_of_singleton]%elem_of_app.
    + by apply (Hnot a').
    + lia.
Qed.

Lemma used_spent_reduce_asset_amount asset amount time s ok s' :
  lots_live s → used_spent s →
  reduce_asset_amount asset amount time s = Some (ok, s') → used_spent s'.
Proof.
  intros Hlive Hused Heq.
  destruct (reduce_asset_amount_effect asset amount time s)
    as (? & ? & Heq' & _ & Hu & Ho & Hl & Hlen & Hsub & _).
  rewrite Heq in Heq'. injection Heq' as <- <-.
  apply (used_spent_step s); [done..| | |].
  - intros a r Hr. destruct (decide (events_key a = events_key asset)) as [Hk|Hk].
    + rewrite (pending_same_key s' a asset Hk) in Hr.
      rewrite (pending_same_key s a asset Hk). by apply Hsub.
    + unfold pending in *. by rewrite Ho in Hr.
  - intros r Hnot. by apply Hl.
  - intros a r Hr. left. by rewrite Hu in Hr.
Qed.

Lemma NoDup_take_drop {A} (l : list A) k x : NoDup l → x ∈ take k l → x ∉ drop k l.
Proof.
  intros Hnd Ht Hd. rewrite <- (take_drop k l) in Hnd.
  apply list.NoDup_app in Hnd as (_ & Hdisj & _). by apply (Hdisj x).
Qed.

Lemma used_spent_calculate_spend_cost_basis spending_amount spending_asset time s info s' :
  lots_invariant s → used_spent s →
  calculate_spend_cost_basis spending_amount spending_asset time s = Some (info, s') →
  used_spent s'.
Proof.
  intros Hinv Hused Heq. pose proof Hinv as (Hlive & _ & _).
  destruct (calculate_spend_cost_basis_view spending_amount spending_asset time s Hinv)
    as (? & ? & Heq' & Hv & _ & Hu & _).
  rewrite Heq in Heq'. injection Heq' as <- <-.
  destruct (calculate_spend_cost_basis_untouched spending_amount spending_asset time s)
    as (? & ? & Heq' & Ho & _ & _ & _ & Hlen & _ & Hl).
  rewrite Heq in Heq'. injection Heq' as <- <-.
  destruct (lots_view_suffix _ _ _ _ Hv) as [_ Hd].
  set (k := (length (pending s spending_asset) - length (pending s' spending_asset))%nat) in *.
  assert (∀ a r, r ∈ pending s' a → r ∈ pending s a) as Hsub.
  { intros a r Hr. destruct (decide (events_key a = events_key spending_asset)) as [Hk|Hk].
    - rewrite (pending_same_key s' a spending_asset Hk) in Hr.
      rewrite (pending_same_key s a spending_asset Hk).
      rewrite Hd in Hr. by eapply subseteq_drop.
    - unfold pending in *. by rewrite Ho in Hr. }
  apply (used_spent_step s); [done..| |].
  - intros r Hnot. by apply Hl.
  - intros a r Hr. destruct (decide (events_key a = events_key spending_asset)) as [Hk|Hk].
    + rewrite (ledger_same_key s' a spending_asset Hk) in Hr.
      rewrite (ledger_same_key s a spending_asset Hk).
      rewrite Hu in Hr. apply elem_of_app in Hr as [?|Hr]; [by left|right].
      assert (r ∈ pending s spending_asset) as Hin by (by eapply subseteq_take).
      assert (r ∉ pending s' spending_asset) as Hout.
      { rewrite Hd. apply NoDup_take_drop; [|done]. by apply lots_invariant_NoDup. }
      split_and!.
      * by exists spending_asset.
      * intros a'. destruct (decide (events_key a' = events_key spending_asset)) as [Hk'|Hk'].
        -- by rewrite (pending_same_key _ a' spending_asset Hk').
        -- intros Hin'. apply Hsub in Hin'.
           by apply (lots_invariant_other s spending_asset a' r Hinv Hk').
      * by apply (calculate_spend_cost_basis_used_up _ _ _ _ _ _ Hinv Heq).
    + left. by rewrite Ho in Hr.
Qed.


Lemma used_spent_spend_asset location time asset amount rate taxable_spend s result s' :
  lots_invariant s → used_spent s →
  spend_asset location time asset amount rate taxable_spend s = Some (result, s') →
  used_spent s'.
Proof.
  intros Hinv Hused. unfold spend_asset. rewrite get_events_eq.
  match goal with |- context [store_events ?k ?e ?s0] => set (s1 := store_events k e s0) end.
  assert (∀ a, pending s1 a = pending s a) as Hp.
  { intros a. unfold pending, s1. rewrite ledger_store_events, touch_ledger.
    case_decide as E; [|done]. simpl. by rewrite (ledger_same_key s a asset E). }
  assert (heap s1 = heap s) as Hh by (unfold s1; by rewrite heap_store_events, touch_heap).
  assert (lots_invariant s1) as Hinv1 by (by apply (lots_invariant_same s)).
  assert (used_spent s1) as Hused1.
  { apply (used_spent_same s); [done..| |done].
    intros a. unfold s1. rewrite ledger_store_events, touch_ledger.
    case_decide as E; [|done]. simpl. by rewrite (ledger_same_key s a asset E). }
  destruct (negb (is_fiat asset) && taxable_spend).
  - destruct (calculate_spend_cost_basis amount asset time s1) as [[info s2]|] eqn:E; [|done].
    cbn [mbind option_bind]. intros [= <- <-].
    by apply (used_spent_calculate_spend_cost_basis _ _ _ _ _ _ Hinv1 Hused1 E).
  - destruct (reduce_asset_amount asset amount time s1) as [[ok s2]|] eqn:E; [|done].
    cbn [mbind option_bind]. intros [= <- <-].
    apply (used_spent_reduce_asset_amount _ _ _ _ _ _ (proj1 Hinv1) Hused1 E).
Qed.

Lemma used_spent_get_calculated_asset_amount asset s :
  used_spent s → used_spent (get_calculated_asset_amount asset s).2.
Proof.
  intros Hused. rewrite get_calculated_asset_amount_eq. by apply used_spent_touch.
Qed.

Lemma used_spent_handle_prefork_asset_acquisitions location time asset amount price s :
  used_spent s →
  used_spent (handle_prefork_asset_acquisitions location time asset amount price s).2.
Proof.
  intros Hused. rewrite handle_prefork_asset_acquisitions_eq. cbn [snd].
  revert s Hused. induction (prefork_acquisitions asset time) as [|d l IH]; intros s Hused.
  - done.
  - cbn [foldl]. by apply IH, used_spent_obtain_asset.
Qed.

Lemma used_spent_handle_prefork_asset_spends asset amount time s s' :
  lots_invariant s → used_spent s →
  handle_prefork_asset_spends asset amount time s = Some s' → used_spent s'.
Proof.
  rewrite handle_prefork_asset_spends_eq.
  revert s. induction (prefork_acquisitions asset time) as [|d l IH]; intros s Hinv Hused.
  - by intros [= <-].
  - cbn [foldl mbind option_bind].
    destruct (reduce_asset_amount_invariant d.1 amount time s Hinv)
      as (ok & s1 & Heq & Hinv1).
    rewrite Heq. cbn [fmap option_fmap option_map snd]. apply (IH s1 Hinv1).
    apply (used_spent_reduce_asset_amount _ _ _ _ _ _ (proj1 Hinv) Hused Heq).
Qed.

(** X17: the used lots are spent: in a new calculator, and after every
    operation on a state with the invariant of the lots in which it holds,
    a lot in a used list has a remaining amount of zero and is pending for
    no asset. *)
Theorem calculator_keeps_used_lots_spent s :
  lots_invariant s → used_spent s →
  (∀ settings, used_spent (CostBasisCalculator_new settings))
  ∧ (∀ settings, used_spent (reset settings s))
  ∧ (∀ event, used_spent (obtain_asset event s))
  ∧ (∀ location time asset amount rate taxable_spend result s',
       spend_asset location time asset amount rate taxable_spend s = Some (result, s') →
       used_spent s')
  ∧ (∀ spending_amount spending_asset time info s',
       calculate_spend_cost_basis spending_amount spending_asset time s = Some (info, s') →
       used_spent s')
  ∧ (∀ asset amount time ok s',
       reduce_asset_amount asset amount time s = Some (ok, s') → used_spent s')
  ∧ (∀ asset, used_spent (get_calculated_asset_amount asset s).2)
  ∧ (∀ location time asset amount price,
       used_spent (handle_prefork_asset_acquisitions location time asset amount price s).2)
  ∧ (∀ asset amount time s',
       handle_prefork_asset_spends asset amount time s = Some s' → used_spent s').
Proof.
  intros Hinv Hused. split_and!.
  - apply used_spent_new.
  - intros settings. apply used_spent_reset.
  - intros event. by apply used_spent_obtain_asset.
  - intros ? ? ? ? ? ? ? ?. by apply used_spent_spend_asset.
  - intros ? ? ? ? ?. by apply used_spent_calculate_spend_cost_basis.
  - intros ? ? ? ? ?. apply used_spent_reduce_asset_amount; [apply Hinv|done].
  - intros asset. by apply used_spent_get_calculated_asset_amount.
  - intros. by apply used_spent_handle_prefork_asset_acquisitions.
  - intros ? ? ? ?. by apply used_spent_handle_prefork_asset_spends.
Qed.

End used.

(** ** Properties of the serialization *)

Section serialization_properties.
Context {fmt : Formatting}.

Lemma foldl_snoc_id {A} (l acc : list A) : foldl (λ acc entry, acc ++ [entry]) acc l = acc ++ l.
Proof.
  revert acc. induction l as [|x l IH]; intros acc; simpl.
  - by rewrite app_nil_r.
  - by rewrite IH, <- app_assoc.
Qed.

(** X18: what survives a round trip through [serialize] and [deserialize]:
    whether the result is complete and, in their order, the serialized
    matched acquisitions; the amount and the costs come back as zero. *)
Theorem CostBasisInfo_deserialize_serialize s info :
  CostBasisInfo_deserialize (CostBasisInfo_serialize s info)
  = Returns {| stored_taxable_amount := ZERO; stored_taxable_bought_cost := ZERO;
               stored_taxfree_bought_cost := ZERO;
               stored_matched_acquisitions :=
                 (λ x, ADict (MatchedAcquisition_serialize s x)) <$> matched_acquisitions info;
               stored_is_complete := ABool (is_complete info) |}.
Proof.
  unfold CostBasisInfo_deserialize, CostBasisInfo_serialize.
  cbn [dict_lookup]. rewrite decide_True by done.
  rewrite decide_False by done. rewrite decide_True by done.
  cbn [iterate]. by rewrite foldl_snoc_id.
Qed.


(** X19: what [deserialize] does with a document: it raises a
    [DeserializationError] exactly when one of the two keys is missing, a
    [TypeError] when both are there and the matched acquisitions cannot be
    iterated over, and what it returns has zero for the amount and the
    costs and the document's value for [is_complete]. *)
Theorem CostBasisInfo_deserialize_outcomes data :
  ((∃ message, CostBasisInfo_deserialize data = Raise (DeserializationError message))
   ↔ dict_lookup "is_complete" data = None
     ∨ dict_lookup "matched_acquisitions" data = None)
  ∧ (CostBasisInfo_deserialize data = Raise TypeError
     ↔ dict_lookup "is_complete" data ≠ None
       ∧ ∃ entries, dict_lookup "matched_acquisitions" data = Some entries
                    ∧ iterate entries = None)
  ∧ (∀ stored, CostBasisInfo_deserialize data = Returns stored →
       stored_taxable_amount stored = ZERO
       ∧ stored_taxable_bought_cost stored = ZERO
       ∧ stored_taxfree_bought_cost stored = ZERO
       ∧ dict_lookup "is_complete" data = Some (stored_is_complete stored)
       ∧ ∃ entries, dict_lookup "matched_acquisitions" data = Some entries
                    ∧ iterate entries = Some (stored_matched_acquisitions stored)).
Proof.
  unfold CostBasisInfo_deserialize.
  destruct (dict_lookup "is_complete" data) as [is_complete|].
  2: { split_and!.
       - split; [by left|]. intros _. by eexists.
       - split; [done|]. by intros [? _].
       - done. }
  destruct (dict_lookup "matched_acquisitions" data) as [entries|].
  2: { split_and!.
       - split; [by right|]. intros _. by eexists.
       - split; [done|]. by intros [_ (? & ? & _)].
       - done. }
  destruct (iterate entries) as [l|] eqn:E.
  - split_and!.
    + split; [by intros [? ?]|by intros [?|?]].
    + split; [done|]. intros [_ (? & [= <-] & ?)]. congruence.
    + intros stored [= <-]. cbn. split_and!; try done.
      exists entries. by rewrite foldl_snoc_id.
  - split_and!.
    + split; [by intros [? ?]|by intros [?|?]].
    + split; [|done]. intros _. split; [done|]. by exists entries.
    + done.
Qed.

(** X20: what the exported text tells: it is empty exactly for a complete
    result without matched acquisitions, and it starts with the notice of
    incomplete information exactly when the result is not complete. *)
Theorem CostBasisInfo_to_string_flags s converter info :
  (CostBasisInfo_to_string s converter info = ""%string
   ↔ is_complete info = true ∧ matched_acquisitions info = [])
  ∧ (String.prefix "Incomplete cost basis information for spend. "
       (CostBasisInfo_to_string s converter info) = true
     ↔ is_complete info = false).
Proof.
  unfold CostBasisInfo_to_string. cbv zeta.
  destruct (is_complete info); cbn [negb]; case_decide as Hn.
  - apply length_zero_iff_nil in Hn. by repeat split.
  - split; [|done]. split; [done|]. intros [_ Hm]. by rewrite Hm in Hn.
  - split; (split; [done|]).
    + by intros [? _].
    + intros _. reflexivity.
  - split; (split; [done|]).
    + by intros [? _].
    + intros _. reflexivity.
Qed.

End serialization_properties.

(** ** Examples *)

#[local] Existing Instance example_env.

(** C6: the input on which the code misses the claim: reducing by 1 an
    asset of a new calculator, which has no pending lot, returns [False] at
    the guard on the empty list and logs nothing, where the docstring of
    [reduce_asset_amount] says that a critical error is logged when the
    acquisitions do not suffice, and the path of the used up lots logs it. *)
Lemma reduce_asset_amount_no_lot_not_logged :
  ∃ s',
    reduce_asset_amount "BCH" 1 0 example_calculator = Some (false, s')
    ∧ ¬ ∃ record, record ∈ log s' ∧ level record = CRITICAL.
Proof.
  eexists. split; [by vm_compute|]. simpl. by intros (record & ?%elem_of_nil & _).
Qed.

(** C3, as the claim has it, fails: of the lots 3, 5 and 0 a spend of 3 + 5
    uses up the third lot as well, with a match of amount zero, and moves it
    to the used lots; no lot stays pending. *)
Lemma calculate_spend_cost_basis_two_oldest_zero_third :
  ∃ info s',
    pending example_zero_third "BTC" = [0; 1; 2]%nat
    ∧ calculate_spend_cost_basis
        (remaining_amount (lot example_zero_third 0)
         + remaining_amount (lot example_zero_third 1)) "BTC" 400 example_zero_third
      = Some (info, s')
    ∧ is_complete info = true
    ∧ ma_event <$> matched_acquisitions info = [0; 1; 2]%nat
    ∧ ma_amount <$> matched_acquisitions info = [Q2Qc 3; Q2Qc 5; 0]
    ∧ used_acquisitions (ledger s' "BTC") = [0; 1; 2]%nat
    ∧ pending s' "BTC" = [].
Proof.
  eexists _, _. split_and!; [by vm_compute|by vm_compute|..];
    try (apply (bool_decide_unpack _)); by vm_compute.
Qed.

(** C10, as the claim has it, fails: of the lots 3, 5, 0 and 7 a spend of
    3 + 5, the amounts of the prefix of the two oldest, uses up the lot of
    amount zero after the prefix and moves it to the used lots, and matches
    the last lot with zero as well: two matches of amount zero, and the first
    lot after the prefix does not stay pending. *)
Lemma calculate_spend_cost_basis_zero_match_zero_lot :
  ∃ info s',
    pending example_zero_lot "BTC" = [0; 1]%nat ++ 2%nat :: [3%nat]
    ∧ calculate_spend_cost_basis (Qc_sum (amounts_of example_zero_lot [0; 1]%nat))
        "BTC" 500 example_zero_lot
      = Some (info, s')
    ∧ ma_event <$> matched_acquisitions info = [0; 1; 2; 3]%nat
    ∧ ma_amount <$> matched_acquisitions info = [Q2Qc 3; Q2Qc 5; 0; 0]
    ∧ used_acquisitions (ledger s' "BTC") = [0; 1; 2]%nat
    ∧ pending s' "BTC" = [3%nat]
    ∧ remaining_amount (lot s' 3) = Q2Qc 7.
Proof.
  eexists _, _. split_and!; [by vm_compute|by vm_compute|..];
    try (apply (bool_decide_unpack _)); by vm_compute.
Qed.

(** C8, as the claim has it, fails: with 1 BCH and 1 BSV pending, a spend of
    2 BTC before the fork lowers each balance by 1, not by 2, and logs two
    critical records. *)
Lemma handle_prefork_btc_not_enough :
  ∃ s',
    handle_prefork_asset_spends "BTC" (Q2Qc 2) 1400000001 example_prefork = Some s'
    ∧ balance example_prefork "BCH" = 1
    ∧ balance example_prefork "BSV" = 1
    ∧ balance s' "BCH" = balance example_prefork "BCH" - 1
    ∧ balance s' "BSV" = balance example_prefork "BSV" - 1
    ∧ balance s' "BCH" ≠ balance example_prefork "BCH" - Q2Qc 2
    ∧ balance s' "BSV" ≠ balance example_prefork "BSV" - Q2Qc 2
    ∧ level <$> log s' = [CRITICAL; CRITICAL].
Proof.
  eexists. split_and!; [by vm_compute|..];
    try (apply (bool_decide_unpack _)); by vm_compute.
Qed.

Lemma reduce_asset_amount_enough_or_logged_witness :
  ∃ ok s',
    reduce_asset_amount "BTC" (Q2Qc 8) 200 example_five = Some (ok, s')
    ∧ (ok = true ↔ pending example_five "BTC" ≠ [] ∧ Q2Qc 8 <= balance example_five "BTC").
Proof.
  destruct (reduce_asset_amount_enough_or_logged "BTC" (Q2Qc 8) 200 example_five)
    as (ok & s' & Heq & Hok & _).
  - by vm_compute.
  - repeat constructor. by vm_compute.
  - by exists ok, s'.
Defined.

Lemma calculate_spend_cost_basis_no_acquisitions_witness :
  ∃ s',
    calculate_spend_cost_basis (Q2Qc 5) "BTC" 200 example_calculator
    = Some ({| taxable_amount := Q2Qc 5; taxable_bought_cost := ZERO;
               taxfree_bought_cost := ZERO; matched_acquisitions := [];
               is_complete := false |}, s')
    ∧ msg_aggregator s' = [NoDocumentedAcquisition "BTC" 200].
Proof.
  destruct (calculate_spend_cost_basis_no_acquisitions (Q2Qc 5) "BTC" 200 example_calculator)
    as (s' & Heq & Hmsg & _).
  - reflexivity.
  - by exists s'.
Defined.

Lemma calculate_spend_cost_basis_splits_lot_witness :
  ∃ info s',
    calculate_spend_cost_basis (Q2Qc 4) "BTC" 200 example_one_lot = Some (info, s')
    ∧ pending s' "BTC" = [0%nat]
    ∧ remaining_amount (lot s' 0) = Q2Qc 6.
Proof.
  destruct (calculate_spend_cost_basis_splits_lot "BTC" 200 example_one_lot 0)
    as (info & s' & Heq & Hp & Hr & _).
  - by vm_compute.
  - vm_compute. lia.
  - reflexivity.
  - by exists info, s'.
Defined.


Lemma calculate_spend_cost_basis_two_oldest_witness :
  ∃ info s',
    calculate_spend_cost_basis
      (remaining_amount (lot example_three_lots 0)
       + remaining_amount (lot example_three_lots 1)) "BTC" 400 example_three_lots
    = Some (info, s')
    ∧ is_complete info = true
    ∧ used_acquisitions (ledger s' "BTC") = [0; 1]%nat
    ∧ pending s' "BTC" = [2%nat]
    ∧ remaining_amount (lot s' 2) = Q2Qc 7.
Proof.
  destruct (calculate_spend_cost_basis_two_oldest "BTC" 400 example_three_lots 0 1 2 [])
    as (info & s' & Heq & Hc & Hu & Hp & _ & _ & Hr & _).
  - by vm_compute.
  - apply (bool_decide_unpack _). by vm_compute.
  - vm_compute. lia.
  - vm_compute. lia.
  - vm_compute. lia.
  - by vm_compute.
  - by vm_compute.
  - exists info, s'. by rewrite Hu, Hr.
Defined.

Lemma calculate_spend_cost_basis_zero_match_witness :
  ∃ info s',
    calculate_spend_cost_basis (Qc_sum (amounts_of example_three_lots [0; 1]%nat))
      "BTC" 400 example_three_lots
    = Some (info, s')
    ∧ matched_acquisitions info
      = matches_of example_three_lots [0; 1]%nat ++ [{| ma_amount := 0; ma_event := 2 |}]
    ∧ remaining_amount (lot s' 2) = Q2Qc 7.
Proof.
  destruct (calculate_spend_cost_basis_zero_match "BTC" 400 example_three_lots [0; 1]%nat 2 [])
    as (info & s' & Heq & Hm & _ & Hr).
  - by vm_compute.
  - apply (bool_decide_unpack _). by vm_compute.
  - vm_compute. lia.
  - repeat constructor; by vm_compute.
  - by vm_compute.
  - exists info, s'. by rewrite Hr.
Defined.

Lemma calculate_spend_cost_basis_not_enough_witness :
  ∃ info s',
    calculate_spend_cost_basis (Q2Qc 8) "BTC" 200 example_five = Some (info, s')
    ∧ is_complete info = false
    ∧ msg_aggregator s'
      = [NotEnoughDocumentedAcquisitions "BTC" 200 (balance example_five "BTC")
           (Some (Q2Qc 8 - balance example_five "BTC"))].
Proof.
  destruct (calculate_spend_cost_basis_not_enough (Q2Qc 8) "BTC" 200 example_five)
    as (info & s' & Heq & Hmsg & _ & Hc & _).
  - by vm_compute.
  - apply (bool_decide_unpack _). by vm_compute.
  - repeat constructor. by vm_compute.
  - by vm_compute.
  - by exists info, s'.
Defined.

Lemma calculate_spend_cost_basis_taxfree_period_witness :
  ∃ info s',
    calculate_spend_cost_basis (Q2Qc 4) "BTC" (100 + 31536000 + 1) example_one_lot
    = Some (info, s')
    ∧ taxable_bought_cost info = 0
    ∧ taxfree_bought_cost info
      = Qc_sum (matched_cost example_one_lot <$> matched_acquisitions info).
Proof.
  destruct (calculate_spend_cost_basis_taxfree_period (Q2Qc 4) "BTC" (100 + 31536000 + 1)
              example_one_lot)
    as (info & s' & Heq & _ & _ & _ & _ & Hboundary).
  destruct (Hboundary 31536000%Z 100%Z) as [Hafter _].
  - reflexivity.
  - intros r Hr.
    assert (pending example_one_lot "BTC" = [0%nat]) as Hp by (by vm_compute).
    rewrite Hp in Hr. apply list_elem_of_singleton in Hr as ->. reflexivity.
  - destruct (Hafter eq_refl) as (Htaxable & Htaxfree & _). by exists info, s'.
Defined.

Lemma handle_prefork_btc_witness :
  ∃ s',
    handle_prefork_asset_spends "BTC" (Q2Qc (3 # 10)) 1400000001 example_prefork = Some s'
    ∧ balance s' "BCH" = balance example_prefork "BCH" - Q2Qc (3 # 10)
    ∧ balance s' "BSV" = balance example_prefork "BSV" - Q2Qc (3 # 10)
    ∧ spends (ledger s' "BCH") = [] ∧ spends (ledger s' "BSV") = [].
Proof.
  destruct (handle_prefork_btc "kraken" 1400000001 (Q2Qc (3 # 10)) (Q2Qc 600) example_prefork)
    as [_ (ok_bch & s1 & ok_bsv & s' & _ & _ & Heq & Hspends & Hbalance)].
  - reflexivity.
  - destruct Hbalance as [Hbch Hbsv].
    + by vm_compute.
    + apply (bool_decide_unpack _). by vm_compute.
    + intros r Hr.
      assert (pending example_prefork "BCH" ++ pending example_prefork "BSV" = [1; 2]%nat)
        as Hp by (by vm_compute).
      assert (length (heap example_prefork) = 3%nat) as Hl by (by vm_compute).
      change (r ∈ pending example_prefork "BCH" ++ pending example_prefork "BSV") in Hr.
      rewrite Hp in Hr. rewrite Hl.
      apply elem_of_cons in Hr as [->|Hr]; [lia|].
      apply list_elem_of_singleton in Hr as ->. lia.
    + repeat constructor; by vm_compute.
    + by vm_compute.
    + by vm_compute.
    + exists s'. rewrite !Hspends. by split_and!.
Defined.

(** The ledgers of the examples have the invariant of the lots. *)
Lemma example_three_lots_invariant : lots_invariant example_three_lots.
Proof.
  repeat (apply obtain_asset_invariant; [|by vm_compute]). apply lots_invariant_new.
Qed.

Lemma example_prefork_invariant : lots_invariant example_prefork.
Proof.
  apply handle_prefork_asset_acquisitions_invariant; [|by vm_compute].
  apply obtain_asset_invariant; [|by vm_compute]. apply lots_invariant_new.
Qed.

(** Instances of the further properties. *)
Lemma example_three_lots_used_spent : used_spent example_three_lots.
Proof. repeat apply used_spent_obtain_asset. apply used_spent_new. Qed.

Lemma calculate_spend_cost_basis_conserves_witness :
  ∃ info s',
    calculate_spend_cost_basis (Q2Qc 4) "BTC" 400 example_three_lots = Some (info, s')
    ∧ Qc_sum (ma_amount <$> matched_acquisitions info) = Q2Qc 4
    ∧ balance s' "BTC" = balance example_three_lots "BTC" - Q2Qc 4.
Proof.
  destruct (calculate_spend_cost_basis_conserves (Q2Qc 4) "BTC" 400 example_three_lots
              example_three_lots_invariant)
    as (info & s' & Heq & Hm & Hb & _).
  - by vm_compute.
  - exists info, s'. rewrite Hb, Hm. by split_and!.
Defined.

Lemma calculate_spend_cost_basis_additive_witness :
  ∃ info1 s1 info2 s2 info s12,
    calculate_spend_cost_basis (Q2Qc 2) "BTC" 400 example_three_lots = Some (info1, s1)
    ∧ calculate_spend_cost_basis (Q2Qc 4) "BTC" 500 s1 = Some (info2, s2)
    ∧ calculate_spend_cost_basis (Q2Qc 2 + Q2Qc 4) "BTC" 600 example_three_lots
      = Some (info, s12)
    ∧ (∀ asset, ledger s2 asset = ledger s12 asset)
    ∧ heap s2 = heap s12.
Proof.
  apply (calculate_spend_cost_basis_additive (Q2Qc 2) (Q2Qc 4) "BTC" 400 500 600
           example_three_lots example_three_lots_invariant).
  by vm_compute.
Defined.

Lemma reduce_asset_amount_as_spend_witness :
  ∃ ok s1 info s2,
    reduce_asset_amount "BTC" (Q2Qc 4) 400 example_three_lots = Some (ok, s1)
    ∧ calculate_spend_cost_basis (Q2Qc 4) "BTC" 400 example_three_lots = Some (info, s2)
    ∧ pending s1 "BTC" = pending s2 "BTC"
    ∧ amounts_of s1 (pending s1 "BTC") = amounts_of s2 (pending s2 "BTC").
Proof.
  destruct (reduce_asset_amount_as_spend "BTC" (Q2Qc 4) 400 example_three_lots
              example_three_lots_invariant)
    as (ok & s1 & info & s2 & Heq1 & Heq2 & Hsame & _).
  exists ok, s1, info, s2. destruct (Hsame "BTC"). by split_and!.
Defined.

Lemma reduce_asset_amount_conserves_witness :
  ∃ ok s',
    reduce_asset_amount "BTC" (Q2Qc 4) 400 example_three_lots = Some (ok, s')
    ∧ balance s' "BTC" = balance example_three_lots "BTC" - Q2Qc 4.
Proof.
  destruct (reduce_asset_amount_conserves "BTC" (Q2Qc 4) 400 example_three_lots
              example_three_lots_invariant)
    as (ok & s' & Heq & Hb & _).
  - by vm_compute.
  - by exists ok, s'.
Defined.

Lemma obtain_asset_calculated_amount_witness :
  (get_calculated_asset_amount "ETH"
     (obtain_asset (example_acquisition "WETH" 500 (Q2Qc 2) (Q2Qc 5)) example_three_lots)).1
  = Some (balance example_three_lots "ETH" + Q2Qc 2).
Proof.
  rewrite (obtain_asset_calculated_amount (example_acquisition "WETH" 500 (Q2Qc 2) (Q2Qc 5))
             example_three_lots "ETH") by apply example_three_lots_invariant.
  reflexivity.
Defined.

Lemma handle_prefork_round_trip_witness :
  ∃ s',
    handle_prefork_asset_spends "BTC" (Q2Qc (3 # 10)) 1400000001
      (handle_prefork_asset_acquisitions "kraken" 1400000001 "BTC" (Q2Qc (3 # 10)) (Q2Qc 600)
         example_prefork).2 = Some s'
    ∧ ∀ a, (get_calculated_asset_amount a s').1
           = (get_calculated_asset_amount a example_prefork).1.
Proof.
  apply (handle_prefork_round_trip "kraken" 1400000001 "BTC" (Q2Qc (3 # 10)) (Q2Qc 600)
           example_prefork example_prefork_invariant).
  by vm_compute.
Defined.

Lemma calculator_keeps_lots_invariant_witness :
  lots_invariant (obtain_asset (example_acquisition "BTC" 400 1 (Q2Qc 5)) example_three_lots).
Proof.
  destruct (calculator_keeps_lots_invariant example_three_lots example_three_lots_invariant)
    as (_ & _ & Hobtain & _).
  apply Hobtain. by vm_compute.
Defined.

Lemma calculate_spend_cost_basis_later_less_taxable_witness :
  ∃ info s1 info' s2,
    calculate_spend_cost_basis (Q2Qc 4) "BTC" 400 example_three_lots = Some (info, s1)
    ∧ calculate_spend_cost_basis (Q2Qc 4) "BTC" 40000000 example_three_lots
      = Some (info', s2)
    ∧ matched_acquisitions info' = matched_acquisitions info
    ∧ taxable_amount info' <= taxable_amount info.
Proof.
  apply (calculate_spend_cost_basis_later_less_taxable (Q2Qc 4) "BTC" 400 40000000
           example_three_lots example_three_lots_invariant).
  - by vm_compute.
  - lia.
Defined.

Lemma calculator_keeps_used_lots_spent_witness :
  ∃ info s',
    calculate_spend_cost_basis (Q2Qc 4) "BTC" 400 example_three_lots = Some (info, s')
    ∧ used_spent s'.
Proof.
  destruct (calculator_keeps_used_lots_spent example_three_lots example_three_lots_invariant
              example_three_lots_used_spent)
    as (_ & _ & _ & _ & Hspend & _).
  destruct (calculate_spend_cost_basis_total (Q2Qc 4) "BTC" 400 example_three_lots)
    as (info & s' & Heq & _).
  exists info, s'. split; [done|]. by apply (Hspend _ _ _ _ _ Heq).
Defined.
